(** * Shivaay COLD benchmark: the evaluation pipeline and the results aggregator

    A shallow embedding of [tree_go/main.go] (the per-dataset evaluation
    pipeline) and of [results/main.go] (the aggregator), with the parts of the
    Go runtime and standard library they rest on: fixed-width integers,
    [float64], UTF-8 decoding, [strings.TrimSpace], the fragment of [regexp]
    that [answerRegex] uses, and [rand.Shuffle]. *)

From Stdlib Require Import ZArith NArith List Bool Lia.
From Stdlib Require Import Strings.Ascii Strings.String.
From Stdlib Require Import Floats.PrimFloat Numbers.Cyclic.Int63.Uint63.
From stdpp Require Import base gmap strings.
Import ListNotations.

Set Default Proof Using "Type".
Local Open Scope Z_scope.

(** ** Go's fixed-width integers and [float64] *)

Module GoInt.

(** Two's-complement wrap-around of a signed [w]-bit integer. *)
Definition wrap (w : Z) (z : Z) : Z :=
  (z + 2 ^ (w - 1)) mod 2 ^ w - 2 ^ (w - 1).

Definition wrap32 : Z -> Z := wrap 32.
Definition wrap64 : Z -> Z := wrap 64.

(** [int32] addition, as performed by [atomic.AddInt32] and by [+]. *)
Definition add32 (a b : Z) : Z := wrap32 (a + b).
Definition sub32 (a b : Z) : Z := wrap32 (a - b).

(** [int] is 64 bits wide on the platforms the programs run on. *)
Definition add64 (a b : Z) : Z := wrap64 (a + b).
Definition sub64 (a b : Z) : Z := wrap64 (a - b).

(** The conversion [float64(n)] of an integer that fits 64 bits: round to
    nearest even, exact below [2^53]. *)
Definition float64_of_int (z : Z) : float :=
  if z =? - 2 ^ 63 then PrimFloat.opp 9223372036854775808%float
  else if z <? 0 then PrimFloat.opp (PrimFloat.of_uint63 (Uint63.of_Z (- z)))
  else PrimFloat.of_uint63 (Uint63.of_Z z).

End GoInt.

(** ** Bytes, UTF-8 and [strings.TrimSpace] *)

Module GoUtf8.

(** A Go string is a sequence of bytes; [ascii] is the byte type here. *)
Definition byteVal (c : ascii) : N := N_of_ascii c.

Definition RuneError : N := 0xFFFD%N.
Definition RuneSelf : N := 0x80%N.
Definition UTFMax : nat := 4.

(** Entries of the decoder's [first] table: the kind of a leading byte. *)
Inductive LeadKind :=
| LeadASCII
| LeadInvalid
| LeadMulti (size : nat) (lo hi : N).

Definition first (b : N) : LeadKind :=
  (if b <? 0x80 then LeadASCII
   else if b <? 0xC2 then LeadInvalid
   else if b <? 0xE0 then LeadMulti 2 0x80 0xBF
   else if b =? 0xE0 then LeadMulti 3 0xA0 0xBF
   else if b <? 0xED then LeadMulti 3 0x80 0xBF
   else if b =? 0xED then LeadMulti 3 0x80 0x9F
   else if b <? 0xF0 then LeadMulti 3 0x80 0xBF
   else if b =? 0xF0 then LeadMulti 4 0x90 0xBF
   else if b <? 0xF4 then LeadMulti 4 0x80 0xBF
   else if b =? 0xF4 then LeadMulti 4 0x80 0x8F
   else LeadInvalid)%N.

Definition isCont (b : N) : bool := ((0x80 <=? b) && (b <=? 0xBF))%N.
Definition maskx (b : N) : N := N.land b 0x3F.

(** [utf8.DecodeRuneInString]: the first rune of [s] and its width in bytes;
    [(RuneError, 0)] on the empty string, [(RuneError, 1)] on an encoding that
    is invalid or cut short. *)
Definition DecodeRuneInString (s : list ascii) : N * nat :=
  match s with
  | [] => (RuneError, 0%nat)
  | c0 :: t0 =>
    let s0 := byteVal c0 in
    match first s0 with
    | LeadASCII => (s0, 1%nat)
    | LeadInvalid => (RuneError, 1%nat)
    | LeadMulti sz lo hi =>
      if (List.length s <? sz)%nat then (RuneError, 1%nat) else
      match t0 with
      | [] => (RuneError, 1%nat)
      | c1 :: t1 =>
        let s1 := byteVal c1 in
        if ((s1 <? lo) || (hi <? s1))%N then (RuneError, 1%nat) else
        if (sz <=? 2)%nat
        then (N.lor (N.shiftl (N.land s0 0x1F) 6) (maskx s1), 2%nat) else
        match t1 with
        | [] => (RuneError, 1%nat)
        | c2 :: t2 =>
          let s2 := byteVal c2 in
          if negb (isCont s2) then (RuneError, 1%nat) else
          if (sz <=? 3)%nat
          then (N.lor (N.lor (N.shiftl (N.land s0 0x0F) 12)
                             (N.shiftl (maskx s1) 6)) (maskx s2), 3%nat) else
          match t2 with
          | [] => (RuneError, 1%nat)
          | c3 :: _ =>
            let s3 := byteVal c3 in
            if negb (isCont s3) then (RuneError, 1%nat) else
            (N.lor (N.lor (N.lor (N.shiftl (N.land s0 0x07) 18)
                                 (N.shiftl (maskx s1) 12))
                          (N.shiftl (maskx s2) 6)) (maskx s3), 4%nat)
          end
        end
      end
    end
  end.

(** [utf8.RuneStart]: the byte is not a continuation byte. *)
Definition RuneStart (b : N) : bool := negb (N.land b 0xC0 =? 0x80)%N.

(** The backward scan of [utf8.DecodeLastRuneInString], on the bytes before
    the last one, nearest first: how many of them (at most [UTFMax - 1]) are
    stepped over up to and including the first rune start; when none is a
    rune start the scan runs past its limit. *)
Fixpoint backToStart (budget : nat) (before_rev : list ascii) : nat :=
  match budget, before_rev with
  | O, _ => 1
  | S _, [] => 0
  | S k, c :: rest =>
    if RuneStart (byteVal c) then 1 else S (backToStart k rest)
  end%nat.

(** [utf8.DecodeLastRuneInString], on the reversed string [r = rev s]. *)
Definition DecodeLastRune (r : list ascii) : N * nat :=
  match r with
  | [] => (RuneError, 0%nat)
  | c :: before_rev =>
    if (byteVal c <? RuneSelf)%N then (byteVal c, 1%nat) else
    let back := backToStart (UTFMax - 1) before_rev in
    let window := rev (firstn (S back) r) in
    let '(rn, size) := DecodeRuneInString window in
    if (size =? List.length window)%nat then (rn, size) else (RuneError, 1%nat)
  end.

End GoUtf8.

Module GoUnicode.

(** [unicode.IsSpace]: the Latin-1 white space, then the other code points
    with the White_Space property. *)
Definition IsSpace (r : N) : bool :=
  (if r <=? 0xFF then
     (r =? 0x09) || (r =? 0x0A) || (r =? 0x0B) || (r =? 0x0C) || (r =? 0x0D)
     || (r =? 0x20) || (r =? 0x85) || (r =? 0xA0)
   else
     (r =? 0x1680) || ((0x2000 <=? r) && (r <=? 0x200A))
     || (r =? 0x2028) || (r =? 0x2029) || (r =? 0x202F) || (r =? 0x205F)
     || (r =? 0x3000))%N.

End GoUnicode.

Module GoStrings.
Import GoUtf8.

(** [strings.TrimLeftFunc]: drop leading runes while [f] holds of them. The
    recursion is on a bound, the length of the string, that the widths of
    the decoded runes never exhaust. *)
Fixpoint trimLeftLoop (f : N -> bool) (bound : nat) (s : list ascii)
  : list ascii :=
  match bound with
  | O => s
  | S k =>
    match s with
    | [] => []
    | _ :: _ =>
      let '(r, size) := DecodeRuneInString s in
      if f r then trimLeftLoop f k (skipn size s) else s
    end
  end.

Definition TrimLeftFunc (s : list ascii) (f : N -> bool) : list ascii :=
  trimLeftLoop f (List.length s) s.

(** [strings.TrimRightFunc], by the same loop from the end of the string. *)
Fixpoint trimRightLoop (f : N -> bool) (bound : nat) (r : list ascii)
  : list ascii :=
  match bound with
  | O => r
  | S k =>
    match r with
    | [] => []
    | _ :: _ =>
      let '(rn, size) := DecodeLastRune r in
      if f rn then trimRightLoop f k (skipn size r) else r
    end
  end.

Definition TrimRightFunc (s : list ascii) (f : N -> bool) : list ascii :=
  rev (trimRightLoop f (List.length s) (rev s)).

(** [strings.TrimSpace]: all leading and trailing white space removed, as
    defined by Unicode. (The library's fast path for ASCII input computes the
    same slice.) *)
Definition TrimSpaceBytes (s : list ascii) : list ascii :=
  TrimRightFunc (TrimLeftFunc s GoUnicode.IsSpace) GoUnicode.IsSpace.

Definition TrimSpace (s : string) : string :=
  string_of_list_ascii (TrimSpaceBytes (list_ascii_of_string s)).

End GoStrings.

(** ** The fragment of [regexp] behind [answerRegex] *)

Module GoRegexp.

(** Syntax trees, named after the operators of [regexp/syntax]. *)
Inductive Regexp :=
| EmptyMatch
| Literal (c : ascii)
| WordBoundary
| Concat (r1 r2 : Regexp)
| Alternate (r1 r2 : Regexp)
| Capture (idx : nat) (r : Regexp).

(** [syntax.IsWordChar]: the ASCII word characters of the assertion [\b]. *)
Definition IsWordChar (c : ascii) : bool :=
  let b := N_of_ascii c in
  (((0x41 <=? b) && (b <=? 0x5A)) || ((0x61 <=? b) && (b <=? 0x7A))
   || ((0x30 <=? b) && (b <=? 0x39)) || (b =? 0x5F))%N.

Definition isWordAt (c : option ascii) : bool :=
  match c with Some x => IsWordChar x | None => false end.

(** A position in the text: the byte before it, if any, and what follows. *)
Record Cursor := { before : option ascii; ahead : list ascii }.

(** One way of matching: the text matched, the groups it set, and where it
    stopped. *)
Record Thread :=
  { matched : list ascii; caps : list (nat * list ascii); stop : Cursor }.

(** All the ways [re] matches at [cur], most preferred first: alternation
    prefers its left branch, as in Go's leftmost-first semantics. The engine
    steps over bytes, which for a pattern of ASCII literals is the rune-wise
    match: no byte of a multi-byte or invalid encoding is a word character
    or equals an ASCII literal. *)
Fixpoint exec (re : Regexp) (cur : Cursor) : list Thread :=
  match re with
  | EmptyMatch => [ {| matched := []; caps := []; stop := cur |} ]
  | Literal c =>
    match ahead cur with
    | x :: rest =>
      if Ascii.eqb x c
      then [ {| matched := [x]; caps := [];
                stop := {| before := Some x; ahead := rest |} |} ]
      else []
    | [] => []
    end
  | WordBoundary =>
    if xorb (isWordAt (before cur)) (isWordAt (head (ahead cur)))
    then [ {| matched := []; caps := []; stop := cur |} ]
    else []
  | Concat r1 r2 =>
    flat_map (fun t1 =>
      map (fun t2 => {| matched := matched t1 ++ matched t2;
                        caps := caps t1 ++ caps t2;
                        stop := stop t2 |})
          (exec r2 (stop t1)))
      (exec r1 cur)
  | Alternate r1 r2 => exec r1 cur ++ exec r2 cur
  | Capture idx r =>
    map (fun t => {| matched := matched t;
                     caps := (idx, matched t) :: caps t;
                     stop := stop t |})
        (exec r cur)
  end.

(** The leftmost match: the first position, from the left, where [re]
    matches, with the preferred match there. *)
Fixpoint search (re : Regexp) (prev : option ascii) (s : list ascii)
  : option Thread :=
  match exec re {| before := prev; ahead := s |} with
  | t :: _ => Some t
  | [] =>
    match s with
    | [] => None
    | c :: rest => search re (Some c) rest
    end
  end.

Fixpoint NumSubexp (re : Regexp) : nat :=
  match re with
  | EmptyMatch | Literal _ | WordBoundary => 0
  | Concat r1 r2 | Alternate r1 r2 => Nat.max (NumSubexp r1) (NumSubexp r2)
  | Capture idx r => Nat.max idx (NumSubexp r)
  end%nat.

Definition group (cs : list (nat * list ascii)) (idx : nat) : string :=
  match List.find (fun p => Nat.eqb (fst p) idx) cs with
  | Some p => string_of_list_ascii (snd p)
  | None => EmptyString
  end.

(** The method [FindStringSubmatch] of a compiled pattern: [nil] when there is no match, else the
    leftmost match followed by the text of each group. *)
Definition FindStringSubmatch (re : Regexp) (s : string) : list string :=
  match search re None (list_ascii_of_string s) with
  | None => []
  | Some t =>
    string_of_list_ascii (matched t)
      :: map (group (caps t)) (seq 1 (NumSubexp re))
  end.

End GoRegexp.

(** ** [math/rand/v2]: [Shuffle] *)

Module GoRand.

(** [swap(i, j)] as [createDemoText] passes it: exchange two elements. *)
Definition swap {A} (xs : list A) (i j : nat) : list A :=
  match xs !! i, xs !! j with
  | Some x, Some y => <[i := y]> (<[j := x]> xs)
  | _, _ => xs
  end.

(** The loop of [rand.Shuffle]: [for i := n - 1; i > 0; i--] draws
    [j] in [[0, i]] and swaps. [rnd i] is the generator's raw value at loop
    index [i]; the draw reduces it to the range. *)
Fixpoint shuffleFrom {A} (rnd : nat -> nat) (i : nat) (xs : list A) : list A :=
  match i with
  | O => xs
  | S i' => shuffleFrom rnd i' (swap xs i (rnd i mod S i)%nat)
  end.

Definition Shuffle {A} (rnd : nat -> nat) (xs : list A) : list A :=
  shuffleFrom rnd (List.length xs - 1) xs.

End GoRand.

(** ** [encoding/csv]: the reader, over a file already split into lines *)

Module GoCsv.

(** A line of the file: its fields, or a line the reader cannot parse. *)
Inductive Line :=
| Fields (fs : list string)
| Malformed.

Inductive ReadError := EOF | ParseError | ErrFieldCount.

(** The reader: what is left of the file, and [FieldsPerRecord] ([0] until
    the first record sets it). *)
Record Reader := { pending : list Line; FieldsPerRecord : nat }.

Definition NewReader (file : list Line) : Reader :=
  {| pending := file; FieldsPerRecord := 0 |}.

(** [Read]: the next record. Empty lines are skipped, so a record has at
    least one field; a record whose field count differs from the first
    record's is returned with [ErrFieldCount]. *)
Fixpoint readFrom (ls : list Line) (fpr : nat)
  : list string * option ReadError * Reader :=
  match ls with
  | [] => ([], Some EOF, {| pending := []; FieldsPerRecord := fpr |})
  | Malformed :: rest =>
    ([], Some ParseError, {| pending := rest; FieldsPerRecord := fpr |})
  | Fields [] :: rest => readFrom rest fpr
  | Fields fs :: rest =>
    if Nat.eqb fpr 0
    then (fs, None, {| pending := rest; FieldsPerRecord := List.length fs |})
    else if Nat.eqb (List.length fs) fpr
    then (fs, None, {| pending := rest; FieldsPerRecord := fpr |})
    else (fs, Some ErrFieldCount, {| pending := rest; FieldsPerRecord := fpr |})
  end.

Definition Read (r : Reader) : list string * option ReadError * Reader :=
  readFrom (pending r) (FieldsPerRecord r).

End GoCsv.

(** ** [tree_go/main.go] *)

Module TreeGo.
Import GoInt GoRegexp.
Local Open Scope string_scope.

Definition LF : string := String "010"%char EmptyString.

(** *** Constants *)

Definition NShot : nat := 4.
Definition BatchSize : nat := 100.
Definition WorkerCount : nat := 50.
Definition ActivityName : string := "going grocery shopping".
Definition InvalidAns : string := "[invalid]".

(** *** Data *)

Record Sample := {
  Premise : string;
  Choice1 : string;
  Choice2 : string;
  Question : string;
  Label : string
}.

Record Response := {
  rPremise : string;
  rChoice1 : string;
  rChoice2 : string;
  CausalQuestion : string;
  CorrectAnswer : string;
  ModelAnswer : string;
  ModelCompletion : string;
  IsCorrect : bool;
  IsInvalid : bool;
  ProcessingTime : float
}.

(** [LogEntry], with the numbers that its [Accuracy] and [ETA] fields render
    (by [Sprintf "%.2f%%"] and [formatTime]) kept as numbers. *)
Record LogEntry := {
  TotalQuestions : Z;
  CorrectNum : Z;
  Accuracy : float;
  InvalidAnswers : Z;
  ETA : float
}.

Record Stats := {
  total : Z;
  correct : Z;
  invalid : Z;
  totalTime : float
}.

Definition zeroStats : Stats :=
  {| total := 0; correct := 0; invalid := 0; totalTime := 0%float |}.

Record Demo := {
  activityName : string;
  premise : string;
  choices : list string;
  question : string;
  answer : string
}.

Definition demoExamples : list Demo :=
  [ {| activityName := "going grocery shopping";
       premise := "select items from the shelf";
       choices := ["pay at the counter"; "leave the store without paying"];
       question := "effect"; answer := "A" |};
    {| activityName := "baking a cake";
       premise := "mix the batter";
       choices := ["burn the kitchen"; "pour batter into a pan"];
       question := "effect"; answer := "B" |};
    {| activityName := "riding on a bus";
       premise := "board the bus";
       choices := ["buy a ticket"; "fly to another city"];
       question := "cause"; answer := "A" |};
    {| activityName := "planting a tree";
       premise := "dig a hole";
       choices := ["water the plant"; "cut down a tree"];
       question := "effect"; answer := "A" |} ].

(** [\b(A|B)\b] *)
Definition answerRegex : Regexp :=
  Concat WordBoundary
    (Concat (Capture 1 (Alternate (Literal "A") (Literal "B"))) WordBoundary).

(** *** Prompt construction *)

(** [choices[0]] and [choices[1]]: every caller passes a slice of two, so
    the default of [nth] is never read. *)
Definition getQuestionText
    (activityName premise : string) (choices : list string)
    (causalQuestion : string) : string :=
  "The following are multiple choice questions about '" ++ activityName
  ++ "'. You should directly answer the question by choosing the correct option."
  ++ LF
  ++ "Which of the following events (given as options A or B) is a plausible "
  ++ causalQuestion ++ " of the event '" ++ premise ++ "'?" ++ LF
  ++ "A. " ++ nth 0 choices "" ++ LF
  ++ "B. " ++ nth 1 choices "" ++ LF
  ++ "Answer:".

(** The exemplars are copied, shuffled, and the first [nShot] written out. *)
Definition createDemoText (rnd : nat -> nat) (nShot : nat) : string :=
  let randExamples := GoRand.Shuffle rnd demoExamples in
  fold_left
    (fun demo ex =>
       demo
       ++ getQuestionText (activityName ex) (premise ex) (choices ex) (question ex)
       ++ " " ++ answer ex ++ LF ++ LF)
    (firstn nShot randExamples) "".

Definition buildPrompt (rnd : nat -> nat) (sample : Sample) (nShot : nat)
  : string :=
  let demo := createDemoText rnd nShot in
  let choices := [Choice1 sample; Choice2 sample] in
  let questionText :=
    getQuestionText ActivityName (Premise sample) choices (Question sample) in
  demo ++ questionText.

(** *** Answer extraction *)

Definition cleanAnswer (modelPred : string) : string :=
  let modelPred := GoStrings.TrimSpace modelPred in
  let matches := FindStringSubmatch answerRegex modelPred in
  match matches with
  | m0 :: _ => m0
  | [] => InvalidAns
  end.

(** *** The inference collaborator

    The sampling temperature [0.7] and the nucleus parameter [0.9] are
    written as the [float64] values nearest to them. *)

Record Message := { Role : string; Content : string }.

Record Request := {
  Messages : list Message;
  Temperature : float;
  TopP : float
}.

Inductive ApiResult :=
| ApiOk (body : string)
| ApiErr (err : string).

(** What one call of [processSample] meets outside the program: the random
    generator behind [rand.Shuffle], the endpoint that [CallExternalAPI]
    posts to, the value [json.Unmarshal] leaves under the key [answer], and
    the two readings of [time.Since startTime]. *)
Record Env := {
  rnd : nat -> nat;
  Post : Request -> ApiResult;
  jsonAnswer : string -> string;
  sinceAtUpdate : float;
  sinceAtReturn : float
}.

(** *** State: the shared [Stats] and the requests the endpoint has received *)

Record World := { wStats : Stats; wRequests : list Request }.

Definition M (A : Type) : Type := World -> A * World.

Definition ret {A} (a : A) : M A := fun w => (a, w).

Definition bind {A B} (m : M A) (k : A -> M B) : M B :=
  fun w => let '(a, w') := m w in k a w'.

Notation "'do' x <- m ; k" := (bind m (fun x => k))
  (at level 10, x name, m at level 100, k at level 200).

Definition CallExternalAPI (env : Env) (request : Request) : M ApiResult :=
  fun w =>
    (Post env request,
     {| wStats := wStats w; wRequests := wRequests w ++ [request] |}).

Definition askQuestion (env : Env) (inputText : string)
  : M (string * option string) :=
  let request :=
    {| Messages :=
         [ {| Role := "system";
              Content := "You are an expert assistant. Provide the correct answer (A or B) directly without explanation." |};
           {| Role := "user"; Content := inputText |} ];
       Temperature := 0x1.6666666666666p-1%float;
       TopP := 0x1.ccccccccccccdp-1%float |} in
  do apiResponse <- CallExternalAPI env request;
  match apiResponse with
  | ApiErr err => ret ("", Some err)
  | ApiOk body => ret (jsonAnswer env body, None)
  end.

(** *** The accesses of [processSample] to the shared [Stats] *)

Inductive Counter := CTotal | CCorrect | CInvalid.

(** [atomic.AddInt32] is one indivisible access. The statement
    [stats.totalTime += d] is a plain read of the field followed by a plain
    write of the sum. *)
Inductive MemOp :=
| AtomicAddInt32 (c : Counter) (delta : Z)
| LoadTotalTime
| StoreTotalTime (d : float).

Definition isAtomic (op : MemOp) : bool :=
  match op with AtomicAddInt32 _ _ => true | _ => false end.

Definition addCounter (c : Counter) (delta : Z) (st : Stats) : Stats :=
  match c with
  | CTotal =>
    {| total := add32 (total st) delta; correct := correct st;
       invalid := invalid st; totalTime := totalTime st |}
  | CCorrect =>
    {| total := total st; correct := add32 (correct st) delta;
       invalid := invalid st; totalTime := totalTime st |}
  | CInvalid =>
    {| total := total st; correct := correct st;
       invalid := add32 (invalid st) delta; totalTime := totalTime st |}
  end.

(** One access, by a goroutine whose temporary holds [tmp]. *)
Definition execOp (op : MemOp) (st : Stats) (tmp : float) : Stats * float :=
  match op with
  | AtomicAddInt32 c delta => (addCounter c delta st, tmp)
  | LoadTotalTime => (st, totalTime st)
  | StoreTotalTime d =>
    ({| total := total st; correct := correct st; invalid := invalid st;
        totalTime := PrimFloat.add tmp d |}, tmp)
  end.

(** Lines 251-258, in program order. *)
Definition statsUpdate (isCorrect isInvalid : bool) (d : float) : list MemOp :=
  (if isCorrect then [AtomicAddInt32 CCorrect 1] else [])
  ++ (if isInvalid then [AtomicAddInt32 CInvalid 1] else [])
  ++ [AtomicAddInt32 CTotal 1; LoadTotalTime; StoreTotalTime d].

Definition execOps (ops : list MemOp) (st : Stats) : Stats :=
  fst (fold_left (fun '(st, tmp) op => execOp op st tmp) ops (st, 0%float)).

(** The accesses of one goroutine, run with no other goroutine in between. *)
Definition updateStats (ops : list MemOp) : M unit :=
  fun w => (tt, {| wStats := execOps ops (wStats w); wRequests := wRequests w |}).

(** *** [processSample] *)

Definition processSample (env : Env) (sample : Sample) : M Response :=
  let inputText := buildPrompt (rnd env) sample NShot in
  do answered <- askQuestion env inputText;
  let '(modelCompletion, err) := answered in
  let modelCompletion :=
    match err with Some _ => InvalidAns | None => modelCompletion end in
  let modelAnswer := cleanAnswer modelCompletion in
  let correctAnswer := if String.eqb (Label sample) "1" then "B" else "A" in
  let isCorrect := String.eqb modelAnswer correctAnswer in
  let isInvalid := String.eqb modelAnswer InvalidAns in
  do _ <- updateStats (statsUpdate isCorrect isInvalid (sinceAtUpdate env));
  ret {| rPremise := Premise sample;
         rChoice1 := Choice1 sample;
         rChoice2 := Choice2 sample;
         CausalQuestion := Question sample;
         CorrectAnswer := correctAnswer;
         ModelAnswer := modelAnswer;
         ModelCompletion := modelCompletion;
         IsCorrect := isCorrect;
         IsInvalid := isInvalid;
         ProcessingTime := sinceAtReturn env |}.

(** *** Progress snapshots *)

(** The collector's timer case, lines 364-379. *)
Definition tickEntry (st : Stats) : LogEntry :=
  let total := total st in
  let correct := correct st in
  let invalid := invalid st in
  let accuracy :=
    PrimFloat.mul (PrimFloat.div (float64_of_int correct) (float64_of_int total))
                  100%float in
  let avgTime := PrimFloat.div (totalTime st) (float64_of_int total) in
  let remaining :=
    PrimFloat.mul (float64_of_int (sub32 3500000 total)) avgTime in
  {| TotalQuestions := total; CorrectNum := correct; Accuracy := accuracy;
     InvalidAnswers := invalid; ETA := remaining |}.

(** The final entry of [main], lines 391-404; [elapsed] is the run's duration. *)
Definition finalEntry (st : Stats) (elapsed : float) : LogEntry :=
  let total := total st in
  let correct := correct st in
  let invalid := invalid st in
  let accuracy :=
    PrimFloat.mul (PrimFloat.div (float64_of_int correct) (float64_of_int total))
                  100%float in
  {| TotalQuestions := total; CorrectNum := correct; Accuracy := accuracy;
     InvalidAnswers := invalid; ETA := elapsed |}.

(** *** The sample source: the goroutine that reads the dataset *)

(** [colMap]: each header column mapped to its position; a repeated name
    keeps its last position. *)
Definition headerMap (header : list string) : gmap string nat :=
  fold_left (fun m ic => <[snd ic := fst ic]> m)
            (combine (seq 0 (List.length header)) header) ∅.

(** [colMap[name]]: reading an absent key of a Go map yields the zero value
    of the element type. *)
Definition colIndex (colMap : gmap string nat) (name : string) : nat :=
  default 0%nat (colMap !! name).

(** The struct literal of lines 331-337; [None] stands for the run-time
    panic of an index out of range. *)
Definition sampleOfRecord (colMap : gmap string nat) (record : list string)
  : option Sample :=
  p ← record !! colIndex colMap "premise";
  c1 ← record !! colIndex colMap "choice1";
  c2 ← record !! colIndex colMap "choice2";
  q ← record !! colIndex colMap "question";
  l ← record !! colIndex colMap "label";
  Some {| Premise := p; Choice1 := c1; Choice2 := c2; Question := q; Label := l |}.

(** How the process can stop early: [log.Fatal] exits it, a panic kills it. *)
Inductive Halt := FatalExit | Panicked.

Inductive SourcePc :=
| SrcOpen
| SrcNext (reader : GoCsv.Reader) (colMap : gmap string nat)
| SrcSend (reader : GoCsv.Reader) (colMap : gmap string nat) (sample : Sample)
| SrcClosed.

(** The source goroutine on its own, with an unbounded channel: what it
    would send, or how it stops the process. The bound is the number of lines
    left. *)
Fixpoint sourceLoop (bound : nat) (reader : GoCsv.Reader)
    (colMap : gmap string nat) : Halt + list Sample :=
  match bound with
  | O => inr []
  | S k =>
    let '(record, err, reader') := GoCsv.Read reader in
    match err with
    | Some _ => inr []
    | None =>
      match sampleOfRecord colMap record with
      | None => inl Panicked
      | Some sample =>
        match sourceLoop k reader' colMap with
        | inl h => inl h
        | inr rest => inr (sample :: rest)
        end
      end
    end
  end.

(** [file] is the dataset as [os.Open] finds it: [None] when it cannot be
    opened. *)
Definition loadDataset (file : option (list GoCsv.Line)) : Halt + list Sample :=
  match file with
  | None => inl FatalExit
  | Some lines =>
    let reader := GoCsv.NewReader lines in
    let '(header, err, reader') := GoCsv.Read reader in
    match err with
    | Some _ => inl FatalExit
    | None => sourceLoop (S (List.length lines)) reader' (headerMap header)
    end
  end.

(** *** The pipeline: goroutines, channels and collections of [main] *)

Inductive WorkerPc :=
| WRecv
| WBusy (sample : Sample)
| WSend (result : Response)
| WExit.

Inductive CollectorPc := Draining | Closed.

Inductive MainPc := MWait | MClose | MFinal | MExport.

Record Pipeline := {
  halted : option Halt;
  file : option (list GoCsv.Line);
  source : SourcePc;
  samplesChan : list Sample;
  samplesClosed : bool;
  workers : list WorkerPc;
  world : World;
  resultsChan : list Response;
  resultsClosed : bool;
  batch : list Response;
  collector : CollectorPc;
  resultsColl : list Response;
  logsColl : list LogEntry;
  mainPc : MainPc
}.

Definition initial (file : option (list GoCsv.Line)) : Pipeline :=
  {| halted := None; file := file; source := SrcOpen;
     samplesChan := []; samplesClosed := false;
     workers := replicate WorkerCount WRecv;
     world := {| wStats := zeroStats; wRequests := [] |};
     resultsChan := []; resultsClosed := false;
     batch := []; collector := Draining;
     resultsColl := []; logsColl := [];
     mainPc := MWait |}.

(** One step of one goroutine. [WorkerProcess] carries what the call of
    [processSample] meets outside the program, [MainFinal] the run's
    duration. *)
Inductive Action :=
| SourceOpen
| SourceRead
| SourceSend
| WorkerRecv (i : nat)
| WorkerProcess (i : nat) (env : Env)
| WorkerSend (i : nat)
| WorkerExit (i : nat)
| CollectorRecv
| CollectorTick
| CollectorClosed
| MainWait
| MainClose
| MainFinal (elapsed : float).

Definition setHalted (h : Halt) (p : Pipeline) : Pipeline :=
  {| halted := Some h; file := file p; source := source p;
     samplesChan := samplesChan p; samplesClosed := samplesClosed p;
     workers := workers p; world := world p;
     resultsChan := resultsChan p; resultsClosed := resultsClosed p;
     batch := batch p; collector := collector p;
     resultsColl := resultsColl p; logsColl := logsColl p;
     mainPc := mainPc p |}.

Definition setSource (pc : SourcePc) (ch : list Sample) (closed : bool)
    (p : Pipeline) : Pipeline :=
  {| halted := halted p; file := file p; source := pc;
     samplesChan := ch; samplesClosed := closed;
     workers := workers p; world := world p;
     resultsChan := resultsChan p; resultsClosed := resultsClosed p;
     batch := batch p; collector := collector p;
     resultsColl := resultsColl p; logsColl := logsColl p;
     mainPc := mainPc p |}.

Definition setWorker (i : nat) (pc : WorkerPc) (ch : list Sample) (w : World)
    (out : list Response) (p : Pipeline) : Pipeline :=
  {| halted := halted p; file := file p; source := source p;
     samplesChan := ch; samplesClosed := samplesClosed p;
     workers := <[i := pc]> (workers p); world := w;
     resultsChan := out; resultsClosed := resultsClosed p;
     batch := batch p; collector := collector p;
     resultsColl := resultsColl p; logsColl := logsColl p;
     mainPc := mainPc p |}.

Definition setCollector (out : list Response) (b : list Response)
    (pc : CollectorPc) (docs : list Response) (logs : list LogEntry)
    (p : Pipeline) : Pipeline :=
  {| halted := halted p; file := file p; source := source p;
     samplesChan := samplesChan p; samplesClosed := samplesClosed p;
     workers := workers p; world := world p;
     resultsChan := out; resultsClosed := resultsClosed p;
     batch := b; collector := pc;
     resultsColl := docs; logsColl := logs;
     mainPc := mainPc p |}.

Definition setMain (pc : MainPc) (closed : bool) (logs : list LogEntry)
    (p : Pipeline) : Pipeline :=
  {| halted := halted p; file := file p; source := source p;
     samplesChan := samplesChan p; samplesClosed := samplesClosed p;
     workers := workers p; world := world p;
     resultsChan := resultsChan p; resultsClosed := closed;
     batch := batch p; collector := collector p;
     resultsColl := resultsColl p; logsColl := logs;
     mainPc := pc |}.

Definition allExited (ws : list WorkerPc) : bool :=
  forallb (fun pc => match pc with WExit => true | _ => false end) ws.

(** The step of the source goroutine, lines 307-341. *)
Definition stepSource (a : Action) (p : Pipeline) : option Pipeline :=
  match a, source p with
  | SourceOpen, SrcOpen =>
    match file p with
    | None => Some (setHalted FatalExit p)
    | Some lines =>
      let '(header, err, reader) := GoCsv.Read (GoCsv.NewReader lines) in
      match err with
      | Some _ => Some (setHalted FatalExit p)
      | None =>
        Some (setSource (SrcNext reader (headerMap header))
                        (samplesChan p) (samplesClosed p) p)
      end
    end
  | SourceRead, SrcNext reader colMap =>
    let '(record, err, reader') := GoCsv.Read reader in
    match err with
    | Some _ => Some (setSource SrcClosed (samplesChan p) true p)
    | None =>
      match sampleOfRecord colMap record with
      | None => Some (setHalted Panicked p)
      | Some sample =>
        Some (setSource (SrcSend reader' colMap sample)
                        (samplesChan p) (samplesClosed p) p)
      end
    end
  | SourceSend, SrcSend reader colMap sample =>
    if (List.length (samplesChan p) <? WorkerCount)%nat
    then Some (setSource (SrcNext reader colMap)
                         (samplesChan p ++ [sample]) (samplesClosed p) p)
    else None
  | _, _ => None
  end.

(** The step of worker [i], lines 297-303. *)
Definition stepWorker (a : Action) (p : Pipeline) : option Pipeline :=
  match a with
  | WorkerRecv i =>
    match workers p !! i, samplesChan p with
    | Some WRecv, sample :: rest =>
      Some (setWorker i (WBusy sample) rest (world p) (resultsChan p) p)
    | _, _ => None
    end
  | WorkerExit i =>
    match workers p !! i, samplesChan p with
    | Some WRecv, [] =>
      if samplesClosed p
      then Some (setWorker i WExit [] (world p) (resultsChan p) p)
      else None
    | _, _ => None
    end
  | WorkerProcess i env =>
    match workers p !! i with
    | Some (WBusy sample) =>
      let '(result, w) := processSample env sample (world p) in
      Some (setWorker i (WSend result) (samplesChan p) w (resultsChan p) p)
    | _ => None
    end
  | WorkerSend i =>
    match workers p !! i with
    | Some (WSend result) =>
      if resultsClosed p then Some (setHalted Panicked p)
      else if (List.length (resultsChan p) <? BatchSize)%nat
      then Some (setWorker i WRecv (samplesChan p) (world p)
                           (resultsChan p ++ [result]) p)
      else None
    | _ => None
    end
  | _ => None
  end.

(** The step of the collector goroutine, lines 344-385. *)
Definition stepCollector (a : Action) (p : Pipeline) : option Pipeline :=
  match collector p with
  | Closed => None
  | Draining =>
    match a with
    | CollectorRecv =>
      match resultsChan p with
      | result :: rest =>
        let b := (batch p ++ [result])%list in
        if (BatchSize <=? List.length b)%nat
        then Some (setCollector rest [] Draining (resultsColl p ++ b)
                                (logsColl p) p)
        else Some (setCollector rest b Draining (resultsColl p) (logsColl p) p)
      | [] => None
      end
    | CollectorClosed =>
      match resultsChan p with
      | [] =>
        if resultsClosed p
        then Some (setCollector [] [] Closed (resultsColl p ++ batch p)
                                (logsColl p) p)
        else None
      | _ :: _ => None
      end
    | CollectorTick =>
      Some (setCollector (resultsChan p) (batch p) Draining (resultsColl p)
                         (logsColl p ++ [tickEntry (wStats (world p))]) p)
    | _ => None
    end
  end.

(** The step of [main] after it has started the goroutines, lines 387-405. *)
Definition stepMain (a : Action) (p : Pipeline) : option Pipeline :=
  match a, mainPc p with
  | MainWait, MWait =>
    if allExited (workers p)
    then Some (setMain MClose (resultsClosed p) (logsColl p) p)
    else None
  | MainClose, MClose => Some (setMain MFinal true (logsColl p) p)
  | MainFinal elapsed, MFinal =>
    Some (setMain MExport (resultsClosed p)
                  (logsColl p ++ [finalEntry (wStats (world p)) elapsed]) p)
  | _, _ => None
  end.

(** A halted process takes no step. *)
Definition step (a : Action) (p : Pipeline) : option Pipeline :=
  match halted p with
  | Some _ => None
  | None =>
    match a with
    | SourceOpen | SourceRead | SourceSend => stepSource a p
    | WorkerRecv _ | WorkerProcess _ _ | WorkerSend _ | WorkerExit _ =>
      stepWorker a p
    | CollectorRecv | CollectorTick | CollectorClosed => stepCollector a p
    | MainWait | MainClose | MainFinal _ => stepMain a p
    end
  end.

(** A schedule is run action by action; it is refused as soon as an action
    is not enabled. *)
Fixpoint run (sched : list Action) (p : Pipeline) : option Pipeline :=
  match sched with
  | [] => Some p
  | a :: rest =>
    match step a p with
    | Some p' => run rest p'
    | None => None
    end
  end.

Definition reachable (file : option (list GoCsv.Line)) (p : Pipeline) : Prop :=
  exists sched, run sched (initial file) = Some p.

(** *** Goroutines interleaved access by access

    The pipeline above takes a call of [processSample] as one step. Here the
    accesses to [Stats] of several goroutines are interleaved one by one:
    goroutine [i] performs the next access of its [todo]. *)

Record Goroutine := { todo : list MemOp; tmp : float }.

Definition goroutine (ops : list MemOp) : Goroutine :=
  {| todo := ops; tmp := 0%float |}.

Definition stepAccess (i : nat) (c : Stats * list Goroutine)
  : option (Stats * list Goroutine) :=
  let '(st, gs) := c in
  match gs !! i with
  | Some g =>
    match todo g with
    | op :: rest =>
      let '(st', t) := execOp op st (tmp g) in
      Some (st', <[i := {| todo := rest; tmp := t |}]> gs)
    | [] => None
    end
  | None => None
  end.

Fixpoint interleave (sched : list nat) (c : Stats * list Goroutine)
  : option (Stats * list Goroutine) :=
  match sched with
  | [] => Some c
  | i :: rest =>
    match stepAccess i c with
    | Some c' => interleave rest c'
    | None => None
    end
  end.

Definition finished (gs : list Goroutine) : bool :=
  forallb (fun g => match todo g with [] => true | _ => false end) gs.

(** *** The timer beside the workers

    Lines 364-366: the timer case of the collector reads the counters by
    three atomic loads, [total] first, then [correct], then [invalid]; a
    snapshot is what the three loads returned. The accesses of the workers
    can fall before, between and after the loads. *)






End TreeGo.

(** ** [results/main.go] *)

Module Results.
Import GoInt.

Record Response := {
  Premise : string;
  Choice1 : string;
  Choice2 : string;
  CausalQuestion : string;
  CorrectAnswer : string;
  ModelAnswer : string;
  ModelCompletion : string;
  IsCorrect : bool;
  IsInvalid : bool;
  ProcessingTime : float
}.

(** The numbers of the metadata text that is printed and written to file. *)
Record Metadata := {
  TotalSamples : Z;
  CorrectAnswers : Z;
  InvalidAnswers : Z;
  OverallAccuracy : float;
  ValidAccuracy : float
}.

(** The loop over the cursor, lines 45-61: a document is [None] when
    [Decode] fails on it, and is then skipped. [total], [correct] and
    [invalid] are Go [int]s. *)
Definition countResults (docs : list (option Response)) : Z * Z * Z :=
  fold_left
    (fun acc doc =>
       let '(total, correct, invalid) := acc in
       match doc with
       | None => acc
       | Some res =>
         (add64 total 1,
          if IsCorrect res then add64 correct 1 else correct,
          if IsInvalid res then add64 invalid 1 else invalid)
       end)
    docs (0, 0, 0).

(** [calculateAccuracy], up to the formatting of the metadata: [found] is
    [None] when [Find] fails; the result is [None] when the function returns
    without reporting. *)
Definition calculateAccuracy (found : option (list (option Response)))
  : option Metadata :=
  match found with
  | None => None
  | Some docs =>
    let '(total, correct, invalid) := countResults docs in
    if total =? 0 then None else
    let accuracy :=
      PrimFloat.mul
        (PrimFloat.div (float64_of_int correct) (float64_of_int total))
        100%float in
    let validTotal := sub64 total invalid in
    let validAccuracy :=
      if 0 <? validTotal
      then PrimFloat.mul
             (PrimFloat.div (float64_of_int correct) (float64_of_int validTotal))
             100%float
      else 0%float in
    Some {| TotalSamples := total; CorrectAnswers := correct;
            InvalidAnswers := invalid; OverallAccuracy := accuracy;
            ValidAccuracy := validAccuracy |}
  end.

End Results.

Import GoInt GoRegexp TreeGo.

(** ** Notions the statements are written with *)

(** The request that [askQuestion] sends for a prompt. *)
Definition requestFor (inputText : string) : Request :=
  {| Messages :=
       [ {| Role := "system";
            Content := "You are an expert assistant. Provide the correct answer (A or B) directly without explanation." |};
         {| Role := "user"; Content := inputText |} ];
     Temperature := 0x1.6666666666666p-1%float;
     TopP := 0x1.ccccccccccccdp-1%float |}.

(** The completion that [processSample] goes on with: the decoded answer, or
    the sentinel when the call failed. *)
Definition completionOf (env : Env) (inputText : string) : string :=
  match Post env (requestFor inputText) with
  | ApiErr _ => InvalidAns
  | ApiOk body => jsonAnswer env body
  end.

Definition correctAnswerOf (sample : Sample) : string :=
  if String.eqb (Label sample) "1" then "B" else "A".

(** The response of [processSample] written out. *)
Definition responseOf (env : Env) (sample : Sample) : Response :=
  let completion := completionOf env (buildPrompt (rnd env) sample NShot) in
  {| rPremise := Premise sample;
     rChoice1 := Choice1 sample;
     rChoice2 := Choice2 sample;
     CausalQuestion := Question sample;
     CorrectAnswer := correctAnswerOf sample;
     ModelAnswer := cleanAnswer completion;
     ModelCompletion := completion;
     IsCorrect := String.eqb (cleanAnswer completion) (correctAnswerOf sample);
     IsInvalid := String.eqb (cleanAnswer completion) InvalidAns;
     ProcessingTime := sinceAtReturn env |}.

(** The effect of lines 251-258 on [Stats], when no other goroutine runs in
    between. *)
Definition bump (isCorrect isInvalid : bool) (d : float) (st : Stats) : Stats :=
  {| total := add32 (total st) 1;
     correct := if isCorrect then add32 (correct st) 1 else correct st;
     invalid := if isInvalid then add32 (invalid st) 1 else invalid st;
     totalTime := PrimFloat.add (totalTime st) d |}.

(** The number of elements of a list that pass a test. *)
Fixpoint count {A} (f : A -> bool) (l : list A) : nat :=
  match l with
  | [] => 0
  | x :: t => (if f x then 1 else 0) + count f t
  end%nat.

Definition sending (pc : WorkerPc) : option Response :=
  match pc with WSend r => Some r | _ => None end.

Definition busy (pc : WorkerPc) : option Sample :=
  match pc with WBusy s => Some s | _ => None end.

(** The scored results of the run so far, wherever they are: in a worker's
    hands, in the output queue, in the collector's batch, or persisted. *)
Definition produced (p : Pipeline) : list Response :=
  omap sending (workers p) ++ resultsChan p ++ batch p ++ resultsColl p.

(** A result that is valid and wrong. *)
Definition wrongButValid (r : Response) : bool :=
  negb (IsCorrect r) && negb (IsInvalid r).

(** The counters are those of the results [rs], as [int32]s. *)
Definition tallies (st : Stats) (rs : list Response) : Prop :=
  total st = wrap32 (Z.of_nat (List.length rs))
  /\ correct st = wrap32 (Z.of_nat (count IsCorrect rs))
  /\ invalid st = wrap32 (Z.of_nat (count IsInvalid rs)).

(** *** A small run: three records, a collaborator that always answers [A]

    The dataset has the labels [0], [1], [0]; the schedule lets worker [0]
    process the three records one after the other. *)

Definition threeRecords : list GoCsv.Line :=
  [ GoCsv.Fields ["premise"; "choice1"; "choice2"; "question"; "label"];
    GoCsv.Fields ["dig a hole"; "plant the tree"; "eat the soil"; "effect"; "0"];
    GoCsv.Fields ["water the tree"; "the tree burns"; "the tree grows"; "effect"; "1"];
    GoCsv.Fields ["buy a sapling"; "go to a nursery"; "go to a bank"; "cause"; "0"] ].

Definition answersA : Env :=
  {| rnd := fun i => i;
     Post := fun _ => ApiOk "A";
     jsonAnswer := fun body => body;
     sinceAtUpdate := 1%float;
     sinceAtReturn := 1%float |}.

Definition threeRecordsSchedule : list Action :=
  [ SourceOpen;
    SourceRead; SourceSend; SourceRead; SourceSend; SourceRead; SourceSend;
    SourceRead;
    WorkerRecv 0; WorkerProcess 0 answersA; WorkerSend 0;
    WorkerRecv 0; WorkerProcess 0 answersA; WorkerSend 0;
    WorkerRecv 0; WorkerProcess 0 answersA; WorkerSend 0;
    CollectorRecv; CollectorTick; CollectorRecv ]
  ++ map WorkerExit (seq 0 WorkerCount)
  ++ [ MainWait; MainClose; CollectorRecv; CollectorClosed; MainFinal 9%float ].

(** *** A run whose final snapshot overtakes the collector

    One record; the worker publishes its result and every worker exits;
    [main] then closes the output queue and persists the final snapshot while
    the collector has not yet taken a step. *)

Definition oneRecord : list GoCsv.Line :=
  [ GoCsv.Fields ["premise"; "choice1"; "choice2"; "question"; "label"];
    GoCsv.Fields ["dig a hole"; "plant the tree"; "eat the soil"; "effect"; "0"] ].

Definition overtakingSchedule : list Action :=
  [ SourceOpen; SourceRead; SourceSend; SourceRead;
    WorkerRecv 0; WorkerProcess 0 answersA; WorkerSend 0 ]
  ++ map WorkerExit (seq 0 WorkerCount)
  ++ [ MainWait; MainClose; MainFinal 9%float ].

(** *** A collaborator that fails *)

(** Every call of the endpoint returns an error. *)
Definition fails (env : Env) : Prop :=
  forall rq, exists err, Post env rq = ApiErr err.

Definition everyCallFails (sched : list Action) : Prop :=
  Forall (fun a => match a with WorkerProcess _ env => fails env | _ => True end)
         sched.

Definition unreachableEndpoint : Env :=
  {| rnd := fun i => i;
     Post := fun _ => ApiErr "connection refused";
     jsonAnswer := fun body => body;
     sinceAtUpdate := 1%float;
     sinceAtReturn := 1%float |}.

Definition failingSchedule : list Action :=
  [ SourceOpen;
    SourceRead; SourceSend; SourceRead; SourceSend; SourceRead; SourceSend;
    SourceRead;
    WorkerRecv 0; WorkerRecv 1; WorkerRecv 2;
    WorkerProcess 1 unreachableEndpoint; WorkerProcess 0 unreachableEndpoint;
    WorkerSend 0; WorkerProcess 2 unreachableEndpoint; WorkerSend 2;
    CollectorRecv; WorkerSend 1 ].

(** *** The claim on the final snapshot, as the specification words it

    [mainPc p = MExport] says that the final snapshot has been persisted. *)
Definition finalSnapshotAfterCollectorClosed (file : option (list GoCsv.Line))
  : Prop :=
  forall p, reachable file p -> mainPc p = MExport -> collector p = Closed.

(** *** The header row *)

Definition requiredColumns : list string :=
  ["premise"; "choice1"; "choice2"; "question"; "label"].

(** The header row, when the reader returns one. *)
Definition headerOf (lines : list GoCsv.Line) : option (list string) :=
  match GoCsv.Read (GoCsv.NewReader lines) with
  | (header, None, _) => Some header
  | (_, Some _, _) => None
  end.

Definition lacksRequiredColumn (lines : list GoCsv.Line) : Prop :=
  exists header name,
    headerOf lines = Some header
    /\ In name requiredColumns /\ ~ In name header.

(** The claim on a missing column, as the specification words it: the
    source stops the process, and no worker ever processes a record. *)
Definition failsFast (lines : list GoCsv.Line) : Prop :=
  loadDataset (Some lines) = inl FatalExit
  /\ forall p, reachable (Some lines) p -> wRequests (world p) = [].

(** A dataset without the [label] column, and a run over it. *)
Definition noLabelColumn : list GoCsv.Line :=
  [ GoCsv.Fields ["premise"; "choice1"; "choice2"; "question"];
    GoCsv.Fields ["dig a hole"; "plant the tree"; "eat the soil"; "effect"] ].

Definition noLabelSchedule : list Action :=
  [ SourceOpen; SourceRead; SourceSend; SourceRead;
    WorkerRecv 0; WorkerProcess 0 answersA; WorkerSend 0 ].

(** What the source goroutine holds of a readable header [h]: a reader that
    expects records as wide as [h], and the column map of [h]. *)
Definition sourceFollows (h : list string) (pc : SourcePc) : Prop :=
  match pc with
  | SrcNext reader colMap | SrcSend reader colMap _ =>
    GoCsv.FieldsPerRecord reader = List.length h /\ colMap = headerMap h
  | SrcOpen | SrcClosed => True
  end.

(** *** Two workers whose updates of [totalTime] interleave

    Each has scored a wrong-but-valid answer in one second. Both read
    [totalTime] before either writes it back. *)

Definition twoWorkers : list Goroutine :=
  [ goroutine (statsUpdate false false 1%float);
    goroutine (statsUpdate false false 1%float) ].

Definition lostUpdateSchedule : list nat := [0; 0; 1; 1; 1; 0]%nat.

Definition oneAfterTheOther : list nat := [0; 0; 0; 1; 1; 1]%nat.

(** *** The documents of the results collection *)

Definition decoded (docs : list (option Results.Response))
  : list Results.Response :=
  omap (fun doc => doc) docs.

(** A document of the collection with the given flags. *)
Definition scoredDoc (isCorrect isInvalid : bool) : option Results.Response :=
  Some {| Results.Premise := "dig a hole";
          Results.Choice1 := "plant the tree";
          Results.Choice2 := "eat the soil";
          Results.CausalQuestion := "effect";
          Results.CorrectAnswer := "A";
          Results.ModelAnswer :=
            if isInvalid then "[invalid]" else if isCorrect then "A" else "B";
          Results.ModelCompletion :=
            if isInvalid then "[invalid]" else if isCorrect then "A" else "B";
          Results.IsCorrect := isCorrect;
          Results.IsInvalid := isInvalid;
          Results.ProcessingTime := 1%float |}%string.

(** *** Standalone answer tokens

    Position [i] of a text holds a standalone [A] or [B]: the byte there is
    one of the two letters, and neither the byte before it nor the byte after
    it, where there is one, is a word character. *)

Definition prevAt (s : list ascii) (i : nat) : option ascii :=
  match i with
  | O => None
  | S j => s !! j
  end.

Definition standaloneAt (s : list ascii) (i : nat) : bool :=
  match s !! i with
  | Some c =>
    (Ascii.eqb c "A" || Ascii.eqb c "B")
    && negb (isWordAt (prevAt s i)) && negb (isWordAt (s !! S i))
  | None => false
  end.

(** The first standalone token of a text, scanning the positions from the
    left. *)
Definition firstStandalone (s : list ascii) : option ascii :=
  match List.find (standaloneAt s) (seq 0 (List.length s)) with
  | Some i => s !! i
  | None => None
  end.

(** Whether [answerRegex] matches right here, after the byte [prev]. *)
Definition answerHere (prev : option ascii) (s : list ascii) : option ascii :=
  match s with
  | c :: rest =>
    if (Ascii.eqb c "A" || Ascii.eqb c "B")
       && negb (isWordAt prev) && negb (isWordAt (head rest))
    then Some c else None
  | [] => None
  end.

(** The leftmost place where it does. *)
Fixpoint scan (prev : option ascii) (s : list ascii) : option ascii :=
  match answerHere prev s with
  | Some c => Some c
  | None =>
    match s with
    | [] => None
    | c :: rest => scan (Some c) rest
    end
  end.

(** A byte that is not a word character. *)
Definition nonword (c : ascii) : Prop := IsWordChar c = false.

(** *** Runs compared *)

(** An inference collaborator: the endpoint and the decoding of its reply.
    It is deterministic in that it is a function of the request. *)
Record Collaborator := {
  post : Request -> ApiResult;
  decode : string -> string
}.

(** The call of [processSample] is served by [c]. *)
Definition consults (c : Collaborator) (env : Env) : Prop :=
  Post env = post c /\ jsonAnswer env = decode c.

Definition everyCallConsults (c : Collaborator) (sched : list Action) : Prop :=
  Forall (fun a => match a with
                   | WorkerProcess _ env => consults c env
                   | _ => True
                   end) sched.

(** The completion that [c] gives for a prompt. *)
Definition reply (c : Collaborator) (inputText : string) : string :=
  match post c (requestFor inputText) with
  | ApiErr _ => InvalidAns
  | ApiOk body => decode c body
  end.

(** The three counts of a state. *)
Definition counts (p : Pipeline) : Z * Z * Z :=
  (total (wStats (world p)), correct (wStats (world p)),
   invalid (wStats (world p))).

(** The claim on two runs, as the specification words it: over one dataset
    and with one deterministic collaborator, two runs that reach their final
    snapshot have the same counts. *)
Definition countsReproducible : Prop :=
  forall c file sched1 sched2 p1 p2,
    everyCallConsults c sched1 -> everyCallConsults c sched2 ->
    run sched1 (initial file) = Some p1 ->
    run sched2 (initial file) = Some p2 ->
    mainPc p1 = MExport -> mainPc p2 = MExport ->
    counts p1 = counts p2.

(** The reply of [c] to the prompt of a sample does not depend on the order
    in which the exemplars were shuffled. *)
Definition orderBlind (c : Collaborator) : Prop :=
  forall rnd1 rnd2 sample,
    reply c (buildPrompt rnd1 sample NShot)
    = reply c (buildPrompt rnd2 sample NShot).

(** The verdict on a sample under an order-blind collaborator: the flags
    correct and invalid. *)
Definition verdict (c : Collaborator) (sample : Sample) : bool * bool :=
  let answer := cleanAnswer (reply c (buildPrompt (fun i => i) sample NShot)) in
  (String.eqb answer (correctAnswerOf sample), String.eqb answer InvalidAns).

Definition flags (r : Response) : bool * bool := (IsCorrect r, IsInvalid r).

(** The samples of a dataset, when the source reads it to the end. *)
Definition samplesOf (x : Halt + list Sample) : list Sample :=
  match x with inr l => l | inl _ => [] end.

Definition dataset (file : option (list GoCsv.Line)) : list Sample :=
  samplesOf (loadDataset file).

(** The samples that the source goroutine has yet to send. *)
Definition unsent (file : option (list GoCsv.Line)) (pc : SourcePc)
  : list Sample :=
  match pc with
  | SrcOpen => dataset file
  | SrcNext reader colMap =>
    samplesOf (sourceLoop (S (List.length (GoCsv.pending reader))) reader colMap)
  | SrcSend reader colMap sample =>
    sample
    :: samplesOf (sourceLoop (S (List.length (GoCsv.pending reader))) reader colMap)
  | SrcClosed => []
  end.

(** The samples not yet scored: unsent, in the intake queue, or in a
    worker's hands. *)
Definition pending (p : Pipeline) : list Sample :=
  unsent (file p) (source p) ++ samplesChan p ++ omap busy (workers p).

(** A collaborator that answers by the first exemplar of the prompt, two
    generators that shuffle the exemplars differently, and a run with each. *)
Definition readsFirstExemplar : Collaborator :=
  {| post := fun rq =>
       match Messages rq with
       | [_; user] =>
         if String.prefix
              "The following are multiple choice questions about 'going grocery shopping'"
              (Content user)
         then ApiOk "A" else ApiOk "B"
       | _ => ApiErr "bad request"
       end;
     decode := fun body => body |}.

Definition withGenerator (rnd : nat -> nat) : Env :=
  {| rnd := rnd;
     Post := post readsFirstExemplar;
     jsonAnswer := decode readsFirstExemplar;
     sinceAtUpdate := 1%float;
     sinceAtReturn := 1%float |}.

Definition completeRun (env : Env) : list Action :=
  [ SourceOpen; SourceRead; SourceSend; SourceRead;
    WorkerRecv 0; WorkerProcess 0 env; WorkerSend 0 ]
  ++ map WorkerExit (seq 0 WorkerCount)
  ++ [ MainWait; MainClose; CollectorRecv; CollectorClosed; MainFinal 9%float ].

(** A collaborator that always answers [A]. *)
Definition alwaysA : Collaborator :=
  {| post := fun _ => ApiOk "A"; decode := fun body => body |}.

(** The verdicts of the run: those given, and those to come. *)
Definition ledger (c : Collaborator) (p : Pipeline) : list (bool * bool) :=
  map flags (produced p) ++ map (verdict c) (pending p).

(** A second run over the three records: the generator shuffles the
    exemplars, and three workers take one record each. *)
Definition answersAShuffled : Env :=
  {| rnd := fun _ => 0%nat;
     Post := fun _ => ApiOk "A";
     jsonAnswer := fun body => body;
     sinceAtUpdate := 2%float;
     sinceAtReturn := 2%float |}.

Definition threeWorkersSchedule : list Action :=
  [ SourceOpen;
    SourceRead; SourceSend; SourceRead; SourceSend; SourceRead; SourceSend;
    SourceRead;
    WorkerRecv 2; WorkerRecv 0; WorkerRecv 1;
    WorkerProcess 1 answersAShuffled; WorkerProcess 2 answersAShuffled;
    WorkerSend 1; WorkerProcess 0 answersAShuffled; WorkerSend 0; WorkerSend 2;
    CollectorTick ]
  ++ map WorkerExit (seq 0 WorkerCount)
  ++ [ MainWait; MainClose; MainFinal 5%float;
       CollectorRecv; CollectorRecv; CollectorRecv; CollectorClosed ].

(** *** What interleaved goroutines still owe to a counter *)

Definition counter (c : Counter) (st : Stats) : Z :=
  match c with
  | CTotal => total st
  | CCorrect => correct st
  | CInvalid => invalid st
  end.

Definition sameCounter (c c' : Counter) : bool :=
  match c, c' with
  | CTotal, CTotal | CCorrect, CCorrect | CInvalid, CInvalid => true
  | _, _ => false
  end.

Definition sumZ (l : list Z) : Z := fold_right Z.add 0 l.

(** The amount that an access adds to counter [c]. *)
Definition addsTo (c : Counter) (op : MemOp) : Z :=
  match op with
  | AtomicAddInt32 c' delta => if sameCounter c c' then delta else 0
  | LoadTotalTime | StoreTotalTime _ => 0
  end.

(** The amount that the accesses still to be performed add to [c]. *)
Definition owedBy (c : Counter) (g : Goroutine) : Z :=
  sumZ (map (addsTo c) (todo g)).

Definition owed (c : Counter) (gs : list Goroutine) : Z :=
  sumZ (map (owedBy c) gs).

(** *** An empty dataset: the header row alone *)

Definition headerOnly : list GoCsv.Line :=
  [ GoCsv.Fields ["premise"; "choice1"; "choice2"; "question"; "label"] ].

Definition headerOnlySchedule : list Action :=
  [ SourceOpen; SourceRead ]
  ++ map WorkerExit (seq 0 WorkerCount)
  ++ [ MainWait; MainClose; MainFinal 1%float ].

(** The goroutines of workers that have each scored one record: a job is
    the two flags of the result and the duration. *)
Definition workersOf (jobs : list (bool * bool * float)) : list Goroutine :=
  map (fun j => goroutine (statsUpdate (fst (fst j)) (snd (fst j)) (snd j))) jobs.

(** *** The text of one exemplar in the demonstration part of a prompt *)

Definition exemplarBlock (ex : Demo) : string :=
  (getQuestionText (activityName ex) (premise ex) (choices ex) (question ex)
   ++ " " ++ answer ex ++ LF ++ LF)%string.

(** The demonstration text for the exemplars [order], written one after the
    other. *)
Definition demoTextOf (order : list Demo) : string :=
  fold_left (fun demo ex => (demo ++ exemplarBlock ex)%string) order
            EmptyString.

(** *** Completions without an answer *)

(** The text holds no standalone [A] or [B]. *)
Definition noLetter (completion : string) : Prop :=
  forall i, standaloneAt (list_ascii_of_string completion) i = false.

(** Whatever the prompt, the call ends with a completion that holds no
    standalone letter: an error, an empty or undecodable reply, prose. *)
Definition neverAnswers (env : Env) : Prop :=
  forall inputText, noLetter (completionOf env inputText).

Definition noCallAnswers (sched : list Action) : Prop :=
  Forall (fun a => match a with
                   | WorkerProcess _ env => neverAnswers env
                   | _ => True
                   end) sched.

(** An endpoint whose reply does not decode: [jsonAnswer] yields the empty
    string. *)
Definition undecodableReply : Env :=
  {| rnd := fun i => i;
     Post := fun _ => ApiOk "<html>502 Bad Gateway</html>";
     jsonAnswer := fun _ => EmptyString;
     sinceAtUpdate := 1%float;
     sinceAtReturn := 1%float |}.

Definition undecodableSchedule : list Action :=
  [ SourceOpen;
    SourceRead; SourceSend; SourceRead; SourceSend; SourceRead; SourceSend;
    SourceRead;
    WorkerRecv 0; WorkerRecv 1;
    WorkerProcess 0 undecodableReply; WorkerProcess 1 undecodableReply;
    WorkerSend 1; WorkerSend 0; WorkerRecv 1;
    WorkerProcess 1 undecodableReply ].

(** *** A snapshot in the middle of a worker's updates

    One worker has scored a correct answer and has added to [correct], not
    yet to [total]. *)
Definition oneCorrectJob : list (bool * bool * float) :=
  [ (true, false, 1%float) ].

(** *** Where the records are

    What a result echoes of its record, and the same of a sample that is
    yet to be scored. *)
Definition echo (r : Response) : string * string * string * string * string :=
  (rPremise r, rChoice1 r, rChoice2 r, CausalQuestion r, CorrectAnswer r).

Definition key (s : Sample) : string * string * string * string * string :=
  (Premise s, Choice1 s, Choice2 s, Question s, correctAnswerOf s).

(** The results in the order in which the collector persists them: those
    inserted, those of its batch, those waiting in the output queue. *)
Definition persistOrder (p : Pipeline) : list Response :=
  (resultsColl p ++ batch p ++ resultsChan p)%list.

(** The dataset cannot be opened, or its header row cannot be read. *)
Definition unreadable (file : option (list GoCsv.Line)) : Prop :=
  match file with
  | None => True
  | Some lines => headerOf lines = None
  end.

(** A file that starts with a line the reader cannot parse. *)
Definition brokenFile : option (list GoCsv.Line) :=
  Some [GoCsv.Malformed; GoCsv.Fields ["p"; "a"; "b"; "effect"; "0"]].

(** The run is over: [main] has written its final entry and the collector
    has returned. *)
Definition complete (p : Pipeline) : Prop :=
  mainPc p = MExport /\ collector p = Closed.

(** A goroutine other than the collector's timer can take a step. *)
Definition canMove (p : Pipeline) : Prop :=
  exists a p', a <> CollectorTick /\ step a p = Some p'.

(** *** Columns in another order

    The label column comes first. *)
Definition labelFirst : list string :=
  ["label"; "premise"; "choice1"; "choice2"; "question"].

Definition labelFirstRecord : list string :=
  ["1"; "dig a hole"; "plant the tree"; "eat the soil"; "effect"].

(** *** From the pipeline to the aggregator

    A result of the pipeline as the aggregator decodes it from the results
    collection: the two [Response] structs have the same fields under the
    same [bson] names. *)
Definition document (r : Response) : option Results.Response :=
  Some {| Results.Premise := rPremise r;
          Results.Choice1 := rChoice1 r;
          Results.Choice2 := rChoice2 r;
          Results.CausalQuestion := CausalQuestion r;
          Results.CorrectAnswer := CorrectAnswer r;
          Results.ModelAnswer := ModelAnswer r;
          Results.ModelCompletion := ModelCompletion r;
          Results.IsCorrect := IsCorrect r;
          Results.IsInvalid := IsInvalid r;
          Results.ProcessingTime := ProcessingTime r |}.

(** *** The work that is left

    The number of steps, timer ticks apart, that a state can still take at
    most. A line of the file costs six steps: it is read, sent, received,
    processed, sent on and collected. *)
Definition linesIn (file : option (list GoCsv.Line)) : nat :=
  match file with Some lines => List.length lines | None => 0 end.

Definition sourceWork (file : option (list GoCsv.Line)) (pc : SourcePc) : nat :=
  match pc with
  | SrcOpen => 6 * linesIn file + 2
  | SrcNext reader _ => 6 * List.length (GoCsv.pending reader) + 1
  | SrcSend reader _ _ => 6 * List.length (GoCsv.pending reader) + 6
  | SrcClosed => 0
  end.

Definition workerWork (pc : WorkerPc) : nat :=
  match pc with
  | WRecv => 1
  | WBusy _ => 4
  | WSend _ => 3
  | WExit => 0
  end.

Definition collectorWork (pc : CollectorPc) : nat :=
  match pc with Draining => 1 | Closed => 0 end.

Definition mainWork (pc : MainPc) : nat :=
  match pc with MWait => 3 | MClose => 2 | MFinal => 1 | MExport => 0 end.

Definition work (p : Pipeline) : nat :=
  match halted p with
  | Some _ => 0
  | None =>
    sourceWork (file p) (source p)
    + 4 * List.length (samplesChan p)
    + list_sum (map workerWork (workers p))
    + List.length (resultsChan p)
    + collectorWork (collector p)
    + mainWork (mainPc p)
  end.

Definition isTick (a : Action) : bool :=
  match a with CollectorTick => true | _ => false end.

(** The steps of a schedule that are not timer ticks. *)
Definition moves (sched : list Action) : nat :=
  count (fun a => negb (isTick a)) sched.

(** The process has come to its end: the run is complete, or the process
    has been stopped. *)
Definition ended (p : Pipeline) : Prop :=
  complete p \/ halted p <> None.

(** The sample with another label. *)
Definition relabel (l : string) (s : Sample) : Sample :=
  {| Premise := Premise s; Choice1 := Choice1 s; Choice2 := Choice2 s;
     Question := Question s; Label := l |}.

(** *** Calls of [processSample] whose counter updates interleave

    A call is what [processSample] is given: its sample and what it meets
    outside the program. Each call is a goroutine of its own; the calls of
    one worker follow each other, so the interleavings of the workers are
    among those of the calls. *)
Definition result (call : Env * Sample) : Response :=
  responseOf (fst call) (snd call).


Definition jobOf (call : Env * Sample) : bool * bool * float :=
  (IsCorrect (result call), IsInvalid (result call), sinceAtUpdate (fst call)).

Definition updatesOf (calls : list (Env * Sample)) : list Goroutine :=
  workersOf (map jobOf calls).













(** *** A run in which one call has been answered; the next one fails *)
Definition mixedSchedule : list Action :=
  [ SourceOpen;
    SourceRead; SourceSend; SourceRead; SourceSend;
    WorkerRecv 0; WorkerRecv 1;
    WorkerProcess 1 answersA ].

(** * Properties *)

(** ** Fixed-width arithmetic *)

Section Wrap.

Lemma wrap32_small z : - 2 ^ 31 <= z < 2 ^ 31 -> wrap32 z = z.
Proof.
  intros H. unfold wrap32, wrap.
  rewrite Z.mod_small; lia.
Qed.

Lemma wrap32_range z : - 2 ^ 31 <= wrap32 z < 2 ^ 31.
Proof.
  unfold wrap32, wrap.
  pose proof (Z.mod_pos_bound (z + 2 ^ (32 - 1)) (2 ^ 32)). lia.
Qed.

Lemma wrap32_add_l a b : wrap32 (wrap32 a + b) = wrap32 (a + b).
Proof.
  unfold wrap32, wrap. f_equal.
  replace ((a + 2 ^ (32 - 1)) mod 2 ^ 32 - 2 ^ (32 - 1) + b + 2 ^ (32 - 1))
    with ((a + 2 ^ (32 - 1)) mod 2 ^ 32 + b) by lia.
  rewrite Zplus_mod_idemp_l. f_equal. lia.
Qed.

Lemma wrap32_add_r a b : wrap32 (a + wrap32 b) = wrap32 (a + b).
Proof. rewrite (Z.add_comm a), wrap32_add_l. f_equal. lia. Qed.

Lemma wrap32_add_ll a b c : wrap32 (wrap32 a + b + c) = wrap32 (a + b + c).
Proof. rewrite <- Z.add_assoc, wrap32_add_l. f_equal. lia. Qed.

Lemma wrap32_add_lr a b c : wrap32 (a + wrap32 b + c) = wrap32 (a + b + c).
Proof.
  replace (a + wrap32 b + c) with (wrap32 b + (a + c)) by lia.
  rewrite wrap32_add_l. f_equal. lia.
Qed.

Lemma wrap64_small z : - 2 ^ 63 <= z < 2 ^ 63 -> wrap64 z = z.
Proof.
  intros H. unfold wrap64, wrap.
  rewrite Z.mod_small; lia.
Qed.

End Wrap.

(** ** [processSample], one call *)

Section ProcessSample.

Lemma execOps_statsUpdate c i d st :
  execOps (statsUpdate c i d) st = bump c i d st.
Proof. destruct st, c, i; reflexivity. Qed.

Lemma processSample_eq env sample w :
  processSample env sample w =
  (responseOf env sample,
   {| wStats := bump (IsCorrect (responseOf env sample))
                     (IsInvalid (responseOf env sample))
                     (sinceAtUpdate env) (wStats w);
      wRequests :=
        wRequests w ++ [requestFor (buildPrompt (rnd env) sample NShot)] |}).
Proof.
  cbv beta delta [processSample bind askQuestion CallExternalAPI ret updateStats].
  unfold responseOf, completionOf, correctAnswerOf, requestFor.
  destruct (Post env _); cbv beta iota zeta;
    rewrite execOps_statsUpdate; reflexivity.
Qed.

End ProcessSample.

(** ** Counting *)

Section Count.
Context {A : Type}.
Implicit Types (f : A -> bool) (l : list A).

Lemma count_app f l1 l2 : count f (l1 ++ l2) = (count f l1 + count f l2)%nat.
Proof. induction l1 as [|x t IH]; simpl; [reflexivity | rewrite IH; lia]. Qed.

Lemma count_perm f l1 l2 : l1 ≡ₚ l2 -> count f l1 = count f l2.
Proof. induction 1; simpl; lia. Qed.

Lemma count_le_length f l : (count f l <= List.length l)%nat.
Proof. induction l as [|x t IH]; simpl; [lia | destruct (f x); lia]. Qed.

Lemma count_all f l : Forall (fun x => f x = true) l -> count f l = List.length l.
Proof. induction 1 as [|x t Hx _ IH]; simpl; [reflexivity | rewrite Hx, IH; lia]. Qed.

Lemma count_none f l : Forall (fun x => f x = false) l -> count f l = 0%nat.
Proof. induction 1 as [|x t Hx _ IH]; simpl; [reflexivity | rewrite Hx, IH; lia]. Qed.

End Count.

(** ** The pipeline, step by step *)

(** Case analysis on an enabled step: every way [step a p] can be [Some p']. *)
Ltac step_cases H :=
  unfold step in H;
  repeat (match type of H with
          | context [match ?x with _ => _ end] =>
            let E := fresh "E" in destruct x eqn:E
          end;
          try discriminate H;
          cbv beta delta [stepSource stepWorker stepCollector stepMain] in H;
          cbv beta iota zeta in H);
  try (injection H as H; subst).

Section Steps.

(** Replacing the state of one worker changes what the workers hold by that
    worker's share. *)
Lemma omap_insert_perm {B} (f : WorkerPc -> option B) ws i pc pc' :
  ws !! i = Some pc ->
  exists others,
    omap f ws ≡ₚ option_list (f pc) ++ others
    /\ omap f (<[i := pc']> ws) ≡ₚ option_list (f pc') ++ others.
Proof.
  intros Hi.
  exists (omap f (take i ws) ++ omap f (drop (S i) ws)).
  assert (Hlen : (i < List.length ws)%nat) by (eapply lookup_lt_Some; eauto).
  split.
  - rewrite <- (take_drop_middle ws i pc Hi) at 1.
    rewrite omap_app. simpl omap at 2.
    destruct (f pc); simpl; [|reflexivity].
    rewrite Permutation_middle. reflexivity.
  - rewrite insert_take_drop by exact Hlen.
    rewrite omap_app. simpl omap at 2.
    destruct (f pc'); simpl; [|reflexivity].
    rewrite Permutation_middle. reflexivity.
Qed.

Lemma allExited_lookup ws i pc :
  allExited ws = true -> ws !! i = Some pc -> pc = WExit.
Proof.
  unfold allExited. rewrite forallb_forall. intros Hall Hi.
  specialize (Hall pc). destruct pc; try reflexivity;
    exfalso; (assert (false = true) as Hf; [apply Hall | discriminate Hf]);
    apply list_elem_of_In; eapply list_elem_of_lookup_2; eauto.
Qed.

(** What a step does to the results produced and to the shared state: a call
    of [processSample] adds its result and its updates; every other step
    leaves both as they are, up to where the results sit. *)
Lemma step_produced a p p' :
  step a p = Some p' ->
  (produced p' ≡ₚ produced p /\ world p' = world p)
  \/ (exists i env sample,
        a = WorkerProcess i env
        /\ workers p !! i = Some (WBusy sample)
        /\ world p' = snd (processSample env sample (world p))
        /\ produced p' ≡ₚ responseOf env sample :: produced p).
Proof.
  intros H. step_cases H.
  all: try (left; split; reflexivity).
  all: unfold produced; cbn -[processSample].
  all: try match goal with
       | Hp : processSample ?env ?sample _ = _ |- _ =>
         right; exists i, env, sample;
         rewrite processSample_eq in Hp; injection Hp as <- <-;
         split; [reflexivity|]; split; [assumption|];
         split; [rewrite processSample_eq; reflexivity|]
       | |- _ => left; split; [|reflexivity]
       end.
  all: try match goal with
       | Hw : workers _ !! _ = Some _ |- context [<[_ := ?pc']> _] =>
         let o := fresh "o" in let H1 := fresh "H" in let H2 := fresh "H" in
         destruct (omap_insert_perm sending _ _ _ pc' Hw) as (o & H1 & H2);
         rewrite H1, H2; simpl
       | Hc : resultsChan _ = _ |- _ => rewrite Hc
       end.
  all: solve_Permutation.
Qed.

End Steps.

(** ** Invariants of the pipeline *)

Section Invariants.

(** A property that holds initially and that every step keeps holds of every
    state a schedule reaches. *)
Lemma run_invariant_on (Q : Action -> Prop) (I : Pipeline -> Prop) :
  (forall a p p', Q a -> I p -> step a p = Some p' -> I p') ->
  forall sched p p', Forall Q sched -> I p -> run sched p = Some p' -> I p'.
Proof.
  intros Hstep sched. induction sched as [|a rest IH]; simpl; intros p p' HQ Hp Hr.
  - injection Hr as <-. exact Hp.
  - destruct (step a p) as [q|] eqn:Hs; [|discriminate Hr].
    inversion HQ as [|? ? Ha Hrest]; subst.
    eapply IH; [exact Hrest| |exact Hr]. eapply Hstep; eauto.
Qed.

Lemma run_invariant (I : Pipeline -> Prop) :
  (forall a p p', I p -> step a p = Some p' -> I p') ->
  forall sched p p', I p -> run sched p = Some p' -> I p'.
Proof.
  intros Hstep sched p p' Hp Hr.
  apply (run_invariant_on (fun _ => True) I) with sched p.
  - intros a q q' _. apply Hstep.
  - apply Forall_forall. intros; exact Logic.I.
  - exact Hp.
  - exact Hr.
Qed.

Lemma reachable_invariant (I : Pipeline -> Prop) file :
  I (initial file) ->
  (forall a p p', I p -> step a p = Some p' -> I p') ->
  forall p, reachable file p -> I p.
Proof.
  intros H0 Hstep p [sched Hr]. eapply run_invariant; eauto.
Qed.

Lemma produced_initial file : produced (initial file) = [].
Proof.
  unfold produced, initial; cbn.
  generalize WorkerCount. intros n. induction n as [|n IH]; simpl; auto.
Qed.

(** A verdict is never both correct and invalid: the correct answer is [A]
    or [B], the sentinel is neither. *)
Lemma responseOf_exclusive env sample :
  IsCorrect (responseOf env sample) && IsInvalid (responseOf env sample) = false.
Proof.
  unfold responseOf; cbn [IsCorrect IsInvalid].
  set (m := cleanAnswer _).
  destruct (String.eqb_spec m (correctAnswerOf sample)) as [Hc|]; [|reflexivity].
  destruct (String.eqb_spec m InvalidAns) as [Hi|]; [|reflexivity].
  exfalso. rewrite Hi in Hc. unfold correctAnswerOf in Hc.
  destruct (String.eqb (Label sample) "1"); discriminate Hc.
Qed.

Lemma tallies_perm st rs rs' : rs ≡ₚ rs' -> tallies st rs -> tallies st rs'.
Proof.
  intros Hp (Ht & Hc & Hi). unfold tallies.
  rewrite <- (Permutation_length Hp), <- !(count_perm _ _ _ Hp). auto.
Qed.

Lemma tallies_bump st rs r d :
  tallies st rs ->
  tallies (bump (IsCorrect r) (IsInvalid r) d st) (r :: rs).
Proof.
  intros (Ht & Hc & Hi). unfold tallies, bump, add32; cbn -[wrap32 Z.of_nat].
  rewrite Ht, Hc, Hi. repeat split.
  - rewrite wrap32_add_l. f_equal. lia.
  - destruct (IsCorrect r); [rewrite wrap32_add_l|]; f_equal; lia.
  - destruct (IsInvalid r); [rewrite wrap32_add_l|]; f_equal; lia.
Qed.

(** Correct, wrong-but-valid and invalid partition the results. *)
Lemma count_partition rs :
  Forall (fun r => IsCorrect r && IsInvalid r = false) rs ->
  List.length rs
  = (count IsCorrect rs + count wrongButValid rs + count IsInvalid rs)%nat.
Proof.
  induction 1 as [|r rs Hr _ IH]; simpl; [reflexivity|].
  rewrite IH. unfold wrongButValid.
  destruct (IsCorrect r), (IsInvalid r); simpl in *; try discriminate Hr; lia.
Qed.

(** The counters are those of the results produced, none of which is both
    correct and invalid. *)
Lemma counters_invariant file p :
  reachable file p ->
  Forall (fun r => IsCorrect r && IsInvalid r = false) (produced p)
  /\ tallies (wStats (world p)) (produced p).
Proof.
  apply (reachable_invariant
           (fun p => Forall (fun r => IsCorrect r && IsInvalid r = false) (produced p)
                     /\ tallies (wStats (world p)) (produced p))).
  - rewrite produced_initial. split; [constructor|]. repeat split.
  - intros a q q' [Hex Ht] Hs.
    destruct (step_produced _ _ _ Hs) as [[Hp Hw]|(i & env & sample & _ & _ & Hw & Hp)].
    + split.
      * rewrite Hp. exact Hex.
      * rewrite Hw. eapply tallies_perm; [symmetry; exact Hp | exact Ht].
    + split.
      * rewrite Hp. constructor; [apply responseOf_exclusive | exact Hex].
      * eapply tallies_perm; [symmetry; exact Hp|].
        rewrite Hw, processSample_eq. cbn [snd wStats].
        apply tallies_bump. exact Ht.
Qed.

End Invariants.

(** ** The counters partition the results *)

Section Partition.

(** Between whole calls of [processSample], which is where the states of
    the pipeline are, no result produced so far is both correct and invalid,
    the counters are the numbers of results, of correct ones and of invalid
    ones, and the total is the sum of the correct, the wrong-but-valid and
    the invalid. *)
Lemma partition_between_calls file p :
  reachable file p ->
  let st := wStats (world p) in
  let rs := produced p in
  Forall (fun r => IsCorrect r && IsInvalid r = false) rs
  /\ tallies st rs
  /\ total st
     = add32 (add32 (correct st) (wrap32 (Z.of_nat (count wrongButValid rs))))
             (invalid st)
  /\ (Z.of_nat (List.length rs) < 2 ^ 31 ->
      total st
      = correct st + Z.of_nat (count wrongButValid rs) + invalid st).
Proof.
  intros Hr st rs.
  destruct (counters_invariant file p Hr) as [Hex Ht].
  fold rs in Hex, Ht. fold st in Ht.
  pose proof (count_partition rs Hex) as Hpart.
  destruct Ht as (Htot & Hcor & Hinv).
  repeat split; try assumption.
  - unfold add32. rewrite Htot, Hcor, Hinv.
    rewrite wrap32_add_l, wrap32_add_r, wrap32_add_ll, wrap32_add_lr.
    f_equal. lia.
  - intros Hsmall.
    pose proof (count_le_length IsCorrect rs).
    pose proof (count_le_length IsInvalid rs).
    rewrite Htot, Hcor, Hinv, !wrap32_small; lia.
Qed.

End Partition.

(** ** The correct answer of a sample *)

Section CorrectAnswer.

(** C10. The correct answer that [processSample] derives is [B] exactly when
    the label is the string [1] and [A] for every other label, malformed ones
    included; the call returns a result either way, scored against that
    answer. *)
Theorem C10_label_one_is_B_else_A env sample w :
  let r := fst (processSample env sample w) in
  (Label sample = "1" -> CorrectAnswer r = "B")
  /\ (Label sample <> "1" -> CorrectAnswer r = "A")
  /\ (CorrectAnswer r = "B" <-> Label sample = "1")
  /\ IsCorrect r = String.eqb (ModelAnswer r) (CorrectAnswer r).
Proof.
  rewrite processSample_eq. cbn [fst CorrectAnswer IsCorrect ModelAnswer responseOf].
  unfold correctAnswerOf.
  destruct (String.eqb_spec (Label sample) "1") as [H1|H1];
    repeat split; intros; try reflexivity; try contradiction; try discriminate.
  assumption.
Qed.

(** A label that is neither [0] nor [1] is scored against choice [A]. *)
Lemma malformed_label_scored_against_A :
  let sample := {| Premise := "dig a hole"; Choice1 := "plant the tree";
                   Choice2 := "eat the soil"; Question := "effect";
                   Label := "yes" |} in
  let r := fst (processSample answersA sample
                  {| wStats := zeroStats; wRequests := [] |}) in
  CorrectAnswer r = "A" /\ ModelAnswer r = "A" /\ IsCorrect r = true.
Proof. vm_compute. repeat split. Qed.

End CorrectAnswer.

(** ** Failed inference calls *)

Section FailedCalls.

Lemma cleanAnswer_InvalidAns : cleanAnswer InvalidAns = InvalidAns.
Proof. reflexivity. Qed.

Lemma responseOf_failed env sample :
  fails env ->
  ModelCompletion (responseOf env sample) = InvalidAns
  /\ IsInvalid (responseOf env sample) = true
  /\ IsCorrect (responseOf env sample) = false.
Proof.
  intros Hf. unfold responseOf, completionOf; cbn.
  destruct (Hf (requestFor (buildPrompt (rnd env) sample NShot))) as [err ->].
  rewrite cleanAnswer_InvalidAns. repeat split.
  unfold correctAnswerOf. destruct (String.eqb (Label sample) "1"); reflexivity.
Qed.

(** One request is sent per result produced, whatever the replies. *)
Lemma one_request_per_result file p :
  reachable file p ->
  List.length (wRequests (world p)) = List.length (produced p).
Proof.
  apply (reachable_invariant
           (fun p => List.length (wRequests (world p)) = List.length (produced p))).
  - rewrite produced_initial. reflexivity.
  - intros a q q' IH Hs.
    destruct (step_produced _ _ _ Hs) as [[Hp Hw]|(i & env & sample & _ & _ & Hw & Hp)].
    + rewrite Hw, (Permutation_length Hp). exact IH.
    + rewrite Hw, (Permutation_length Hp), processSample_eq. cbn [snd wRequests].
      rewrite length_app. simpl. lia.
Qed.

(** A run whose every call fails: every result carries the sentinel and is
    flagged invalid, there are as many requests as results, and the
    counters are those of the results. *)
Lemma failing_run file sched p :
  everyCallFails sched ->
  run sched (initial file) = Some p ->
  Forall (fun r => ModelCompletion r = InvalidAns
                   /\ IsInvalid r = true /\ IsCorrect r = false) (produced p)
  /\ List.length (wRequests (world p)) = List.length (produced p)
  /\ total (wStats (world p)) = wrap32 (Z.of_nat (List.length (produced p)))
  /\ invalid (wStats (world p)) = total (wStats (world p))
  /\ correct (wStats (world p)) = 0.
Proof.
  intros Hf Hr.
  assert (Hall : Forall (fun r => ModelCompletion r = InvalidAns
                   /\ IsInvalid r = true /\ IsCorrect r = false) (produced p)).
  { apply (run_invariant_on
             (fun a => match a with WorkerProcess _ env => fails env | _ => True end)
             (fun p => Forall (fun r => ModelCompletion r = InvalidAns
                   /\ IsInvalid r = true /\ IsCorrect r = false) (produced p)))
      with sched (initial file).
    - intros a q q' Ha IH Hs.
      destruct (step_produced _ _ _ Hs) as [[Hp _]|(i & env & sample & -> & _ & _ & Hp)].
      + rewrite Hp. exact IH.
      + rewrite Hp. constructor; [|exact IH]. apply responseOf_failed. exact Ha.
    - exact Hf.
    - rewrite produced_initial. constructor.
    - exact Hr. }
  assert (Hreach : reachable file p) by (exists sched; exact Hr).
  destruct (counters_invariant file p Hreach) as [_ (Ht & Hc & Hi)].
  split; [exact Hall|]. split; [exact (one_request_per_result file p Hreach)|].
  split; [exact Ht|]. split.
  - rewrite Hi, Ht. f_equal. f_equal. apply count_all.
    eapply Forall_impl; [exact Hall|]. simpl. intros r (_ & H & _). exact H.
  - rewrite Hc, count_none; [reflexivity|].
    eapply Forall_impl; [exact Hall|]. simpl. intros r (_ & _ & H). exact H.
Qed.

End FailedCalls.

(** ** The final snapshot *)

Section FinalSnapshot.

(** While a worker has not exited, [main] is still in [wg.Wait]. *)
Lemma worker_alive q i pc :
  (mainPc q <> MWait -> allExited (workers q) = true) ->
  workers q !! i = Some pc -> pc <> WExit -> mainPc q = MWait.
Proof.
  intros Hw Hi Hpc. destruct (mainPc q) eqn:Em; [reflexivity|..];
    exfalso; apply Hpc; eapply allExited_lookup; eauto; apply Hw; discriminate.
Qed.

(** Once [main] is past [wg.Wait], every worker has exited; once it is past
    [close(resultsChan)], the output queue is closed; once it has persisted
    the final snapshot, that snapshot is among the logs and is the snapshot
    of the counters as they now are. *)
Lemma main_invariant file p :
  reachable file p ->
  (mainPc p <> MWait -> allExited (workers p) = true)
  /\ (mainPc p = MFinal \/ mainPc p = MExport -> resultsClosed p = true)
  /\ (mainPc p = MExport ->
      exists elapsed, In (finalEntry (wStats (world p)) elapsed) (logsColl p)).
Proof.
  apply (reachable_invariant
    (fun p =>
       (mainPc p <> MWait -> allExited (workers p) = true)
       /\ (mainPc p = MFinal \/ mainPc p = MExport -> resultsClosed p = true)
       /\ (mainPc p = MExport ->
           exists elapsed, In (finalEntry (wStats (world p)) elapsed) (logsColl p)))).
  - cbn. repeat split; intros; try congruence. destruct H; discriminate.
  - intros a q q' (Hw & Hc & Hl) Hs.
    step_cases Hs; cbn -[processSample allExited] in *.
    all: try match goal with
         | Hi : workers ?q0 !! _ = Some _,
           Hw0 : mainPc ?q0 <> MWait -> _ |- _ =>
           let Hm := fresh "Hm" in
           assert (Hm : mainPc q0 = MWait)
             by (eapply worker_alive; [exact Hw0 | exact Hi | discriminate]);
           rewrite Hm
         end.
    all: repeat split; intros;
      repeat match goal with H : _ \/ _ |- _ => destruct H end;
      try discriminate; try congruence; try assumption;
      try (apply Hw; congruence);
      try (apply Hc; auto; fail);
      try (apply Hl; assumption);
      try (eexists; apply in_or_app; right; left; reflexivity).
    (* a tick of the collector's timer appends to the logs *)
    all: match goal with
         | Hm : mainPc _ = MExport |- _ =>
           destruct (Hl Hm) as [e He]; exists e; apply in_or_app; auto
         end.
Qed.

(** C7. The final snapshot is persisted only after every worker has exited
    and the output queue has been closed, and it is the snapshot of the
    counters of the whole run. It is not ordered after the collector: the
    counterexample below has it persisted while the collector is still
    draining. *)
Theorem C7_final_snapshot_after_workers_and_close file p :
  reachable file p ->
  mainPc p = MExport ->
  allExited (workers p) = true
  /\ resultsClosed p = true
  /\ exists elapsed, In (finalEntry (wStats (world p)) elapsed) (logsColl p).
Proof.
  intros Hr Hm. destruct (main_invariant file p Hr) as (Hw & Hc & Hl).
  repeat split; [apply Hw; congruence | apply Hc; auto | apply Hl; exact Hm].
Qed.

Lemma C7_overtaking_run :
  exists p,
    run overtakingSchedule (initial (Some oneRecord)) = Some p
    /\ mainPc p = MExport
    /\ allExited (workers p) = true
    /\ resultsClosed p = true
    /\ exists elapsed, In (finalEntry (wStats (world p)) elapsed) (logsColl p).
Proof.
  eexists. split; [vm_compute; reflexivity|].
  split; [reflexivity|].
  apply (C7_final_snapshot_after_workers_and_close (Some oneRecord)).
  - exists overtakingSchedule. vm_compute. reflexivity.
  - reflexivity.
Defined.

(** The claim as worded fails: with one record, the final snapshot is
    persisted while the collector is draining, the result still in the
    output queue and nothing persisted. *)
Lemma C7_final_snapshot_before_collector_closed :
  ~ finalSnapshotAfterCollectorClosed (Some oneRecord).
Proof.
  unfold finalSnapshotAfterCollectorClosed. intros Hclaim.
  assert (Hrun : exists p,
             run overtakingSchedule (initial (Some oneRecord)) = Some p
             /\ mainPc p = MExport /\ collector p = Draining
             /\ List.length (resultsChan p) = 1%nat /\ resultsColl p = []).
  { eexists. split; [vm_compute; reflexivity|]. repeat split. }
  destruct Hrun as (p & Hr & Hm & Hc & _).
  assert (Hcl : collector p = Closed)
    by (apply Hclaim; [exists overtakingSchedule; exact Hr | exact Hm]).
  rewrite Hc in Hcl. discriminate Hcl.
Qed.

End FinalSnapshot.

(** ** The sample source and the header row *)

Section Header.

(** Every position in the column map is a position of the header. *)
Lemma headerMap_bound header name i :
  headerMap header !! name = Some i -> (i < List.length header)%nat.
Proof.
  unfold headerMap.
  assert (Hall : Forall (fun ic : nat * string => (fst ic < List.length header)%nat)
                        (combine (seq 0 (List.length header)) header)).
  { apply Forall_forall. intros [j c] Hin. apply list_elem_of_In in Hin.
    apply in_combine_l in Hin. apply in_seq in Hin. simpl. lia. }
  revert Hall. generalize (combine (seq 0 (List.length header)) header).
  generalize (List.length header). intros n l Hall.
  assert (H0 : forall k j, (∅ : gmap string nat) !! k = Some j -> (j < n)%nat)
    by (intros k j Hk; rewrite lookup_empty in Hk; discriminate Hk).
  revert H0. generalize (∅ : gmap string nat). revert name i.
  induction Hall as [|[j c] l Hj _ IH]; simpl; intros name i m Hm Hl.
  - eapply Hm; eauto.
  - eapply IH; [|exact Hl]. intros k j' Hk.
    destruct (decide (c = k)) as [->|Hne].
    + rewrite lookup_insert_eq in Hk. injection Hk as <-. exact Hj.
    + rewrite lookup_insert_ne in Hk by exact Hne. eapply Hm; eauto.
Qed.

(** A name that is not in the header is not in the column map. *)
Lemma headerMap_absent header name :
  ~ In name header -> headerMap header !! name = None.
Proof.
  unfold headerMap. intros Hnot.
  assert (Hall : Forall (fun ic : nat * string => snd ic <> name)
                        (combine (seq 0 (List.length header)) header)).
  { apply Forall_forall. intros [j c] Hin. apply list_elem_of_In in Hin.
    apply in_combine_r in Hin. simpl. intros ->. contradiction. }
  revert Hall. generalize (combine (seq 0 (List.length header)) header).
  intros l Hall.
  assert (H0 : (∅ : gmap string nat) !! name = None) by apply lookup_empty.
  revert H0. generalize (∅ : gmap string nat).
  induction Hall as [|[j c] l Hc _ IH]; simpl; intros m Hm; [exact Hm|].
  apply IH. simpl in Hc. rewrite lookup_insert_ne by exact Hc. exact Hm.
Qed.

(** An absent column name resolves to position [0]. *)
Lemma colIndex_absent header name :
  ~ In name header -> colIndex (headerMap header) name = 0%nat.
Proof. intros H. unfold colIndex. rewrite headerMap_absent by exact H. reflexivity. Qed.

Lemma colIndex_bound header name :
  header <> [] -> (colIndex (headerMap header) name < List.length header)%nat.
Proof.
  intros Hne. unfold colIndex.
  destruct (headerMap header !! name) as [i|] eqn:Hl; simpl.
  - eapply headerMap_bound; eauto.
  - destruct header; [contradiction | simpl; lia].
Qed.

(** A record as wide as a non-empty header always makes a sample. *)
Lemma sampleOfRecord_total header record :
  header <> [] -> List.length record = List.length header ->
  exists sample, sampleOfRecord (headerMap header) record = Some sample.
Proof.
  intros Hne Hlen. unfold sampleOfRecord.
  assert (Hget : forall name, exists v,
             record !! colIndex (headerMap header) name = Some v).
  { intros name. apply lookup_lt_is_Some_2. rewrite Hlen.
    apply colIndex_bound. exact Hne. }
  destruct (Hget "premise"%string) as [v1 ->].
  destruct (Hget "choice1"%string) as [v2 ->].
  destruct (Hget "choice2"%string) as [v3 ->].
  destruct (Hget "question"%string) as [v4 ->].
  destruct (Hget "label"%string) as [v5 ->].
  simpl. eauto.
Qed.

(** What [Read] returns without error: a record that is not empty, as wide
    as the reader expects when it expects a width, and a reader that from
    then on expects that width and has fewer lines left. *)
Lemma readFrom_ok ls fpr record reader :
  GoCsv.readFrom ls fpr = (record, None, reader) ->
  record <> []
  /\ GoCsv.FieldsPerRecord reader = List.length record
  /\ (fpr <> 0%nat -> List.length record = fpr)
  /\ (List.length (GoCsv.pending reader) < List.length ls)%nat.
Proof.
  revert record reader.
  induction ls as [|[fs|] rest IH]; simpl; intros record reader H;
    try discriminate H.
  destruct fs as [|f fs'].
  - destruct (IH _ _ H) as (H1 & H2 & H3 & H4). repeat split; auto; lia.
  - destruct (Nat.eqb_spec fpr 0) as [->|Hne].
    + injection H as <- <-. simpl. repeat split; try congruence; lia.
    + destruct (Nat.eqb_spec (List.length (f :: fs')) fpr) as [Heq|];
        [|discriminate H].
      injection H as <- <-. simpl in *. repeat split; try congruence; lia.
Qed.

(** The source loop never indexes a record out of range. *)
Lemma sourceLoop_total header bound reader :
  header <> [] ->
  GoCsv.FieldsPerRecord reader = List.length header ->
  exists samples, sourceLoop bound reader (headerMap header) = inr samples.
Proof.
  intros Hne. revert reader.
  induction bound as [|k IH]; simpl; intros reader Hfpr; [eauto|].
  unfold GoCsv.Read.
  destruct (GoCsv.readFrom (GoCsv.pending reader) (GoCsv.FieldsPerRecord reader))
    as [[record [e|]] reader'] eqn:Hread; [eauto|].
  destruct (readFrom_ok _ _ _ _ Hread) as (_ & Hf & Hw & _).
  assert (Hlen : List.length record = List.length header).
  { rewrite <- Hfpr. apply Hw. rewrite Hfpr.
    destruct header; [contradiction | discriminate]. }
  destruct (sampleOfRecord_total header record Hne Hlen) as [sample ->].
  destruct (IH reader') as [rest ->]; [congruence | eauto].
Qed.

Lemma headerOf_Some lines header :
  headerOf lines = Some header ->
  exists reader,
    GoCsv.Read (GoCsv.NewReader lines) = (header, None, reader)
    /\ header <> []
    /\ GoCsv.FieldsPerRecord reader = List.length header.
Proof.
  unfold headerOf.
  destruct (GoCsv.Read (GoCsv.NewReader lines)) as [[h [e|]] reader] eqn:Hread;
    intros H; [discriminate H|]. injection H as ->.
  exists reader. split; [reflexivity|].
  unfold GoCsv.Read in Hread.
  destruct (readFrom_ok _ _ _ _ Hread) as (H1 & H2 & _). auto.
Qed.

(** With a readable header the process never stops early: no fatal exit,
    no index out of range, no send on a closed queue. *)
Lemma readable_header_never_halts lines header p :
  headerOf lines = Some header ->
  reachable (Some lines) p ->
  file p = Some lines
  /\ halted p = None
  /\ sourceFollows header (source p)
  /\ (resultsClosed p = true -> mainPc p <> MWait)
  /\ (mainPc p <> MWait -> allExited (workers p) = true).
Proof.
  intros Hh. destruct (headerOf_Some _ _ Hh) as (rd & Hread & Hne & Hfpr).
  apply (reachable_invariant
    (fun p => file p = Some lines
              /\ halted p = None
              /\ sourceFollows header (source p)
              /\ (resultsClosed p = true -> mainPc p <> MWait)
              /\ (mainPc p <> MWait -> allExited (workers p) = true))).
  - cbn. repeat split; intros; congruence.
  - intros a q q' (Hf & Hhalt & Hs & Hc & Hw) Hstep.
    step_cases Hstep; cbn -[processSample allExited] in *.
    all: try match goal with
         | Hi : workers ?q0 !! _ = Some _,
           Hw0 : mainPc ?q0 <> MWait -> _ |- _ =>
           let Hm := fresh "Hm" in
           assert (Hm : mainPc q0 = MWait)
             by (eapply worker_alive; [exact Hw0 | exact Hi | discriminate])
         end.
    all: repeat match goal with |- _ /\ _ => split end; intros;
      try exact Logic.I; try assumption; try congruence;
      try (apply Hw; congruence); try (apply Hc; assumption);
      try (exfalso; match goal with H : _ = true |- _ => apply Hc in H end;
           congruence).
    all: try match goal with
         | H : GoCsv.FieldsPerRecord _ = _ /\ _ |- _ =>
           let H1 := fresh "Hwidth" in let H2 := fresh "Hmap" in
           destruct H as [H1 H2]
         end; try assumption.
    all: try match goal with
         | H : GoCsv.Read ?rd0 = (?l, None, ?r0), Hwd : GoCsv.FieldsPerRecord ?rd0 = _ |- _ =>
           unfold GoCsv.Read in H;
           let Hlen := fresh "Hlen" in
           destruct (readFrom_ok _ _ _ _ H) as (_ & ? & Hlen & _);
           rewrite Hwd in Hlen;
           assert (List.length l = List.length header)
             by (apply Hlen; destruct header; [contradiction | discriminate])
         end; try congruence.
    all: try match goal with
         | H : sampleOfRecord _ ?l = None, Hl : List.length ?l = _ |- _ =>
           exfalso;
           destruct (sampleOfRecord_total header l Hne Hl) as [? ?]; congruence
         end.
    all: try (exfalso; apply Hc; [reflexivity | assumption]).
    all: apply Hc; reflexivity.
Qed.

(** C2. A header row that lacks a required column name does not stop the
    run. Whenever the header row can be read, the source reads on to the end
    of the file and the process never stops early, whichever column names
    the header holds; a name that is absent resolves to position [0], the
    first column. *)
Theorem C2_missing_column_reads_first_column lines header :
  headerOf lines = Some header ->
  (exists samples, loadDataset (Some lines) = inr samples)
  /\ (forall p, reachable (Some lines) p -> halted p = None)
  /\ (forall name, ~ In name header -> colIndex (headerMap header) name = 0%nat).
Proof.
  intros Hh. destruct (headerOf_Some _ _ Hh) as (rd & Hread & Hne & Hfpr).
  split; [|split].
  - unfold loadDataset. rewrite Hread.
    apply sourceLoop_total; assumption.
  - intros p Hp.
    destruct (readable_header_never_halts lines header p Hh Hp) as (_ & H & _).
    exact H.
  - intros name. apply colIndex_absent.
Qed.

Lemma C2_no_label_column_runs :
  headerOf noLabelColumn = Some ["premise"; "choice1"; "choice2"; "question"]%string
  /\ (exists samples, loadDataset (Some noLabelColumn) = inr samples)
  /\ (forall p, reachable (Some noLabelColumn) p -> halted p = None)
  /\ (forall name,
        ~ In name ["premise"; "choice1"; "choice2"; "question"]%string ->
        colIndex (headerMap ["premise"; "choice1"; "choice2"; "question"]%string)
                 name = 0%nat).
Proof.
  split; [reflexivity|].
  apply (C2_missing_column_reads_first_column noLabelColumn). reflexivity.
Defined.

(** The claim as worded fails: the dataset without a [label] column is
    loaded, every label being read from the first column, and a worker
    processes its record. *)
Lemma C2_missing_label_does_not_abort :
  ~ (forall lines, lacksRequiredColumn lines -> failsFast lines).
Proof.
  intros Hclaim.
  assert (Hlacks : lacksRequiredColumn noLabelColumn).
  { exists ["premise"; "choice1"; "choice2"; "question"]%string, "label"%string.
    split; [reflexivity|]. split; [simpl; tauto|].
    simpl. intros [H|[H|[H|[H|[]]]]]; discriminate H. }
  destruct (Hclaim _ Hlacks) as [Hfatal _].
  vm_compute in Hfatal. discriminate Hfatal.
Qed.

(** What the run over that dataset does: the label of the sample is its
    premise, the run is not halted, and one record has been processed. *)
Lemma missing_label_run :
  loadDataset (Some noLabelColumn)
  = inr [ {| Premise := "dig a hole"; Choice1 := "plant the tree";
             Choice2 := "eat the soil"; Question := "effect";
             Label := "dig a hole" |} ]
  /\ exists p,
       run noLabelSchedule (initial (Some noLabelColumn)) = Some p
       /\ halted p = None
       /\ total (wStats (world p)) = 1
       /\ List.length (wRequests (world p)) = 1%nat.
Proof.
  split; [vm_compute; reflexivity|].
  eexists. split; [vm_compute; reflexivity|]. repeat split.
Qed.


End Header.

(** ** Accuracy of a progress snapshot *)

Section TickAccuracy.

(** C5. The accuracy of a timer snapshot is [correct / total * 100] in
    [float64], with no guard on [total]: a tick that comes before the first
    result, which any run allows, divides zero by zero and the snapshot
    holds a NaN, not [0]. *)
Theorem C5_tick_accuracy_is_nan_at_zero :
  (forall st,
     Accuracy (tickEntry st)
     = PrimFloat.mul
         (PrimFloat.div (float64_of_int (correct st)) (float64_of_int (total st)))
         100%float)
  /\ (forall file,
        exists p, run [CollectorTick] (initial file) = Some p
                  /\ logsColl p = [tickEntry zeroStats])
  /\ PrimFloat.is_nan (Accuracy (tickEntry zeroStats)) = true
  /\ PrimFloat.eqb (Accuracy (tickEntry zeroStats)) 0%float = false.
Proof.
  split; [reflexivity|]. split; [|split; vm_compute; reflexivity].
  intros file. eexists. split; reflexivity.
Qed.

(** With results in, the same expression is the percentage. *)
Lemma tick_accuracy_two_of_three :
  Accuracy (tickEntry {| total := 3; correct := 2; invalid := 0;
                         totalTime := 3%float |})
  = PrimFloat.mul (PrimFloat.div 2%float 3%float) 100%float.
Proof. vm_compute. reflexivity. Qed.

(** The final snapshot has the same division: over an empty dataset its
    accuracy is a NaN as well. *)
Lemma final_accuracy_is_nan_on_empty_dataset :
  exists p entry,
    run headerOnlySchedule (initial (Some headerOnly)) = Some p
    /\ mainPc p = MExport
    /\ logsColl p = [entry]
    /\ TotalQuestions entry = 0
    /\ PrimFloat.is_nan (Accuracy entry) = true.
Proof.
  eexists. eexists. split; [vm_compute; reflexivity|].
  split; [reflexivity|]. split; [reflexivity|]. split; reflexivity.
Qed.

End TickAccuracy.

(** ** The aggregator *)

Section Aggregator.

Lemma triple_eq (a a' b b' c c' : Z) :
  a = a' -> b = b' -> c = c' -> (a, b, c) = (a', b', c').
Proof. intros -> -> ->. reflexivity. Qed.

Lemma countResults_from docs :
  forall t c i,
    0 <= c <= t -> 0 <= i <= t ->
    t + Z.of_nat (List.length docs) < 2 ^ 63 ->
    fold_left
      (fun acc doc =>
         let '(total, correct, invalid) := acc in
         match doc with
         | None => acc
         | Some res =>
           (add64 total 1,
            if Results.IsCorrect res then add64 correct 1 else correct,
            if Results.IsInvalid res then add64 invalid 1 else invalid)
         end)
      docs (t, c, i)
    = (t + Z.of_nat (List.length (decoded docs)),
       c + Z.of_nat (count Results.IsCorrect (decoded docs)),
       i + Z.of_nat (count Results.IsInvalid (decoded docs))).
Proof.
  induction docs as [|[res|] rest IH]; intros t c i Hc Hi Hb.
  - simpl. apply triple_eq; lia.
  - cbn [fold_left].
    replace (decoded (Some res :: rest)) with (res :: decoded rest) by reflexivity.
    cbn [List.length count]. cbn [List.length] in Hb.
    unfold add64. rewrite !wrap64_small by lia.
    destruct (Results.IsCorrect res), (Results.IsInvalid res);
      rewrite ?wrap64_small by lia;
      rewrite IH by lia; cbv beta iota; apply triple_eq; lia.
  - cbn [fold_left].
    replace (decoded (None :: rest)) with (decoded rest) by reflexivity.
    cbn [List.length] in Hb. rewrite IH by lia. reflexivity.
Qed.




(** All results invalid: the guard reports [0]. *)
Lemma all_invalid_reports_zero :
  exists md,
    Results.calculateAccuracy (Some [scoredDoc false true; scoredDoc false true])
    = Some md
    /\ Results.ValidAccuracy md = 0%float.
Proof. eexists. split; vm_compute; reflexivity. Qed.

(** No result at all: nothing is reported. *)
Lemma no_results_no_report : Results.calculateAccuracy (Some []) = None.
Proof. reflexivity. Qed.

End Aggregator.

(** ** Concurrent updates of [Stats] *)

Section Atomicity.

(** The three integer counters do not depend on the interleaving: every
    step keeps, for each counter, its value plus what the goroutines still
    owe to it. *)
Lemma sumZ_app l1 l2 : sumZ (l1 ++ l2) = sumZ l1 + sumZ l2.
Proof. induction l1 as [|x t IH]; simpl; [reflexivity | rewrite IH; lia]. Qed.

Lemma owed_insert c gs i g g' :
  gs !! i = Some g ->
  owed c (<[i := g']> gs) = owed c gs - owedBy c g + owedBy c g'.
Proof.
  intros Hi. unfold owed.
  assert (Hlen : (i < List.length gs)%nat) by (eapply lookup_lt_Some; eauto).
  rewrite insert_take_drop by exact Hlen.
  rewrite <- (take_drop_middle gs i g Hi) at 3.
  rewrite !map_app, !sumZ_app. simpl. lia.
Qed.

Lemma addCounter_counter c c' delta st :
  counter c (addCounter c' delta st)
  = if sameCounter c c' then add32 (counter c st) delta else counter c st.
Proof. destruct c, c'; reflexivity. Qed.

Lemma stepAccess_counter c i st gs st' gs' :
  stepAccess i (st, gs) = Some (st', gs') ->
  wrap32 (counter c st' + owed c gs') = wrap32 (counter c st + owed c gs)
  /\ (- 2 ^ 31 <= counter c st < 2 ^ 31 ->
      - 2 ^ 31 <= counter c st' < 2 ^ 31).
Proof.
  unfold stepAccess.
  destruct (gs !! i) as [g|] eqn:Hi; [|discriminate].
  destruct (todo g) as [|op rest] eqn:Htodo; [discriminate|].
  destruct (execOp op st (tmp g)) as [st1 t] eqn:Hexec.
  intros H. injection H as <- <-.
  rewrite (owed_insert c gs i g _ Hi).
  unfold owedBy. rewrite Htodo. cbn [todo map sumZ fold_right].
  fold (sumZ (map (addsTo c) rest)).
  destruct op as [c' delta| |d]; cbn [execOp] in Hexec;
    injection Hexec as <- <-; cbn [addsTo].
  - rewrite addCounter_counter. destruct (sameCounter c c').
    + split.
      * unfold add32. rewrite wrap32_add_l. f_equal. lia.
      * intros _. apply wrap32_range.
    + split; [f_equal; lia | auto].
  - split; [f_equal; lia | auto].
  - split; [|destruct c; auto]. destruct c; cbn [counter total correct invalid];
      f_equal; lia.
Qed.

Lemma interleave_counter c sched :
  forall st gs st' gs',
    interleave sched (st, gs) = Some (st', gs') ->
    - 2 ^ 31 <= counter c st < 2 ^ 31 ->
    wrap32 (counter c st' + owed c gs') = wrap32 (counter c st + owed c gs)
    /\ - 2 ^ 31 <= counter c st' < 2 ^ 31.
Proof.
  induction sched as [|i rest IH]; intros st gs st' gs' H Hr.
  - injection H as <- <-. auto.
  - cbn [interleave] in H.
    destruct (stepAccess i (st, gs)) as [[st1 gs1]|] eqn:Hs; [|discriminate H].
    destruct (stepAccess_counter c _ _ _ _ _ Hs) as [H1 H2].
    destruct (IH _ _ _ _ H (H2 Hr)) as [H3 H4].
    split; [congruence | exact H4].
Qed.

Lemma finished_owed c gs : finished gs = true -> owed c gs = 0.
Proof.
  unfold owed. induction gs as [|g gs IH]; [reflexivity|].
  cbn [finished forallb]. intros H. apply andb_true_iff in H.
  destruct H as [Hg Hgs]. cbn [map sumZ fold_right].
  fold (sumZ (map (owedBy c) gs)). rewrite (IH Hgs).
  unfold owedBy. destruct (todo g); [reflexivity | discriminate Hg].
Qed.

(** However the accesses interleave, once every goroutine is done each
    integer counter holds the sum of what was added to it. *)
Lemma counters_any_interleaving c sched gs st' gs' :
  interleave sched (zeroStats, gs) = Some (st', gs') ->
  finished gs' = true ->
  counter c st' = wrap32 (owed c gs).
Proof.
  intros H Hfin.
  assert (H0 : - 2 ^ 31 <= counter c zeroStats < 2 ^ 31)
    by (destruct c; cbn; lia).
  destruct (interleave_counter c sched _ _ _ _ H H0) as [Heq Hr].
  rewrite (finished_owed c gs' Hfin), Z.add_0_r in Heq.
  rewrite wrap32_small in Heq by exact Hr.
  rewrite Heq. f_equal. destruct c; cbn; lia.
Qed.

Lemma owed_workersOf jobs :
  owed CTotal (workersOf jobs) = Z.of_nat (List.length jobs)
  /\ owed CCorrect (workersOf jobs)
     = Z.of_nat (count (fun j => fst (fst j)) jobs)
  /\ owed CInvalid (workersOf jobs)
     = Z.of_nat (count (fun j => snd (fst j)) jobs).
Proof.
  unfold owed, workersOf.
  induction jobs as [|[[c i] d] rest (IH1 & IH2 & IH3)]; [repeat split|].
  cbn [map sumZ fold_right List.length count fst snd].
  fold (sumZ (map (owedBy CTotal)
                  (map (fun j => goroutine (statsUpdate (fst (fst j)) (snd (fst j)) (snd j))) rest))).
  fold (sumZ (map (owedBy CCorrect)
                  (map (fun j => goroutine (statsUpdate (fst (fst j)) (snd (fst j)) (snd j))) rest))).
  fold (sumZ (map (owedBy CInvalid)
                  (map (fun j => goroutine (statsUpdate (fst (fst j)) (snd (fst j)) (snd j))) rest))).
  rewrite IH1, IH2, IH3.
  destruct c, i; cbn; repeat split; lia.
Qed.

(** In the middle of the updates the partition holds of the counters
    together with what is still owed to them: a snapshot taken between two
    accesses can be ahead on [correct] or [invalid] by the additions to
    [total] that are still to come. *)
Lemma mid_update_partition jobs sched st gs :
  Forall (fun j => fst (fst j) && snd (fst j) = false) jobs ->
  interleave sched (zeroStats, workersOf jobs) = Some (st, gs) ->
  wrap32 (total st + owed CTotal gs)
  = wrap32 ((correct st + owed CCorrect gs)
            + Z.of_nat (count (fun j => negb (fst (fst j)) && negb (snd (fst j)))
                              jobs)
            + (invalid st + owed CInvalid gs)).
Proof.
  intros Hex Hrun.
  assert (H0 : forall c, - 2 ^ 31 <= counter c zeroStats < 2 ^ 31)
    by (intros []; cbn; lia).
  destruct (interleave_counter CTotal sched _ _ _ _ Hrun (H0 _)) as [Ht _].
  destruct (interleave_counter CCorrect sched _ _ _ _ Hrun (H0 _)) as [Hc _].
  destruct (interleave_counter CInvalid sched _ _ _ _ Hrun (H0 _)) as [Hi _].
  destruct (owed_workersOf jobs) as (Ot & Oc & Oi).
  cbn [counter zeroStats total correct invalid] in Ht, Hc, Hi.
  rewrite Ot in Ht. rewrite Oc in Hc. rewrite Oi in Hi.
  rewrite Z.add_0_l in Ht, Hc, Hi.
  rewrite Ht.
  rewrite <- wrap32_add_ll, Hc, wrap32_add_ll.
  rewrite <- wrap32_add_r, Hi, wrap32_add_r.
  f_equal.
  clear - Hex. induction Hex as [|[[c i] d] rest Hj _ IH]; [reflexivity|].
  cbn [List.length count fst snd] in *.
  destruct c, i; cbn in *; try discriminate Hj; lia.
Qed.

(** C8. Of the accesses of [processSample] to the counters, those to
    [total], [correct] and [invalid] are atomic additions, and however the
    goroutines interleave each of the three ends as the sum of what was added
    to it. The update of the cumulative time is not atomic: it is a plain
    read followed by a plain write, and two workers that interleave lose one
    of the two durations, which running one after the other keeps. *)
Theorem C8_total_time_update_is_not_atomic :
  (forall c i d,
     filter (fun op => isAtomic op = false) (statsUpdate c i d)
     = [LoadTotalTime; StoreTotalTime d])
  /\ (forall c sched gs st gs',
        interleave sched (zeroStats, gs) = Some (st, gs') ->
        finished gs' = true ->
        counter c st = wrap32 (owed c gs))
  /\ (exists st gs,
        interleave oneAfterTheOther (zeroStats, twoWorkers) = Some (st, gs)
        /\ finished gs = true
        /\ total st = 2 /\ totalTime st = 2%float)
  /\ (exists st gs,
        interleave lostUpdateSchedule (zeroStats, twoWorkers) = Some (st, gs)
        /\ finished gs = true
        /\ total st = 2 /\ totalTime st = 1%float).
Proof.
  split; [|split; [|split]].
  - intros [] [] d; reflexivity.
  - intros c sched gs st gs'. apply counters_any_interleaving.
  - eexists _, _. split; [vm_compute; reflexivity|]. repeat split.
  - eexists _, _. split; [vm_compute; reflexivity|]. repeat split.
Qed.

End Atomicity.

(** ** The counters under the timer's eyes *)

Section Observation.



















(** C4. A call that fails is not retried, and its result carries the
    sentinel as its completion and is flagged invalid and not correct: the
    call sends one request and adds one to [total] and one to [invalid],
    nothing to [correct]. This holds of every failing call of every run,
    whatever the other calls do. Hence in a run whose every call fails
    every result is such, there are as many requests as results, and the
    total and the invalid count are the number of results, the correct
    count zero; and however the counter additions of such calls interleave,
    once they are made the total and the invalid count are the number of
    calls. *)
Theorem C4_failed_calls_are_invalid :
  (forall env sample w,
     fails env ->
     ModelCompletion (fst (processSample env sample w)) = InvalidAns
     /\ ModelAnswer (fst (processSample env sample w)) = InvalidAns
     /\ IsInvalid (fst (processSample env sample w)) = true
     /\ IsCorrect (fst (processSample env sample w)) = false
     /\ wRequests (snd (processSample env sample w))
        = (wRequests w ++ [requestFor (buildPrompt (rnd env) sample NShot)])%list
     /\ total (wStats (snd (processSample env sample w)))
        = add32 (total (wStats w)) 1
     /\ invalid (wStats (snd (processSample env sample w)))
        = add32 (invalid (wStats w)) 1
     /\ correct (wStats (snd (processSample env sample w)))
        = correct (wStats w))
  /\ (forall file sched q i env q',
        run sched (initial file) = Some q ->
        fails env ->
        step (WorkerProcess i env) q = Some q' ->
        exists r,
          workers q' !! i = Some (WSend r)
          /\ ModelCompletion r = InvalidAns
          /\ IsInvalid r = true /\ IsCorrect r = false
          /\ List.length (wRequests (world q'))
             = S (List.length (wRequests (world q)))
          /\ count IsInvalid (produced q') = S (count IsInvalid (produced q))
          /\ List.length (produced q') = S (List.length (produced q))
          /\ total (wStats (world q')) = add32 (total (wStats (world q))) 1
          /\ invalid (wStats (world q')) = add32 (invalid (wStats (world q))) 1
          /\ correct (wStats (world q')) = correct (wStats (world q)))
  /\ (forall file sched p,
        everyCallFails sched ->
        run sched (initial file) = Some p ->
        Forall (fun r => ModelCompletion r = InvalidAns
                         /\ IsInvalid r = true /\ IsCorrect r = false)
               (produced p)
        /\ List.length (wRequests (world p)) = List.length (produced p)
        /\ total (wStats (world p))
           = wrap32 (Z.of_nat (List.length (produced p)))
        /\ invalid (wStats (world p)) = total (wStats (world p))
        /\ correct (wStats (world p)) = 0)
  /\ (forall calls sched st gs,
        Forall (fun call => fails (fst call)) calls ->
        interleave sched (zeroStats, updatesOf calls) = Some (st, gs) ->
        finished gs = true ->
        total st = wrap32 (Z.of_nat (List.length calls))
        /\ invalid st = total st
        /\ correct st = 0).
Proof.
  assert (Hcall : forall env sample w,
     fails env ->
     ModelCompletion (fst (processSample env sample w)) = InvalidAns
     /\ ModelAnswer (fst (processSample env sample w)) = InvalidAns
     /\ IsInvalid (fst (processSample env sample w)) = true
     /\ IsCorrect (fst (processSample env sample w)) = false
     /\ wRequests (snd (processSample env sample w))
        = (wRequests w ++ [requestFor (buildPrompt (rnd env) sample NShot)])%list
     /\ total (wStats (snd (processSample env sample w)))
        = add32 (total (wStats w)) 1
     /\ invalid (wStats (snd (processSample env sample w)))
        = add32 (invalid (wStats w)) 1
     /\ correct (wStats (snd (processSample env sample w)))
        = correct (wStats w)).
  { intros env sample w Hf.
    destruct (responseOf_failed env sample Hf) as (Hc & Hi & Hco).
    rewrite processSample_eq. cbn [fst snd wRequests wStats].
    rewrite Hi, Hco. cbn [bump total invalid correct].
    repeat split; try assumption.
    unfold responseOf; cbn [ModelAnswer].
    unfold responseOf in Hc; cbn [ModelCompletion] in Hc. rewrite Hc.
    reflexivity. }
  split; [exact Hcall|]. split; [|split].
  - intros file sched q i env q' _ Hf Hs.
    pose proof Hs as Hs0.
    unfold step in Hs0. destruct (halted q); [discriminate Hs0|].
    cbn [stepWorker] in Hs0.
    destruct (workers q !! i) as [[|sample|r0|]|] eqn:Hw; try discriminate Hs0.
    rewrite processSample_eq in Hs0. injection Hs0 as Hq'.
    assert (Hworld : world q' = snd (processSample env sample (world q)))
      by (rewrite <- Hq', processSample_eq; reflexivity).
    assert (Hp : produced q' ≡ₚ responseOf env sample :: produced q).
    { destruct (step_produced _ _ _ Hs)
        as [[_ Hsame]|(i' & env' & sample' & Ha & Hw' & _ & Hp)].
      - exfalso. rewrite Hworld, processSample_eq in Hsame. cbn [snd] in Hsame.
        apply (f_equal wRequests) in Hsame. cbn [wRequests] in Hsame.
        apply (f_equal (@List.length Request)) in Hsame.
        rewrite length_app in Hsame. cbn [List.length] in Hsame. lia.
      - injection Ha as <- <-. rewrite Hw in Hw'. injection Hw' as <-. exact Hp. }
    destruct (Hcall env sample (world q) Hf)
      as (Hc & _ & Hi & Hco & Hrq & Ht & Hinv & Hcor).
    exists (responseOf env sample). rewrite Hworld.
    rewrite processSample_eq in Hc, Hi, Hco; cbn [fst] in Hc, Hi, Hco.
    split.
    { rewrite <- Hq'. cbn [workers setWorker]. apply list_lookup_insert_eq.
      eapply lookup_lt_Some; eauto. }
    split; [exact Hc|]. split; [exact Hi|]. split; [exact Hco|].
    split; [rewrite Hrq, length_app; cbn [List.length]; lia|].
    split; [rewrite (count_perm _ _ _ Hp); cbn [count]; rewrite Hi; reflexivity|].
    split; [rewrite (Permutation_length Hp); reflexivity|].
    auto.
  - intros file sched p. apply failing_run.
  - intros calls sched st gs Hall Hrun Hfin.
    pose proof (counters_any_interleaving CTotal _ _ _ _ Hrun Hfin) as Ht.
    pose proof (counters_any_interleaving CCorrect _ _ _ _ Hrun Hfin) as Hc.
    pose proof (counters_any_interleaving CInvalid _ _ _ _ Hrun Hfin) as Hi.
    cbn [counter] in Ht, Hc, Hi.
    destruct (owed_workersOf (map jobOf calls)) as (Ot & Oc & Oi).
    fold (updatesOf calls) in Ot, Oc, Oi.
    rewrite Ot in Ht. rewrite Oc in Hc. rewrite Oi in Hi.
    rewrite length_map in Ht.
    assert (Hflags : Forall (fun j => fst (fst j) = false /\ snd (fst j) = true)
                            (map jobOf calls)).
    { clear - Hall. induction Hall as [|[env sample] calls Hf _ IH];
        [constructor|]. cbn [map]. constructor; [|exact IH].
      destruct (responseOf_failed env sample Hf) as (_ & Hi & Hco).
      unfold jobOf, result; cbn [fst snd]. auto. }
    rewrite count_none in Hc
      by (eapply Forall_impl; [exact Hflags|]; simpl; intros j [H _]; exact H).
    rewrite count_all in Hi
      by (eapply Forall_impl; [exact Hflags|]; simpl; intros j [_ H]; exact H).
    rewrite length_map in Hi.
    split; [exact Ht|]. split; [congruence | exact Hc].
Qed.

Lemma C4_unreachable_endpoint :
  (exists p,
     run failingSchedule (initial (Some threeRecords)) = Some p
     /\ List.length (produced p) = 3%nat
     /\ Forall (fun r => ModelCompletion r = InvalidAns
                         /\ IsInvalid r = true /\ IsCorrect r = false)
               (produced p)
     /\ List.length (wRequests (world p)) = List.length (produced p)
     /\ total (wStats (world p)) = wrap32 (Z.of_nat (List.length (produced p)))
     /\ invalid (wStats (world p)) = total (wStats (world p))
     /\ correct (wStats (world p)) = 0)
  /\ (exists q q',
        run mixedSchedule (initial (Some threeRecords)) = Some q
        /\ step (WorkerProcess 0 unreachableEndpoint) q = Some q'
        /\ (total (wStats (world q)), invalid (wStats (world q))) = (1, 0)
        /\ (total (wStats (world q')), invalid (wStats (world q'))) = (2, 1)
        /\ exists r,
             workers q' !! 0%nat = Some (WSend r)
             /\ ModelCompletion r = InvalidAns
             /\ IsInvalid r = true /\ IsCorrect r = false
             /\ List.length (wRequests (world q'))
                = S (List.length (wRequests (world q)))
             /\ count IsInvalid (produced q') = S (count IsInvalid (produced q))
             /\ List.length (produced q') = S (List.length (produced q))
             /\ total (wStats (world q')) = add32 (total (wStats (world q))) 1
             /\ invalid (wStats (world q'))
                = add32 (invalid (wStats (world q))) 1
             /\ correct (wStats (world q')) = correct (wStats (world q))).
Proof.
  destruct C4_failed_calls_are_invalid as (_ & Hstep & Hrun & _).
  split.
  - eexists. split; [vm_compute; reflexivity|].
    split; [reflexivity|].
    apply (Hrun (Some threeRecords) failingSchedule).
    + unfold failingSchedule, everyCallFails.
      repeat constructor; intros rq; exists "connection refused"%string; reflexivity.
    + vm_compute. reflexivity.
  - eexists. eexists. split; [vm_compute; reflexivity|].
    split; [vm_compute; reflexivity|].
    split; [reflexivity|]. split; [reflexivity|].
    apply (Hstep (Some threeRecords) mixedSchedule _ 0%nat unreachableEndpoint).
    + vm_compute. reflexivity.
    + intros rq. exists "connection refused"%string. reflexivity.
    + vm_compute. reflexivity.
Defined.

End Observation.

(** ** Answer extraction *)

Section AnswerRegex.

Lemma answer_letter_is_word c :
  Ascii.eqb c "A" || Ascii.eqb c "B" = true -> IsWordChar c = true.
Proof.
  intros H. apply orb_true_iff in H.
  destruct H as [H|H]; apply Ascii.eqb_eq in H; subst; reflexivity.
Qed.

(** [answerRegex] matches at a position exactly when a standalone letter
    starts there, and then in one way only. *)
Lemma exec_answerRegex prev s :
  exec answerRegex {| before := prev; ahead := s |}
  = match answerHere prev s with
    | Some c =>
      [ {| matched := [c]; caps := [(1%nat, [c])];
           stop := {| before := Some c; ahead := tl s |} |} ]
    | None => []
    end.
Proof.
  unfold answerRegex, answerHere.
  destruct s as [|c rest]; cbn [exec before ahead head isWordAt].
  - destruct (xorb (isWordAt prev) false); reflexivity.
  - destruct (Ascii.eqb c "A" || Ascii.eqb c "B") eqn:Hab.
    + rewrite (answer_letter_is_word c Hab).
      destruct (isWordAt prev); cbn [xorb negb andb flat_map app map];
        [reflexivity|].
      apply orb_true_iff in Hab.
      destruct (Ascii.eqb c "A") eqn:HA.
      * apply Ascii.eqb_eq in HA. subst c.
        cbn. destruct (isWordAt (head rest)); reflexivity.
      * destruct Hab as [Hab|Hab]; [discriminate Hab|].
        apply Ascii.eqb_eq in Hab. subst c.
        cbn. destruct (isWordAt (head rest)); reflexivity.
    + apply orb_false_iff in Hab. destruct Hab as [HA HB].
      cbn [andb].
      destruct (xorb (isWordAt prev) (IsWordChar c));
        cbn -[Ascii.eqb]; rewrite ?HA, ?HB; reflexivity.
Qed.

(** The leftmost match of [answerRegex] is the letter that [scan] finds. *)
Lemma search_scan s :
  forall prev,
    match search answerRegex prev s, scan prev s with
    | Some t, Some c => matched t = [c] /\ caps t = [(1%nat, [c])]
    | None, None => True
    | _, _ => False
    end.
Proof.
  induction s as [|c rest IH]; intros prev.
  - cbn [search scan]. rewrite exec_answerRegex.
    destruct (answerHere prev []); [split; reflexivity | exact Logic.I].
  - cbn [search scan]. rewrite exec_answerRegex.
    destruct (answerHere prev (c :: rest)); [split; reflexivity | apply IH].
Qed.

Lemma FindStringSubmatch_answerRegex s :
  FindStringSubmatch answerRegex s
  = match scan None (list_ascii_of_string s) with
    | Some c => [String c EmptyString; String c EmptyString]
    | None => []
    end.
Proof.
  unfold FindStringSubmatch.
  pose proof (search_scan (list_ascii_of_string s) None) as H.
  destruct (search answerRegex None (list_ascii_of_string s)) as [t|],
           (scan None (list_ascii_of_string s)) as [c|]; try contradiction.
  - destruct H as [Hm Hc]. rewrite Hm, Hc. reflexivity.
  - reflexivity.
Qed.

Lemma prevAt_middle (pre : list ascii) t :
  prevAt (pre ++ t) (List.length pre) = last pre.
Proof.
  destruct pre as [|x pre'] using rev_ind; [reflexivity|].
  rewrite length_app, Nat.add_1_r. cbn [prevAt].
  rewrite last_snoc, <- app_assoc. apply list_lookup_middle. reflexivity.
Qed.

Lemma standaloneAt_middle (pre : list ascii) c rest :
  standaloneAt (pre ++ c :: rest) (List.length pre)
  = (Ascii.eqb c "A" || Ascii.eqb c "B")
    && negb (isWordAt (last pre)) && negb (isWordAt (head rest)).
Proof.
  unfold standaloneAt.
  rewrite list_lookup_middle by reflexivity.
  rewrite prevAt_middle.
  replace ((pre ++ c :: rest) !! S (List.length pre)) with (head rest);
    [reflexivity|].
  rewrite lookup_app_r by lia.
  replace (S (List.length pre) - List.length pre)%nat with 1%nat by lia.
  destruct rest; reflexivity.
Qed.

(** Scanning from the left finds the first position that holds a standalone
    letter. *)
Lemma scan_positions t :
  forall pre : list ascii,
    scan (last pre) t
    = match List.find (standaloneAt (pre ++ t))
                      (seq (List.length pre) (List.length t)) with
      | Some i => (pre ++ t) !! i
      | None => None
      end.
Proof.
  induction t as [|c rest IH]; intros pre; [reflexivity|].
  cbn [scan answerHere List.length seq List.find].
  rewrite standaloneAt_middle.
  destruct ((Ascii.eqb c "A" || Ascii.eqb c "B")
            && negb (isWordAt (last pre)) && negb (isWordAt (head rest))).
  - symmetry. apply list_lookup_middle. reflexivity.
  - specialize (IH (pre ++ [c])).
    rewrite last_snoc, <- app_assoc, length_app, Nat.add_1_r in IH.
    exact IH.
Qed.

Lemma scan_firstStandalone s : scan None s = firstStandalone s.
Proof. exact (scan_positions s []). Qed.

(** *** Bytes around the answer that are not word characters *)

Lemma scan_prev_irrelevant prev prev' s :
  isWordAt prev = isWordAt prev' -> scan prev s = scan prev' s.
Proof.
  intros H. destruct s as [|c rest]; cbn [scan answerHere]; [reflexivity|].
  rewrite H. reflexivity.
Qed.

Lemma nonword_not_letter c :
  nonword c -> Ascii.eqb c "A" || Ascii.eqb c "B" = false.
Proof.
  intros Hc. destruct (Ascii.eqb c "A" || Ascii.eqb c "B") eqn:H; [|reflexivity].
  apply answer_letter_is_word in H. unfold nonword in Hc. congruence.
Qed.

Lemma scan_skip_prefix p t :
  Forall nonword p ->
  forall prev, isWordAt prev = false -> scan prev (p ++ t) = scan None t.
Proof.
  induction 1 as [|c p' Hc _ IH]; intros prev Hprev.
  - apply scan_prev_irrelevant. exact Hprev.
  - cbn [app scan answerHere].
    rewrite (nonword_not_letter c Hc). cbn [andb].
    apply IH. exact Hc.
Qed.

Lemma scan_nonword q :
  Forall nonword q -> forall prev, scan prev q = None.
Proof.
  induction 1 as [|c q' Hc _ IH]; intros prev; [reflexivity|].
  cbn [scan answerHere]. rewrite (nonword_not_letter c Hc). cbn [andb].
  apply IH.
Qed.

Lemma scan_skip_suffix t q :
  Forall nonword q -> forall prev, scan prev (t ++ q) = scan prev t.
Proof.
  intros Hq. induction t as [|c rest IH]; intros prev.
  - cbn [app]. rewrite (scan_nonword q Hq). reflexivity.
  - cbn [app scan answerHere]. rewrite IH.
    replace (isWordAt (head (rest ++ q))) with (isWordAt (head rest));
      [reflexivity|].
    destruct rest as [|x rest']; [|reflexivity].
    destruct Hq as [|y q' Hy _]; [reflexivity|]. cbn. symmetry. exact Hy.
Qed.

End AnswerRegex.

(** ** [strings.TrimSpace] removes no word character *)

Ltac cases_on_tests :=
  repeat match goal with
         | H : context [N.leb ?a ?b] |- _ => destruct (N.leb_spec a b)
         | H : context [N.ltb ?a ?b] |- _ => destruct (N.ltb_spec a b)
         | H : context [N.eqb ?a ?b] |- _ => destruct (N.eqb_spec a b)
         | |- context [N.leb ?a ?b] => destruct (N.leb_spec a b)
         | |- context [N.ltb ?a ?b] => destruct (N.ltb_spec a b)
         | |- context [N.eqb ?a ?b] => destruct (N.eqb_spec a b)
         end.

Section TrimSpace.
Import GoUtf8 GoUnicode GoStrings.

(** Both lemmas by running through the 256 bytes. *)
Lemma high_byte_nonword c : (byteVal c <? 0x80)%N = false -> nonword c.
Proof.
  destruct c as [[] [] [] [] [] [] [] []]; intros H;
    solve [reflexivity | discriminate H].
Qed.

Lemma space_byte_nonword c :
  (byteVal c <? 0x80)%N = true -> IsSpace (byteVal c) = true -> nonword c.
Proof.
  destruct c as [[] [] [] [] [] [] [] []]; intros H1 H2;
    solve [reflexivity | discriminate H1 | discriminate H2].
Qed.

Lemma RuneError_not_space : IsSpace RuneError = false.
Proof. reflexivity. Qed.

Lemma first_ascii b : first b = LeadASCII -> (b < 0x80)%N.
Proof. unfold first. intros H. cases_on_tests; try discriminate; lia. Qed.

Lemma first_multi b sz lo hi :
  first b = LeadMulti sz lo hi ->
  (0x80 <= b)%N /\ (0x80 <= lo)%N /\ (sz = 2 \/ sz = 3 \/ sz = 4)%nat.
Proof.
  unfold first. intros H.
  cases_on_tests; try discriminate; injection H as <- <- <-;
    repeat split; try lia; auto.
Qed.

Lemma cont_byte_nonword c : isCont (byteVal c) = true -> nonword c.
Proof.
  unfold isCont. intros H. apply andb_true_iff in H. destruct H as [H _].
  apply high_byte_nonword. apply N.ltb_ge. apply N.leb_le. exact H.
Qed.

(** A white-space rune at the front of a string is made of bytes that are
    not word characters: an ASCII space, or the bytes of a multi-byte
    encoding. *)
Lemma decode_space s r size :
  DecodeRuneInString s = (r, size) ->
  IsSpace r = true ->
  (1 <= size <= List.length s)%nat /\ Forall nonword (firstn size s).
Proof.
  unfold DecodeRuneInString. destruct s as [|c0 t0].
  { intros H Hsp. injection H as <- <-. discriminate Hsp. }
  destruct (first (byteVal c0)) as [| |sz lo hi] eqn:Hf.
  - intros H Hsp. injection H as <- <-. split; [simpl; lia|].
    repeat constructor. apply space_byte_nonword; [|exact Hsp].
    apply N.ltb_lt. apply first_ascii. exact Hf.
  - intros H Hsp. injection H as <- <-. discriminate Hsp.
  - destruct (first_multi _ _ _ _ Hf) as (Hb & Hlo & _).
    assert (H0 : nonword c0)
      by (apply high_byte_nonword; apply N.ltb_ge; exact Hb).
    repeat match goal with
           | |- context [if ?b then _ else _] => destruct b eqn:?
           | |- context [match ?l with [] => _ | _ :: _ => _ end] => destruct l
           end;
      intros H Hsp; injection H as <- <-;
      try (rewrite RuneError_not_space in Hsp; discriminate Hsp).
    all: repeat match goal with
         | H : negb _ = false |- _ => apply negb_false_iff in H
         | H : orb _ _ = false |- _ => apply orb_false_iff in H; destruct H
         end.
    all: split; [simpl; lia|]; cbn [firstn]; repeat constructor;
      try exact H0; try (apply cont_byte_nonword; assumption);
      apply high_byte_nonword; apply N.ltb_ge;
      repeat match goal with
             | H : N.ltb _ _ = false |- _ => apply N.ltb_ge in H
             end; lia.
Qed.

(** The same for a white-space rune at the end, on the reversed string. *)
Lemma decode_last_space r rn size :
  DecodeLastRune r = (rn, size) ->
  IsSpace rn = true ->
  (1 <= size)%nat /\ Forall nonword (firstn size r).
Proof.
  unfold DecodeLastRune. destruct r as [|c before_rev].
  { intros H Hsp. injection H as <- <-. discriminate Hsp. }
  destruct (byteVal c <? RuneSelf)%N eqn:Hc.
  - intros H Hsp. injection H as <- <-. split; [lia|].
    repeat constructor. apply space_byte_nonword; assumption.
  - set (k := S (backToStart (UTFMax - 1) before_rev)).
    destruct (DecodeRuneInString (rev (firstn k (c :: before_rev))))
      as [rn' size'] eqn:Hd.
    destruct (Nat.eqb_spec size' (List.length (rev (firstn k (c :: before_rev)))))
      as [Hsz|Hsz]; intros H Hsp; injection H as <- <-;
      [|rewrite RuneError_not_space in Hsp; discriminate Hsp].
    destruct (decode_space _ _ _ Hd Hsp) as [Hle Hall].
    split; [lia|].
    rewrite Hsz, firstn_all in Hall. apply Forall_rev in Hall.
    rewrite rev_involutive in Hall.
    rewrite Hsz, length_rev, length_firstn.
    destruct (Nat.le_ge_cases k (List.length (c :: before_rev))) as [Hk|Hk].
    + rewrite Nat.min_l by exact Hk. exact Hall.
    + rewrite Nat.min_r by exact Hk.
      rewrite firstn_all. rewrite firstn_all2 in Hall by exact Hk. exact Hall.
Qed.

Lemma trimLeftLoop_prefix bound :
  forall s, exists p,
    s = p ++ trimLeftLoop IsSpace bound s /\ Forall nonword p.
Proof.
  induction bound as [|k IH]; intros s; cbn [trimLeftLoop].
  - exists []. split; [reflexivity | constructor].
  - destruct s as [|c t]; [exists []; split; [reflexivity | constructor]|].
    destruct (DecodeRuneInString (c :: t)) as [r size] eqn:Hd.
    destruct (IsSpace r) eqn:Hsp;
      [|exists []; split; [reflexivity | constructor]].
    destruct (decode_space _ _ _ Hd Hsp) as [_ Hall].
    destruct (IH (skipn size (c :: t))) as (p & Hp & Hnw).
    exists (firstn size (c :: t) ++ p). split.
    + rewrite <- app_assoc, <- Hp, firstn_skipn. reflexivity.
    + apply Forall_app. split; assumption.
Qed.

Lemma trimRightLoop_prefix bound :
  forall r, exists q,
    r = q ++ trimRightLoop IsSpace bound r /\ Forall nonword q.
Proof.
  induction bound as [|k IH]; intros r; cbn [trimRightLoop].
  - exists []. split; [reflexivity | constructor].
  - destruct r as [|c t]; [exists []; split; [reflexivity | constructor]|].
    destruct (DecodeLastRune (c :: t)) as [rn size] eqn:Hd.
    destruct (IsSpace rn) eqn:Hsp;
      [|exists []; split; [reflexivity | constructor]].
    destruct (decode_last_space _ _ _ Hd Hsp) as [_ Hall].
    destruct (IH (skipn size (c :: t))) as (q & Hq & Hnw).
    exists (firstn size (c :: t) ++ q). split.
    + rewrite <- app_assoc, <- Hq, firstn_skipn. reflexivity.
    + apply Forall_app. split; assumption.
Qed.

(** [TrimSpace] keeps a middle part of the string and drops, on both sides,
    only bytes that are not word characters. *)
Lemma TrimSpaceBytes_middle s :
  exists p q,
    s = p ++ TrimSpaceBytes s ++ q /\ Forall nonword p /\ Forall nonword q.
Proof.
  unfold TrimSpaceBytes, TrimRightFunc, TrimLeftFunc.
  destruct (trimLeftLoop_prefix (List.length s) s) as (p & Hp & Hnp).
  set (m := trimLeftLoop IsSpace (List.length s) s) in *.
  destruct (trimRightLoop_prefix (List.length m) (rev m)) as (q & Hq & Hnq).
  exists p, (rev q). split; [|split; [exact Hnp | apply Forall_rev; exact Hnq]].
  rewrite <- rev_app_distr, <- Hq, rev_involutive. exact Hp.
Qed.

Lemma scan_TrimSpaceBytes s : scan None (TrimSpaceBytes s) = scan None s.
Proof.
  destruct (TrimSpaceBytes_middle s) as (p & q & Hs & Hp & Hq).
  rewrite Hs at 2.
  rewrite (scan_skip_prefix p _ Hp None eq_refl).
  rewrite (scan_skip_suffix _ q Hq). reflexivity.
Qed.

End TrimSpace.

(** ** [cleanAnswer] *)

Section CleanAnswer.

(** What [cleanAnswer] returns, in terms of the text it is given. *)
Lemma cleanAnswer_firstStandalone completion :
  cleanAnswer completion
  = match firstStandalone (list_ascii_of_string completion) with
    | Some c => String c EmptyString
    | None => InvalidAns
    end.
Proof.
  unfold cleanAnswer. rewrite FindStringSubmatch_answerRegex.
  unfold GoStrings.TrimSpace. rewrite list_ascii_of_string_of_list_ascii.
  rewrite scan_TrimSpaceBytes, scan_firstStandalone.
  destruct (firstStandalone (list_ascii_of_string completion)); reflexivity.
Qed.

Lemma find_seq_first (f : nat -> bool) len :
  forall start k,
    List.find f (seq start len) = Some k ->
    f k = true
    /\ (start <= k < start + len)%nat
    /\ forall j, (start <= j < k)%nat -> f j = false.
Proof.
  induction len as [|n IH]; intros start k; simpl; [discriminate|].
  destruct (f start) eqn:Hs.
  - intros H. injection H as <-. repeat split; [exact Hs | lia | lia |].
    intros j Hj. lia.
  - intros H. destruct (IH _ _ H) as (Hk & Hr & Hb).
    repeat split; [exact Hk | lia | lia |].
    intros j Hj. destruct (Nat.eq_dec j start) as [->|Hne]; [exact Hs|].
    apply Hb. lia.
Qed.

(** C3. [cleanAnswer] returns the first standalone [A] or [B] of the
    completion, wherever in the text it stands, and the sentinel when the
    text holds none: if position [i] holds a standalone letter and no
    position before it does, the answer is the letter at [i]; if no position
    does, the answer is the sentinel. The answer is always one of [A], [B]
    and the sentinel. *)
Theorem C3_first_standalone_letter_or_invalid completion :
  let s := list_ascii_of_string completion in
  (forall i c,
     s !! i = Some c ->
     standaloneAt s i = true ->
     (forall j, (j < i)%nat -> standaloneAt s j = false) ->
     cleanAnswer completion = String c EmptyString)
  /\ ((forall i, standaloneAt s i = false) ->
      cleanAnswer completion = InvalidAns)
  /\ (cleanAnswer completion = "A"%string
      \/ cleanAnswer completion = "B"%string
      \/ cleanAnswer completion = InvalidAns).
Proof.
  intros s. rewrite cleanAnswer_firstStandalone. fold s.
  unfold firstStandalone.
  destruct (List.find (standaloneAt s) (seq 0 (List.length s))) as [k|] eqn:Hfind.
  - destruct (find_seq_first _ _ _ _ Hfind) as (Hk & Hrange & Hmin0).
    assert (Hmin : forall j, (j < k)%nat -> standaloneAt s j = false)
      by (intros j Hj; apply Hmin0; lia).
    destruct (s !! k) as [ck|] eqn:Hck;
      [|unfold standaloneAt in Hk; rewrite Hck in Hk; discriminate Hk].
    split; [|split].
    + intros i c Hi Hst Hnone.
      assert (i = k) as ->.
      { destruct (Nat.lt_trichotomy i k) as [Hlt|[Heq|Hgt]]; [|exact Heq|].
        - rewrite (Hmin i Hlt) in Hst. discriminate Hst.
        - rewrite (Hnone k Hgt) in Hk. discriminate Hk. }
      congruence.
    + intros Hnone. rewrite (Hnone k) in Hk. discriminate Hk.
    + unfold standaloneAt in Hk. rewrite Hck in Hk.
      apply andb_true_iff in Hk. destruct Hk as [Hk _].
      apply andb_true_iff in Hk. destruct Hk as [Hk _].
      apply orb_true_iff in Hk.
      destruct Hk as [Hk|Hk]; apply Ascii.eqb_eq in Hk; subst ck; auto.
  - split; [|split; [reflexivity | auto]].
    intros i c Hi Hst _. exfalso.
    assert (Hin : In i (seq 0 (List.length s))).
    { apply in_seq. split; [lia|]. simpl. eapply lookup_lt_Some. exact Hi. }
    pose proof (find_none _ _ Hfind i Hin) as Hf. congruence.
Qed.

Lemma cleanAnswer_examples :
  cleanAnswer "  The answer is B." = "B"%string
  /\ cleanAnswer "A" = "A"%string
  /\ cleanAnswer "B or A" = "B"%string
  /\ cleanAnswer "(A)" = "A"%string
  /\ cleanAnswer "AB" = InvalidAns
  /\ cleanAnswer "A_1" = InvalidAns
  /\ cleanAnswer "a" = InvalidAns
  /\ cleanAnswer "Answer: option 2" = InvalidAns
  /\ cleanAnswer "" = InvalidAns.
Proof. vm_compute. repeat split. Qed.

End CleanAnswer.

(** ** Two runs over the same dataset *)

Section Reproducibility.

(** The bound of the source loop does not matter once it exceeds the number
    of lines left. *)
Lemma sourceLoop_bound colMap b1 :
  forall b2 reader,
    (List.length (GoCsv.pending reader) < b1)%nat ->
    (List.length (GoCsv.pending reader) < b2)%nat ->
    sourceLoop b1 reader colMap = sourceLoop b2 reader colMap.
Proof.
  induction b1 as [|k1 IH]; intros b2 reader H1 H2; [lia|].
  destruct b2 as [|k2]; [lia|]. cbn [sourceLoop].
  unfold GoCsv.Read.
  destruct (GoCsv.readFrom (GoCsv.pending reader) (GoCsv.FieldsPerRecord reader))
    as [[record [e|]] reader'] eqn:Hread; [reflexivity|].
  destruct (sampleOfRecord colMap record); [|reflexivity].
  destruct (readFrom_ok _ _ _ _ Hread) as (_ & _ & _ & Hlt).
  rewrite (IH k2 reader') by lia. reflexivity.
Qed.

Lemma sourceLoop_stop colMap k reader record e reader' :
  GoCsv.Read reader = (record, Some e, reader') ->
  sourceLoop (S k) reader colMap = inr [].
Proof. intros H. cbn [sourceLoop]. rewrite H. reflexivity. Qed.

Lemma sourceLoop_next colMap k reader record reader' sample :
  GoCsv.Read reader = (record, None, reader') ->
  sampleOfRecord colMap record = Some sample ->
  sourceLoop (S k) reader colMap
  = match sourceLoop k reader' colMap with
    | inl h => inl h
    | inr rest => inr (sample :: rest)
    end.
Proof. intros H1 H2. cbn [sourceLoop]. rewrite H1, H2. reflexivity. Qed.

(** Under an order-blind collaborator the flags of a result are the verdict
    on its sample, whatever the generator did. *)
Lemma flags_verdict c env sample :
  orderBlind c -> consults c env ->
  flags (responseOf env sample) = verdict c sample.
Proof.
  intros Hblind [Hpost Hjson].
  unfold flags, verdict, responseOf, completionOf; cbn [IsCorrect IsInvalid].
  rewrite Hpost, Hjson.
  change (match post c (requestFor (buildPrompt (rnd env) sample NShot)) with
          | ApiOk body => decode c body
          | ApiErr _ => InvalidAns
          end) with (reply c (buildPrompt (rnd env) sample NShot)).
  rewrite (Hblind (rnd env) (fun i => i) sample). reflexivity.
Qed.

(** Every step keeps the ledger: a sample moves, or is replaced by its
    verdict. *)
Lemma step_ledger c lines header a p p' :
  orderBlind c ->
  headerOf lines = Some header ->
  file p = Some lines ->
  sourceFollows header (source p) ->
  match a with WorkerProcess _ env => consults c env | _ => True end ->
  step a p = Some p' ->
  halted p' = None ->
  ledger c p' ≡ₚ ledger c p.
Proof.
  intros Hblind Hh Hfile Hsrc Ha Hstep Hrun.
  destruct (headerOf_Some _ _ Hh) as (rd & Hread & Hne & Hfpr).
  step_cases Hstep; unfold ledger, produced, pending;
    cbn -[processSample sourceLoop] in *; try discriminate Hrun.
  all: try reflexivity.
  all: repeat match goal with
       | E : source _ = _ |- _ => rewrite E
       | E : samplesChan _ = _ |- _ => rewrite E
       | E : resultsChan _ = _ |- _ => rewrite E
       | E : file _ = _ |- _ => rewrite E
       end; cbn [unsent].
  all: try match goal with
       | Hw : workers _ !! _ = Some ?pc |- context [<[_ := ?pc']> _] =>
         let o1 := fresh "o" in let o2 := fresh "o" in
         let H1 := fresh "H" in let H2 := fresh "H" in
         let H3 := fresh "H" in let H4 := fresh "H" in
         destruct (omap_insert_perm sending _ _ _ pc' Hw) as (o1 & H1 & H2);
         destruct (omap_insert_perm busy _ _ _ pc' Hw) as (o2 & H3 & H4);
         rewrite H1, H2, H3, H4; cbn [sending busy option_list app]
       end.
  all: try match goal with
       | Hp : processSample ?env ?sample _ = _ |- _ =>
         rewrite processSample_eq in Hp; injection Hp as <- <-;
         pose proof (flags_verdict c env sample Hblind Ha) as Hverdict
       end.
  all: unfold option_list; cbn [option_rect sending busy app];
    repeat (progress (rewrite ?map_app; cbn [map app])).
  all: try rewrite Hverdict.
  all: try solve_Permutation.
  - (* the source opens the file and reads the header *)
    match goal with
    | Hl : Some _ = Some lines, Hr : GoCsv.readFrom _ 0 = (_, None, _) |- _ =>
      injection Hl as ->; rewrite Hread in Hr; injection Hr as <- <-
    end.
    unfold dataset, loadDataset, GoCsv.Read. cbn [GoCsv.NewReader GoCsv.pending GoCsv.FieldsPerRecord].
    rewrite Hread. cbn [samplesOf].
    destruct (readFrom_ok _ _ _ _ Hread) as (_ & _ & _ & Hlt).
    cbn [GoCsv.pending] in Hlt.
    rewrite (sourceLoop_bound (headerMap header) (S (List.length lines))
               (S (List.length (GoCsv.pending rd))) rd) by lia.
    reflexivity.
  - (* the source reaches the end of the file, or a line it cannot read *)
    match goal with
    | Hr : GoCsv.Read _ = _ |- _ => rewrite (sourceLoop_stop _ _ _ _ _ _ Hr)
    end.
    reflexivity.
  - (* the source reads a record *)
    match goal with
    | Hr : GoCsv.Read ?rd0 = (?rec, None, ?rd1),
      Hs : sampleOfRecord _ _ = Some _ |- _ =>
      rewrite (sourceLoop_next _ _ _ _ _ _ Hr Hs); unfold GoCsv.Read in Hr;
      destruct (readFrom_ok _ _ _ _ Hr) as (_ & Hw1 & Hw2 & Hlt);
      destruct Hsrc as [Hwidth Hmap]; subst;
      assert (Hwd : GoCsv.FieldsPerRecord rd1 = List.length header)
        by (rewrite Hw1, <- Hwidth; apply Hw2; rewrite Hwidth;
            destruct header; [contradiction | discriminate]);
      destruct (sourceLoop_total header (List.length (GoCsv.pending rd0)) rd1
                  Hne Hwd) as [rest Hrest];
      rewrite Hrest;
      rewrite (sourceLoop_bound (headerMap header)
                 (S (List.length (GoCsv.pending rd1)))
                 (List.length (GoCsv.pending rd0)) rd1) by lia;
      rewrite Hrest
    end.
    reflexivity.
Qed.

Lemma run_snoc sched a p :
  run (sched ++ [a]) p
  = match run sched p with
    | Some q => step a q
    | None => None
    end.
Proof.
  revert p. induction sched as [|b rest IH]; intros p; simpl.
  - destruct (step a p); reflexivity.
  - destruct (step b p); [apply IH | reflexivity].
Qed.

Lemma reachable_step file a p p' :
  reachable file p -> step a p = Some p' -> reachable file p'.
Proof.
  intros [sched Hr] Hs. exists (sched ++ [a]).
  rewrite run_snoc, Hr. exact Hs.
Qed.

(** How the run shuts down: the intake queue is closed by the source only,
    at its end; a worker exits only when that queue is closed and empty, and
    nothing enters it afterwards. The source gets past the header only when
    there is one. *)
Lemma shutdown_invariant file p :
  reachable file p ->
  List.length (workers p) = WorkerCount
  /\ TreeGo.file p = file
  /\ (samplesClosed p = true -> source p = SrcClosed)
  /\ (forall i, workers p !! i = Some WExit ->
                samplesClosed p = true /\ samplesChan p = [])
  /\ (source p <> SrcOpen ->
      exists lines header, file = Some lines /\ headerOf lines = Some header).
Proof.
  apply (reachable_invariant
    (fun p =>
       List.length (workers p) = WorkerCount
       /\ TreeGo.file p = file
       /\ (samplesClosed p = true -> source p = SrcClosed)
       /\ (forall i, workers p !! i = Some WExit ->
                     samplesClosed p = true /\ samplesChan p = [])
       /\ (source p <> SrcOpen ->
           exists lines header,
             file = Some lines /\ headerOf lines = Some header))).
  - unfold initial;
      cbn [workers TreeGo.file samplesClosed source samplesChan].
    split; [apply length_replicate|]. split; [reflexivity|].
    split; [discriminate|]. split; [|congruence].
    intros i H. apply lookup_replicate in H. destruct H as [H _]. discriminate H.
  - intros a q q' (Hlen & Hfile & Hclosed & Hexit & Hhdr) Hs.
    step_cases Hs; cbn -[processSample] in *.
    all: rewrite ?length_insert.
    all: repeat match goal with |- _ /\ _ => split end; intros;
      try assumption; try congruence; try discriminate;
      try (apply Hclosed; assumption);
      try (eapply Hexit; eassumption);
      try (apply Hhdr; congruence).
    all: try match goal with
         | H : <[_ := _]> _ !! _ = Some WExit |- _ =>
           apply list_lookup_insert_Some in H;
           destruct H as [(_ & Hx & _)|(_ & H)]; [try discriminate Hx|]
         end.
    all: try match goal with
         | H : workers _ !! _ = Some WExit |- _ =>
           destruct (Hexit _ H) as [Hcl Hch]; pose proof (Hclosed Hcl)
         end.
    all: try match goal with
         | H : samplesClosed _ = true |- _ => pose proof (Hclosed H)
         end.
    all: try congruence; try discriminate.
    all: try (split; congruence).
    + exists l, l0. split; [reflexivity|].
      unfold headerOf, GoCsv.Read.
      cbn [GoCsv.NewReader GoCsv.pending GoCsv.FieldsPerRecord].
      rewrite E3. reflexivity.
    + apply Hclosed. reflexivity.
Qed.

Lemma allExited_busy_replicate n : omap busy (replicate n WRecv) = [].
Proof. induction n as [|n IH]; [reflexivity | exact IH]. Qed.

Lemma allExited_busy ws : allExited ws = true -> omap busy ws = [].
Proof.
  induction ws as [|pc ws IH]; [reflexivity|]. cbn [allExited forallb].
  intros H. apply andb_true_iff in H. destruct H as [Hpc Hws].
  destruct pc; try discriminate Hpc. cbn. apply IH. exact Hws.
Qed.

(** When [main] is past [wg.Wait], no sample is pending. *)
Lemma nothing_pending_after_wait file p :
  reachable file p -> mainPc p <> MWait ->
  pending p = []
  /\ exists lines header, file = Some lines /\ headerOf lines = Some header.
Proof.
  intros Hr Hm.
  destruct (main_invariant file p Hr) as (Hall & _).
  destruct (shutdown_invariant file p Hr) as (Hlen & Hfile & Hclosed & Hexit & Hhdr).
  specialize (Hall Hm).
  assert (H0 : exists pc, workers p !! 0%nat = Some pc).
  { apply lookup_lt_is_Some_2. rewrite Hlen. unfold WorkerCount. lia. }
  destruct H0 as [pc Hpc].
  assert (pc = WExit) as -> by (eapply allExited_lookup; eauto).
  destruct (Hexit _ Hpc) as [Hcl Hch].
  pose proof (Hclosed Hcl) as Hsrc.
  split; [|apply Hhdr; congruence].
  unfold pending. rewrite Hsrc, Hch, (allExited_busy _ Hall). reflexivity.
Qed.

Lemma count_map {A B} (f : A -> B) (g : B -> bool) l :
  count g (map f l) = count (fun x => g (f x)) l.
Proof. induction l as [|x t IH]; simpl; [reflexivity | rewrite IH; reflexivity]. Qed.

(** What a run counts when it has reached its final snapshot, under an
    order-blind collaborator: the records of the dataset, those whose verdict
    is correct, and those whose verdict is invalid. *)
Lemma completed_counts c file sched p :
  orderBlind c ->
  everyCallConsults c sched ->
  run sched (initial file) = Some p ->
  mainPc p = MExport ->
  counts p
  = (wrap32 (Z.of_nat (List.length (dataset file))),
     wrap32 (Z.of_nat (count fst (map (verdict c) (dataset file)))),
     wrap32 (Z.of_nat (count snd (map (verdict c) (dataset file))))).
Proof.
  intros Hblind Hcalls Hrun Hm.
  assert (Hreach : reachable file p) by (exists sched; exact Hrun).
  destruct (nothing_pending_after_wait file p Hreach) as (Hpend & lines & header & -> & Hh);
    [congruence|].
  assert (Hledger : reachable (Some lines) p
                    /\ ledger c p ≡ₚ ledger c (initial (Some lines))).
  { apply (run_invariant_on
             (fun a => match a with
                       | WorkerProcess _ env => consults c env
                       | _ => True
                       end)
             (fun q => reachable (Some lines) q
                       /\ ledger c q ≡ₚ ledger c (initial (Some lines))))
      with sched (initial (Some lines)).
    - intros a q q' Ha [Hq Hl] Hs.
      assert (Hq' : reachable (Some lines) q') by (eapply reachable_step; eauto).
      split; [exact Hq'|]. rewrite <- Hl.
      destruct (readable_header_never_halts lines header q Hh Hq)
        as (Hf & _ & Hsrc & _).
      destruct (readable_header_never_halts lines header q' Hh Hq')
        as (_ & Hhalt & _).
      eapply step_ledger; eauto.
    - exact Hcalls.
    - split; [exists []; reflexivity | reflexivity].
    - exact Hrun. }
  destruct Hledger as [_ Hledger].
  unfold ledger in Hledger. rewrite Hpend, produced_initial in Hledger.
  cbn [map app] in Hledger. rewrite app_nil_r in Hledger.
  assert (Hinit : pending (initial (Some lines)) = dataset (Some lines)).
  { unfold pending, initial; cbn [TreeGo.file source samplesChan workers unsent].
    rewrite allExited_busy_replicate. rewrite app_nil_r. reflexivity. }
  rewrite Hinit in Hledger.
  destruct (counters_invariant _ p Hreach) as [_ (Ht & Hc & Hi)].
  pose proof (Permutation_length Hledger) as Hlen.
  rewrite !length_map in Hlen.
  pose proof (count_perm fst _ _ Hledger) as Hfst.
  pose proof (count_perm snd _ _ Hledger) as Hsnd.
  rewrite count_map in Hfst, Hsnd.
  unfold counts. rewrite Ht, Hc, Hi, Hlen, <- Hfst, <- Hsnd.
  reflexivity.
Qed.


(** C9. Over one dataset and with one collaborator whose reply does not
    depend on the order of the exemplars in the prompt, two runs that reach
    their final snapshot have the same total, correct and invalid counts,
    however the exemplars were shuffled and however the goroutines were
    scheduled. *)
Theorem C9_same_counts_when_order_blind c file sched1 sched2 p1 p2 :
  orderBlind c ->
  everyCallConsults c sched1 -> everyCallConsults c sched2 ->
  run sched1 (initial file) = Some p1 ->
  run sched2 (initial file) = Some p2 ->
  mainPc p1 = MExport -> mainPc p2 = MExport ->
  counts p1 = counts p2.
Proof.
  intros Hblind H1 H2 Hr1 Hr2 Hm1 Hm2.
  rewrite (completed_counts c file sched1 p1 Hblind H1 Hr1 Hm1).
  rewrite (completed_counts c file sched2 p2 Hblind H2 Hr2 Hm2).
  reflexivity.
Qed.

Lemma alwaysA_orderBlind : orderBlind alwaysA.
Proof. intros rnd1 rnd2 sample. reflexivity. Qed.

Lemma C9_two_runs_three_records :
  exists p1 p2,
    run threeRecordsSchedule (initial (Some threeRecords)) = Some p1
    /\ run threeWorkersSchedule (initial (Some threeRecords)) = Some p2
    /\ counts p1 = (3, 2, 0)
    /\ counts p1 = counts p2.
Proof.
  eexists. eexists.
  split; [vm_compute; reflexivity|].
  split; [vm_compute; reflexivity|].
  split; [reflexivity|].
  apply (C9_same_counts_when_order_blind alwaysA (Some threeRecords)
           threeRecordsSchedule threeWorkersSchedule).
  - exact alwaysA_orderBlind.
  - unfold threeRecordsSchedule, everyCallConsults. cbn [map seq app WorkerCount].
    repeat constructor.
  - unfold threeWorkersSchedule, everyCallConsults. cbn [map seq app WorkerCount].
    repeat constructor.
  - vm_compute. reflexivity.
  - vm_compute. reflexivity.
  - reflexivity.
  - reflexivity.
Defined.

(** The claim as worded fails: the collaborator that answers by the first
    exemplar of the prompt is deterministic, and two runs over the same
    record, with generators that shuffle the exemplars differently, count one
    correct answer and none. *)
Lemma C9_shuffle_changes_counts : ~ countsReproducible.
Proof.
  intros Hclaim.
  assert (H1 : exists p1,
             run (completeRun (withGenerator (fun i => i)))
                 (initial (Some oneRecord)) = Some p1
             /\ mainPc p1 = MExport /\ counts p1 = (1, 1, 0)).
  { eexists. split; [vm_compute; reflexivity|]. split; reflexivity. }
  assert (H2 : exists p2,
             run (completeRun (withGenerator (fun _ => 0%nat)))
                 (initial (Some oneRecord)) = Some p2
             /\ mainPc p2 = MExport /\ counts p2 = (1, 0, 0)).
  { eexists. split; [vm_compute; reflexivity|]. split; reflexivity. }
  destruct H1 as (p1 & Hr1 & Hm1 & Hc1). destruct H2 as (p2 & Hr2 & Hm2 & Hc2).
  assert (Hsame : counts p1 = counts p2).
  { apply (Hclaim readsFirstExemplar (Some oneRecord)
             (completeRun (withGenerator (fun i => i)))
             (completeRun (withGenerator (fun _ => 0%nat)))); auto.
    - unfold completeRun, everyCallConsults. cbn [map seq app WorkerCount].
      repeat constructor.
    - unfold completeRun, everyCallConsults. cbn [map seq app WorkerCount].
      repeat constructor. }
  rewrite Hc1, Hc2 in Hsame. discriminate Hsame.
Qed.

End Reproducibility.

(** * Further properties of the code *)

(** ** The shuffled exemplars *)

Section Exemplars.

Lemma swap_length {A} (xs : list A) i j :
  List.length (GoRand.swap xs i j) = List.length xs.
Proof.
  unfold GoRand.swap. destruct (xs !! i), (xs !! j); try reflexivity.
  rewrite !length_insert. reflexivity.
Qed.

(** Exchanging two elements permutes the list. *)
Lemma swap_perm {A} (xs : list A) i j : GoRand.swap xs i j ≡ₚ xs.
Proof.
  unfold GoRand.swap.
  destruct (xs !! i) as [x|] eqn:Hi; [|reflexivity].
  destruct (xs !! j) as [y|] eqn:Hj; [|reflexivity].
  pose proof (lookup_lt_Some _ _ _ Hi) as Hli.
  pose proof (lookup_lt_Some _ _ _ Hj) as Hlj.
  apply Permutation_inj. split; [rewrite !length_insert; reflexivity|].
  exists (fun k => if decide (k = i) then j else if decide (k = j) then i else k).
  split.
  - intros a b. repeat case_decide; intros; subst; congruence.
  - intros k. repeat case_decide; subst.
    + rewrite list_lookup_insert_eq by (rewrite length_insert; exact Hli).
      symmetry. exact Hj.
    + destruct (decide (i = j)) as [->|Hne]; [contradiction|].
      rewrite list_lookup_insert_ne by exact Hne.
      rewrite list_lookup_insert_eq by exact Hlj. symmetry. exact Hi.
    + rewrite !list_lookup_insert_ne by congruence. reflexivity.
Qed.

Lemma shuffleFrom_perm {A} rnd i :
  forall xs : list A, GoRand.shuffleFrom rnd i xs ≡ₚ xs.
Proof.
  induction i as [|i IH]; intros xs; [reflexivity|].
  cbn [GoRand.shuffleFrom]. rewrite IH. apply swap_perm.
Qed.

Lemma Shuffle_perm {A} rnd (xs : list A) : GoRand.Shuffle rnd xs ≡ₚ xs.
Proof. apply shuffleFrom_perm. Qed.

(** X1. Whatever the random generator draws, the demonstration text of a
    prompt is made of the four exemplars, each written exactly once, in some
    order: shuffling never drops, repeats or alters an exemplar. *)
Theorem X1_demo_text_holds_each_exemplar_once rnd :
  exists order,
    order ≡ₚ demoExamples
    /\ createDemoText rnd NShot = demoTextOf order.
Proof.
  exists (GoRand.Shuffle rnd demoExamples).
  split; [apply Shuffle_perm|].
  unfold createDemoText, demoTextOf.
  rewrite firstn_all2; [reflexivity|].
  rewrite (Permutation_length (Shuffle_perm rnd demoExamples)).
  unfold NShot. simpl. lia.
Qed.

(** X2. Asking for more exemplars than there are gives all four, the same
    text as for [NShot]; asking for none gives the empty text; asking for
    [n] of them gives the first [n] of the shuffled order. *)
Theorem X2_demo_text_shot_count rnd n :
  (4 <= n)%nat ->
  createDemoText rnd n = createDemoText rnd NShot
  /\ createDemoText rnd 0 = EmptyString
  /\ forall k, createDemoText rnd k
               = demoTextOf (firstn k (GoRand.Shuffle rnd demoExamples)).
Proof.
  intros Hn.
  assert (Hlen : List.length (GoRand.Shuffle rnd demoExamples) = 4%nat)
    by (rewrite (Permutation_length (Shuffle_perm rnd demoExamples)); reflexivity).
  split; [|split; [reflexivity | reflexivity]].
  unfold createDemoText, NShot.
  rewrite !firstn_all2 by lia. reflexivity.
Qed.

Lemma X2_seven_shots :
  createDemoText (fun i => i) 7 = createDemoText (fun i => i) NShot
  /\ createDemoText (fun i => i) 0 = EmptyString
  /\ forall k, createDemoText (fun i => i) k
               = demoTextOf (firstn k (GoRand.Shuffle (fun i => i) demoExamples)).
Proof. apply (X2_demo_text_shot_count (fun i => i) 7). lia. Defined.

End Exemplars.

(** ** More on answer extraction *)

Section MoreCleanAnswer.

Lemma firstStandalone_letter s c :
  firstStandalone s = Some c -> c = "A"%char \/ c = "B"%char.
Proof.
  unfold firstStandalone.
  destruct (List.find (standaloneAt s) (seq 0 (List.length s))) as [k|] eqn:Hf;
    [|discriminate].
  destruct (find_seq_first _ _ _ _ Hf) as (Hk & _).
  intros Hc. unfold standaloneAt in Hk. rewrite Hc in Hk.
  apply andb_true_iff in Hk. destruct Hk as [Hk _].
  apply andb_true_iff in Hk. destruct Hk as [Hk _].
  apply orb_true_iff in Hk.
  destruct Hk as [Hk|Hk]; apply Ascii.eqb_eq in Hk; auto.
Qed.

Lemma firstStandalone_none s :
  (forall i, standaloneAt s i = false) -> firstStandalone s = None.
Proof.
  intros Hnone. unfold firstStandalone.
  destruct (List.find (standaloneAt s) (seq 0 (List.length s))) as [k|] eqn:Hf;
    [|reflexivity].
  destruct (find_seq_first _ _ _ _ Hf) as (Hk & _).
  rewrite Hnone in Hk. discriminate Hk.
Qed.

(** X3. Bytes that are not word characters around a completion do not
    change the answer: white space, quotes, brackets, punctuation or
    non-ASCII bytes before and after the text are all the same to
    [cleanAnswer]. *)
Theorem X3_cleanAnswer_ignores_nonword_padding p completion q :
  Forall nonword p -> Forall nonword q ->
  cleanAnswer (string_of_list_ascii (p ++ list_ascii_of_string completion ++ q))
  = cleanAnswer completion.
Proof.
  intros Hp Hq. rewrite !cleanAnswer_firstStandalone.
  rewrite list_ascii_of_string_of_list_ascii, <- !scan_firstStandalone.
  rewrite (scan_skip_prefix p _ Hp None eq_refl).
  rewrite (scan_skip_suffix _ q Hq). reflexivity.
Qed.

Lemma X3_quoted_answer :
  cleanAnswer "**(B)**. " = cleanAnswer "B".
Proof.
  apply (X3_cleanAnswer_ignores_nonword_padding
           ["*"; "*"; "("]%char "B" [")"; "*"; "*"; "."; " "]%char);
    repeat constructor.
Defined.

(** X4. Cleaning is idempotent: the answer is [A], [B] or the sentinel,
    and cleaning any of the three returns it unchanged. *)
Theorem X4_cleanAnswer_idempotent completion :
  cleanAnswer (cleanAnswer completion) = cleanAnswer completion.
Proof.
  rewrite (cleanAnswer_firstStandalone completion).
  destruct (firstStandalone (list_ascii_of_string completion)) as [c|] eqn:Hf;
    [|reflexivity].
  destruct (firstStandalone_letter _ _ Hf) as [->| ->]; reflexivity.
Qed.

Lemma cleanAnswer_noLetter completion :
  noLetter completion -> cleanAnswer completion = InvalidAns.
Proof.
  intros H. rewrite cleanAnswer_firstStandalone, firstStandalone_none; auto.
Qed.

Lemma responseOf_unanswered env sample :
  neverAnswers env ->
  ModelAnswer (responseOf env sample) = InvalidAns
  /\ IsInvalid (responseOf env sample) = true
  /\ IsCorrect (responseOf env sample) = false.
Proof.
  intros Hn. unfold responseOf; cbn.
  rewrite (cleanAnswer_noLetter _ (Hn _)). repeat split.
  unfold correctAnswerOf. destruct (String.eqb (Label sample) "1"); reflexivity.
Qed.

(** X5. When no completion holds a standalone letter (the reply is empty,
    does not decode, or is prose without a choice), every result is flagged
    invalid and none correct, so the invalid count equals the total and the
    correct count stays zero. *)
Theorem X5_unanswered_calls_are_invalid file sched p :
  noCallAnswers sched ->
  run sched (initial file) = Some p ->
  Forall (fun r => ModelAnswer r = InvalidAns
                   /\ IsInvalid r = true /\ IsCorrect r = false) (produced p)
  /\ invalid (wStats (world p)) = total (wStats (world p))
  /\ correct (wStats (world p)) = 0.
Proof.
  intros Hn Hr.
  assert (Hall : Forall (fun r => ModelAnswer r = InvalidAns
                   /\ IsInvalid r = true /\ IsCorrect r = false) (produced p)).
  { apply (run_invariant_on
             (fun a => match a with
                       | WorkerProcess _ env => neverAnswers env
                       | _ => True
                       end)
             (fun p => Forall (fun r => ModelAnswer r = InvalidAns
                   /\ IsInvalid r = true /\ IsCorrect r = false) (produced p)))
      with sched (initial file).
    - intros a q q' Ha IH Hs.
      destruct (step_produced _ _ _ Hs) as [[Hp _]|(i & env & sample & -> & _ & _ & Hp)].
      + rewrite Hp. exact IH.
      + rewrite Hp. constructor; [|exact IH]. apply responseOf_unanswered. exact Ha.
    - exact Hn.
    - rewrite produced_initial. constructor.
    - exact Hr. }
  assert (Hreach : reachable file p) by (exists sched; exact Hr).
  destruct (counters_invariant file p Hreach) as [_ (Ht & Hc & Hi)].
  split; [exact Hall|]. split.
  - rewrite Hi, Ht. f_equal. f_equal. apply count_all.
    eapply Forall_impl; [exact Hall|]. simpl. intros r (_ & H & _). exact H.
  - rewrite Hc, count_none; [reflexivity|].
    eapply Forall_impl; [exact Hall|]. simpl. intros r (_ & _ & H). exact H.
Qed.

Lemma undecodableReply_neverAnswers : neverAnswers undecodableReply.
Proof. intros inputText i. destruct i; reflexivity. Qed.

Lemma X5_undecodable_replies :
  exists p,
    run undecodableSchedule (initial (Some threeRecords)) = Some p
    /\ total (wStats (world p)) = 3
    /\ Forall (fun r => ModelAnswer r = InvalidAns
                        /\ IsInvalid r = true /\ IsCorrect r = false) (produced p)
    /\ invalid (wStats (world p)) = total (wStats (world p))
    /\ correct (wStats (world p)) = 0.
Proof.
  eexists. split; [vm_compute; reflexivity|].
  split; [reflexivity|].
  apply (X5_unanswered_calls_are_invalid (Some threeRecords) undecodableSchedule).
  - unfold undecodableSchedule, noCallAnswers.
    repeat constructor; apply undecodableReply_neverAnswers.
  - vm_compute. reflexivity.
Defined.

End MoreCleanAnswer.

(** ** Snapshots between a worker's updates *)

Section MidUpdate.

(** X6. The counters are not updated together: [correct] and [invalid] are
    added to before [total]. At every point of every interleaving the total
    plus the additions still owed to it is the sum of the correct, the
    wrong-but-valid and the invalid, each with what is still owed; so a
    snapshot taken between the additions of one call can show more correct
    answers than processed records. *)
Theorem X6_partition_up_to_owed_additions jobs sched st gs :
  Forall (fun j => fst (fst j) && snd (fst j) = false) jobs ->
  interleave sched (zeroStats, workersOf jobs) = Some (st, gs) ->
  wrap32 (total st + owed CTotal gs)
  = wrap32 ((correct st + owed CCorrect gs)
            + Z.of_nat (count (fun j => negb (fst (fst j)) && negb (snd (fst j)))
                              jobs)
            + (invalid st + owed CInvalid gs)).
Proof. apply mid_update_partition. Qed.

Lemma X6_correct_ahead_of_total :
  exists st gs,
    interleave [0%nat] (zeroStats, workersOf oneCorrectJob) = Some (st, gs)
    /\ total st = 0 /\ correct st = 1 /\ owed CTotal gs = 1
    /\ wrap32 (total st + owed CTotal gs)
       = wrap32 ((correct st + owed CCorrect gs)
                 + Z.of_nat (count (fun j => negb (fst (fst j))
                                             && negb (snd (fst j)))
                                   oneCorrectJob)
                 + (invalid st + owed CInvalid gs)).
Proof.
  eexists. eexists. split; [vm_compute; reflexivity|].
  split; [reflexivity|]. split; [reflexivity|]. split; [reflexivity|].
  apply (X6_partition_up_to_owed_additions oneCorrectJob [0%nat]).
  - repeat constructor.
  - vm_compute. reflexivity.
Defined.

End MidUpdate.

(** ** The queues and the collector *)

Section Queues.

(** X7. The two queues never hold more than their capacity: at most
    [WorkerCount] samples wait for a worker and at most [BatchSize] results
    wait for the collector. A send to a full queue is not enabled, it is
    never dropped. *)
Theorem X7_queues_within_capacity file p :
  reachable file p ->
  (List.length (samplesChan p) <= WorkerCount)%nat
  /\ (List.length (resultsChan p) <= BatchSize)%nat.
Proof.
  apply (reachable_invariant
    (fun p => (List.length (samplesChan p) <= WorkerCount)%nat
              /\ (List.length (resultsChan p) <= BatchSize)%nat)).
  - cbn. lia.
  - intros a q q' [Hs Hr] Hstep.
    step_cases Hstep; cbn -[processSample Nat.ltb Nat.leb] in *.
    all: repeat match goal with
         | H : (_ <? _)%nat = true |- _ => apply Nat.ltb_lt in H
         | H : samplesChan _ = _ |- _ => rewrite H in *
         | H : resultsChan _ = _ |- _ => rewrite H in *
         end.
    all: rewrite ?length_app; cbn [List.length] in *; lia.
Qed.

Lemma X7_three_records_run :
  exists p,
    run threeRecordsSchedule (initial (Some threeRecords)) = Some p
    /\ (List.length (samplesChan p) <= WorkerCount)%nat
    /\ (List.length (resultsChan p) <= BatchSize)%nat.
Proof.
  eexists. split; [vm_compute; reflexivity|].
  apply (X7_queues_within_capacity (Some threeRecords)).
  exists threeRecordsSchedule. vm_compute. reflexivity.
Defined.

(** X8. The collector inserts full batches only while the output queue is
    open: its batch always holds fewer than [BatchSize] results, and until
    it has seen the queue closed the number of inserted results is a
    multiple of [BatchSize]. A partial batch is inserted at the close
    only. *)
Theorem X8_full_batches_until_close file p :
  reachable file p ->
  (List.length (batch p) < BatchSize)%nat
  /\ (collector p = Draining ->
      exists k, List.length (resultsColl p) = (k * BatchSize)%nat).
Proof.
  apply (reachable_invariant
    (fun p => (List.length (batch p) < BatchSize)%nat
              /\ (collector p = Draining ->
                  exists k, List.length (resultsColl p) = (k * BatchSize)%nat))).
  - cbn -[BatchSize Nat.mul]. split; [apply Nat.lt_0_succ|].
    intros _. exists 0%nat. reflexivity.
  - intros a q q' [Hb Hc] Hstep.
    step_cases Hstep; cbn -[processSample Nat.ltb Nat.leb Nat.mul BatchSize] in *.
    all: try (split; [assumption|]; assumption).
    all: try (split; [apply Nat.lt_0_succ | intros Hd; discriminate Hd]).
    + (* the batch is full and is inserted *)
      match goal with
      | H : (_ <=? _)%nat = true |- _ =>
        apply Nat.leb_le in H; rewrite length_app in H;
        cbn [List.length] in H; rename H into Hfull
      end.
      split; [apply Nat.lt_0_succ|]. intros _.
      destruct (Hc eq_refl) as [k Hk]. exists (S k).
      rewrite !length_app, Hk. cbn [List.length Nat.mul].
      assert (Hn : (List.length (batch q) + 1 = BatchSize)%nat) by lia.
      rewrite Hn. apply Nat.add_comm.
    + (* the batch grows *)
      match goal with
      | H : (_ <=? _)%nat = false |- _ =>
        apply Nat.leb_gt in H; split; [exact H | exact Hc]
      end.
Qed.

Lemma X8_three_records_run :
  exists p,
    run threeRecordsSchedule (initial (Some threeRecords)) = Some p
    /\ (List.length (batch p) < BatchSize)%nat
    /\ (collector p = Draining ->
        exists k, List.length (resultsColl p) = (k * BatchSize)%nat).
Proof.
  eexists. split; [vm_compute; reflexivity|].
  apply (X8_full_batches_until_close (Some threeRecords)).
  exists threeRecordsSchedule. vm_compute. reflexivity.
Defined.

Lemma step_persistOrder a p p' :
  step a p = Some p' -> exists more, persistOrder p' = persistOrder p ++ more.
Proof.
  intros H. step_cases H; unfold persistOrder; cbn -[processSample].
  all: repeat match goal with
       | E : resultsChan _ = _ |- _ => rewrite E
       end.
  all: try (exists []; rewrite ?app_nil_r, <- ?app_assoc; cbn [app];
            reflexivity).
  all: match goal with
       | |- context [resultsChan _ ++ [?r]] =>
         exists [r]; rewrite <- ?app_assoc; reflexivity
       end.
Qed.

(** X9. Results are persisted in the order in which the workers put them
    in the output queue: along any run, the sequence made of the inserted
    results, the collector's batch and the queue only grows at its end.
    Nothing queued is dropped, reordered or inserted twice. *)
Theorem X9_results_persisted_in_queue_order sched p p' :
  run sched p = Some p' ->
  exists more, persistOrder p' = persistOrder p ++ more.
Proof.
  revert p. induction sched as [|a rest IH]; simpl; intros p Hr.
  - injection Hr as <-. exists []. rewrite app_nil_r. reflexivity.
  - destruct (step a p) as [q|] eqn:Hs; [|discriminate Hr].
    destruct (step_persistOrder _ _ _ Hs) as [m1 H1].
    destruct (IH _ Hr) as [m2 H2].
    exists (m1 ++ m2). rewrite H2, H1, app_assoc. reflexivity.
Qed.

Lemma X9_three_workers_run :
  exists p,
    run threeWorkersSchedule (initial (Some threeRecords)) = Some p
    /\ exists more,
         persistOrder p = persistOrder (initial (Some threeRecords)) ++ more.
Proof.
  eexists. split; [vm_compute; reflexivity|].
  apply (X9_results_persisted_in_queue_order threeWorkersSchedule).
  vm_compute. reflexivity.
Defined.

End Queues.

(** ** Where the records of the dataset are *)

Section Conservation.

(** Every step keeps the records: a sample moves, or is replaced by its
    result. *)
Lemma step_conserved {B} (f : Response -> B) (g : Sample -> B)
      lines header a p p' :
  (forall env sample, f (responseOf env sample) = g sample) ->
  headerOf lines = Some header ->
  file p = Some lines ->
  sourceFollows header (source p) ->
  step a p = Some p' ->
  halted p' = None ->
  map f (produced p') ++ map g (pending p')
  ≡ₚ map f (produced p) ++ map g (pending p).
Proof.
  intros Hfg Hh Hfile Hsrc Hstep Hrun.
  destruct (headerOf_Some _ _ Hh) as (rd & Hread & Hne & Hfpr).
  step_cases Hstep; unfold produced, pending;
    cbn -[processSample sourceLoop] in *; try discriminate Hrun.
  all: try reflexivity.
  all: repeat match goal with
       | E : source _ = _ |- _ => rewrite E
       | E : samplesChan _ = _ |- _ => rewrite E
       | E : resultsChan _ = _ |- _ => rewrite E
       | E : file _ = _ |- _ => rewrite E
       end; cbn [unsent].
  all: try match goal with
       | Hw : workers _ !! _ = Some ?pc |- context [<[_ := ?pc']> _] =>
         let o1 := fresh "o" in let o2 := fresh "o" in
         let H1 := fresh "H" in let H2 := fresh "H" in
         let H3 := fresh "H" in let H4 := fresh "H" in
         destruct (omap_insert_perm sending _ _ _ pc' Hw) as (o1 & H1 & H2);
         destruct (omap_insert_perm busy _ _ _ pc' Hw) as (o2 & H3 & H4);
         rewrite H1, H2, H3, H4; cbn [sending busy option_list app]
       end.
  all: try match goal with
       | Hp : processSample ?env ?sample _ = _ |- _ =>
         rewrite processSample_eq in Hp; injection Hp as <- <-;
         pose proof (Hfg env sample) as Hverdict
       end.
  all: unfold option_list; cbn [option_rect sending busy app];
    repeat (progress (rewrite ?map_app; cbn [map app])).
  all: try rewrite Hverdict.
  all: try solve_Permutation.
  - (* the source opens the file and reads the header *)
    match goal with
    | Hl : Some _ = Some lines, Hr : GoCsv.readFrom _ 0 = (_, None, _) |- _ =>
      injection Hl as ->; rewrite Hread in Hr; injection Hr as <- <-
    end.
    unfold dataset, loadDataset, GoCsv.Read. cbn [GoCsv.NewReader GoCsv.pending GoCsv.FieldsPerRecord].
    rewrite Hread. cbn [samplesOf].
    destruct (readFrom_ok _ _ _ _ Hread) as (_ & _ & _ & Hlt).
    cbn [GoCsv.pending] in Hlt.
    rewrite (sourceLoop_bound (headerMap header) (S (List.length lines))
               (S (List.length (GoCsv.pending rd))) rd) by lia.
    reflexivity.
  - (* the source reaches the end of the file, or a line it cannot read *)
    match goal with
    | Hr : GoCsv.Read _ = _ |- _ => rewrite (sourceLoop_stop _ _ _ _ _ _ Hr)
    end.
    reflexivity.
  - (* the source reads a record *)
    match goal with
    | Hr : GoCsv.Read ?rd0 = (?rec, None, ?rd1),
      Hs : sampleOfRecord _ _ = Some _ |- _ =>
      rewrite (sourceLoop_next _ _ _ _ _ _ Hr Hs); unfold GoCsv.Read in Hr;
      destruct (readFrom_ok _ _ _ _ Hr) as (_ & Hw1 & Hw2 & Hlt);
      destruct Hsrc as [Hwidth Hmap]; subst;
      assert (Hwd : GoCsv.FieldsPerRecord rd1 = List.length header)
        by (rewrite Hw1, <- Hwidth; apply Hw2; rewrite Hwidth;
            destruct header; [contradiction | discriminate]);
      destruct (sourceLoop_total header (List.length (GoCsv.pending rd0)) rd1
                  Hne Hwd) as [rest Hrest];
      rewrite Hrest;
      rewrite (sourceLoop_bound (headerMap header)
                 (S (List.length (GoCsv.pending rd1)))
                 (List.length (GoCsv.pending rd0)) rd1) by lia;
      rewrite Hrest
    end.
    reflexivity.
Qed.

Lemma pending_initial file : pending (initial file) = dataset file.
Proof.
  unfold pending, initial; cbn [TreeGo.file source samplesChan workers unsent].
  rewrite allExited_busy_replicate. rewrite app_nil_r. reflexivity.
Qed.

Lemma conserved {B} (f : Response -> B) (g : Sample -> B) lines header p :
  (forall env sample, f (responseOf env sample) = g sample) ->
  headerOf lines = Some header ->
  reachable (Some lines) p ->
  map f (produced p) ++ map g (pending p) ≡ₚ map g (dataset (Some lines)).
Proof.
  intros Hfg Hh Hr.
  assert (H : reachable (Some lines) p
              /\ map f (produced p) ++ map g (pending p)
                 ≡ₚ map g (dataset (Some lines))); [|apply H].
  revert p Hr. apply reachable_invariant.
  - split; [exists []; reflexivity|].
    rewrite produced_initial, pending_initial. reflexivity.
  - intros a q q' [Hq Hl] Hs.
    assert (Hq' : reachable (Some lines) q') by (eapply reachable_step; eauto).
    split; [exact Hq'|]. rewrite <- Hl.
    destruct (readable_header_never_halts lines header q Hh Hq)
      as (Hf & _ & Hsrc & _).
    destruct (readable_header_never_halts lines header q' Hh Hq')
      as (_ & Hhalt & _).
    eapply step_conserved; eauto.
Qed.

(** When the dataset cannot be read the run stays where it started: the
    source is at its first step, or has stopped the process. *)
Lemma unreadable_invariant file p :
  unreadable file ->
  reachable file p ->
  TreeGo.file p = file
  /\ source p = SrcOpen
  /\ samplesChan p = [] /\ samplesClosed p = false
  /\ workers p = replicate WorkerCount WRecv
  /\ world p = world (initial file)
  /\ resultsChan p = [] /\ resultsClosed p = false
  /\ batch p = [] /\ resultsColl p = []
  /\ mainPc p = MWait
  /\ (halted p = None \/ halted p = Some FatalExit).
Proof.
  intros Hun. revert p. apply reachable_invariant.
  - cbn. repeat split; auto.
  - intros a q q' (Hf & Hsrc & Hch & Hcl & Hw & Hwd & Hrc & Hrcl & Hb & Hcoll
                   & Hm & Hh) Hs.
    step_cases Hs; cbn -[processSample replicate WorkerCount] in *.
    all: try congruence.
    all: try (repeat split; auto; fail).
    all: try match goal with
         | H : workers _ !! _ = Some _ |- _ =>
           rewrite Hw in H; apply lookup_replicate in H; destruct H as [H _];
           discriminate H
         end.
    all: try match goal with
         | H : allExited _ = true |- _ => rewrite Hw in H; discriminate H
         end.
    (* the header is read: the file is readable *)
    exfalso. unfold headerOf, GoCsv.Read in Hun.
    cbn [GoCsv.NewReader GoCsv.pending GoCsv.FieldsPerRecord] in Hun.
    match goal with
    | Hr : GoCsv.readFrom _ _ = _ |- _ => rewrite Hr in Hun
    end.
    discriminate Hun.
Qed.

Lemma unreadable_dataset file : unreadable file -> dataset file = [].
Proof.
  unfold unreadable, dataset, loadDataset, headerOf.
  destruct file as [lines|]; [|reflexivity].
  destruct (GoCsv.Read (GoCsv.NewReader lines)) as [[h [e|]] rd];
    [reflexivity | discriminate].
Qed.

Lemma readable_or_not file :
  unreadable file
  \/ exists lines header, file = Some lines /\ headerOf lines = Some header.
Proof.
  destruct file as [lines|]; [|left; exact Logic.I].
  destruct (headerOf lines) as [h|] eqn:Hh.
  - right. exists lines, h. auto.
  - left. exact Hh.
Qed.

Lemma allExited_sending ws : allExited ws = true -> omap sending ws = [].
Proof.
  induction ws as [|pc ws IH]; [reflexivity|]. cbn [allExited forallb].
  intros H. apply andb_true_iff in H. destruct H as [Hpc Hws].
  destruct pc; try discriminate Hpc. cbn. apply IH. exact Hws.
Qed.

(** X10. No record is lost and none is scored twice: at every point of a
    run, the results produced so far together with the samples still to be
    scored are, up to order, the records of the dataset, each result
    echoing the premise, the choices and the question of its record and
    carrying the correct answer derived from its label. *)
Theorem X10_every_record_is_pending_or_scored_once file p :
  reachable file p ->
  map echo (produced p) ++ map key (pending p) ≡ₚ map key (dataset file).
Proof.
  intros Hr. destruct (readable_or_not file) as [Hun|(lines & header & -> & Hh)].
  - destruct (unreadable_invariant file p Hun Hr)
      as (Hf & Hsrc & Hch & _ & Hw & _ & Hrc & _ & Hb & Hcoll & _).
    unfold produced, pending.
    rewrite Hf, Hsrc, Hch, Hw, Hrc, Hb, Hcoll. cbn [unsent].
    rewrite (unreadable_dataset file Hun), allExited_busy_replicate.
    assert (Hs : forall n, omap sending (replicate n WRecv) = []).
    { intros n. induction n as [|n IH]; [reflexivity | exact IH]. }
    rewrite Hs. reflexivity.
  - apply (conserved echo key lines header); auto.
Qed.

Lemma X10_three_workers_run :
  exists p,
    run threeWorkersSchedule (initial (Some threeRecords)) = Some p
    /\ map echo (produced p) ++ map key (pending p)
       ≡ₚ map key (dataset (Some threeRecords)).
Proof.
  eexists. split; [vm_compute; reflexivity|].
  apply (X10_every_record_is_pending_or_scored_once (Some threeRecords)).
  exists threeWorkersSchedule. vm_compute. reflexivity.
Defined.

(** The collector returns only on a closed and drained queue, and [main]
    closes the queue only after [wg.Wait]. *)
Lemma collector_closed_invariant file p :
  reachable file p ->
  (resultsClosed p = true -> mainPc p <> MWait)
  /\ (collector p = Closed ->
      resultsClosed p = true /\ resultsChan p = [] /\ batch p = []).
Proof.
  revert p. apply reachable_invariant.
  - cbn. split; intros H; discriminate H.
  - intros a q q' [Hm Hc] Hs.
    step_cases Hs; cbn -[processSample] in *.
    all: split; intros; try discriminate; try congruence;
      try (apply Hm; assumption); try (apply Hm; reflexivity);
      try (apply Hc; assumption);
      try (repeat split; congruence).
    all: try match goal with
         | H : collector _ = Closed |- _ =>
           destruct (Hc H) as (? & ? & ?); repeat split; congruence
         end.
Qed.

(** X11. Once the collector has returned, every record of the dataset has
    been handed to the results collection exactly once: the inserted
    results are, up to order, the records of the dataset with their correct
    answers, whatever the schedule and the replies. *)
Theorem X11_closed_collector_has_inserted_every_record file p :
  reachable file p ->
  collector p = Closed ->
  map echo (resultsColl p) ≡ₚ map key (dataset file).
Proof.
  intros Hr Hc.
  destruct (collector_closed_invariant file p Hr) as [Hm Hcl].
  destruct (Hcl Hc) as (Hrc & Hch & Hb).
  pose proof (Hm Hrc) as Hmain.
  destruct (nothing_pending_after_wait file p Hr Hmain) as (Hpend & _).
  destruct (main_invariant file p Hr) as (Hall & _).
  pose proof (allExited_sending _ (Hall Hmain)) as Hsend.
  assert (Hprod : produced p = resultsColl p).
  { unfold produced. rewrite Hsend, Hch, Hb. reflexivity. }
  destruct (readable_or_not file) as [Hun|(lines & header & -> & Hh)].
  - destruct (unreadable_invariant file p Hun Hr) as (_ & _ & _ & _ & _ & _ & _ & _ & _ & _ & Hw & _).
    contradiction.
  - pose proof (conserved echo key lines header p (fun _ _ => eq_refl) Hh Hr) as H.
    rewrite Hpend, Hprod in H. cbn [map] in H. rewrite app_nil_r in H. exact H.
Qed.

Lemma X11_complete_run :
  exists p,
    run (completeRun answersA) (initial (Some oneRecord)) = Some p
    /\ collector p = Closed
    /\ map echo (resultsColl p) ≡ₚ map key (dataset (Some oneRecord)).
Proof.
  eexists. split; [vm_compute; reflexivity|].
  split; [reflexivity|].
  apply (X11_closed_collector_has_inserted_every_record (Some oneRecord)).
  - exists (completeRun answersA). vm_compute. reflexivity.
  - reflexivity.
Defined.

(** X12. The final snapshot counts every record of the dataset, whatever
    the replies of the endpoint: when [main] has persisted its final entry
    the total is the number of records the source could read (as an
    [int32]), and that entry is in the logs. *)
Theorem X12_final_snapshot_counts_every_record file p :
  reachable file p ->
  mainPc p = MExport ->
  exists elapsed,
    In (finalEntry (wStats (world p)) elapsed) (logsColl p)
    /\ TotalQuestions (finalEntry (wStats (world p)) elapsed)
       = wrap32 (Z.of_nat (List.length (dataset file))).
Proof.
  intros Hr Hm.
  destruct (main_invariant file p Hr) as (_ & _ & Hl).
  destruct (Hl Hm) as [elapsed He]. exists elapsed. split; [exact He|].
  cbn [finalEntry TotalQuestions].
  assert (Hmain : mainPc p <> MWait) by congruence.
  destruct (nothing_pending_after_wait file p Hr Hmain)
    as (Hpend & lines & header & -> & Hh).
  pose proof (conserved echo key lines header p (fun _ _ => eq_refl) Hh Hr) as H.
  rewrite Hpend in H. cbn [map] in H. rewrite app_nil_r in H.
  apply Permutation_length in H. rewrite !length_map in H.
  destruct (counters_invariant _ p Hr) as [_ (Ht & _)].
  rewrite Ht, H. reflexivity.
Qed.

Lemma X12_complete_run :
  exists p,
    run (completeRun answersA) (initial (Some oneRecord)) = Some p
    /\ mainPc p = MExport
    /\ exists elapsed,
         In (finalEntry (wStats (world p)) elapsed) (logsColl p)
         /\ TotalQuestions (finalEntry (wStats (world p)) elapsed)
            = wrap32 (Z.of_nat (List.length (dataset (Some oneRecord)))).
Proof.
  eexists. split; [vm_compute; reflexivity|].
  split; [reflexivity|].
  apply (X12_final_snapshot_counts_every_record (Some oneRecord)).
  - exists (completeRun answersA). vm_compute. reflexivity.
  - reflexivity.
Defined.

(** X13. When the dataset cannot be opened or its header row cannot be
    read, nothing is processed: no sample reaches a worker, no request is
    sent, no result is produced or inserted, [main] stays in [wg.Wait] and
    writes no final snapshot, and the one step the source can take is the
    fatal exit. *)
Theorem X13_unreadable_dataset_processes_nothing file p :
  unreadable file ->
  reachable file p ->
  samplesChan p = []
  /\ wRequests (world p) = []
  /\ produced p = []
  /\ mainPc p = MWait
  /\ (halted p = None \/ halted p = Some FatalExit)
  /\ (forall p', step SourceOpen p = Some p' -> halted p' = Some FatalExit).
Proof.
  intros Hun Hr.
  destruct (unreadable_invariant file p Hun Hr)
    as (Hf & Hsrc & Hch & _ & Hw & Hwd & Hrc & _ & Hb & Hcoll & Hm & Hh).
  split; [exact Hch|]. split; [rewrite Hwd; reflexivity|].
  split.
  { unfold produced. rewrite Hw, Hrc, Hb, Hcoll.
    assert (Hs : forall n, omap sending (replicate n WRecv) = []).
    { intros n. induction n as [|n IH]; [reflexivity | exact IH]. }
    rewrite Hs. reflexivity. }
  split; [exact Hm|]. split; [exact Hh|].
  intros p' Hs.
  assert (Hr' : reachable file p') by (eapply reachable_step; eauto).
  destruct (unreadable_invariant file p' Hun Hr') as (_ & _ & _ & _ & _ & _ & _ & _ & _ & _ & _ & Hh').
  destruct Hh' as [Hh'|Hh']; [|exact Hh'].
  exfalso. step_cases Hs; cbn in Hh'; try discriminate Hh'.
  unfold unreadable, headerOf in Hun.
  match goal with
  | Hx : GoCsv.Read _ = _ |- _ => rewrite Hx in Hun
  end.
  discriminate Hun.
Qed.

Lemma X13_broken_file :
  exists p,
    run [CollectorTick; SourceOpen] (initial brokenFile) = Some p
    /\ halted p = Some FatalExit
    /\ samplesChan p = []
    /\ wRequests (world p) = []
    /\ produced p = []
    /\ mainPc p = MWait
    /\ (halted p = None \/ halted p = Some FatalExit)
    /\ (forall p', step SourceOpen p = Some p' -> halted p' = Some FatalExit).
Proof.
  eexists. split; [vm_compute; reflexivity|].
  split; [reflexivity|].
  apply (X13_unreadable_dataset_processes_nothing brokenFile).
  - reflexivity.
  - exists [CollectorTick; SourceOpen]. vm_compute. reflexivity.
Defined.

End Conservation.

(** ** The order of dispatch, and progress *)

Section Dispatch.

Lemma step_queue lines header a p p' :
  headerOf lines = Some header ->
  file p = Some lines ->
  sourceFollows header (source p) ->
  step a p = Some p' ->
  halted p' = None ->
  exists front,
    (samplesChan p ++ unsent (file p) (source p)
     = front ++ samplesChan p' ++ unsent (file p') (source p'))%list.
Proof.
  intros Hh Hfile Hsrc Hstep Hrun.
  destruct (headerOf_Some _ _ Hh) as (rd & Hread & Hne & Hfpr).
  step_cases Hstep; cbn -[processSample sourceLoop] in *; try discriminate Hrun.
  all: repeat match goal with
       | E : source _ = _ |- _ => rewrite E
       | E : samplesChan _ = _ |- _ => rewrite E
       | E : file _ = _ |- _ => rewrite E
       end; cbn [unsent].
  all: try (exists []; reflexivity).
  all: try (exists []; rewrite <- app_assoc; reflexivity).
  all: try (eexists [_]; reflexivity).
  - (* the source opens the file and reads the header *)
    match goal with
    | Hl : Some _ = Some lines, Hr : GoCsv.readFrom _ 0 = (_, None, _) |- _ =>
      injection Hl as ->; rewrite Hread in Hr; injection Hr as <- <-
    end.
    exists []. cbn [app]. f_equal.
    unfold dataset, loadDataset, GoCsv.Read. cbn [GoCsv.NewReader GoCsv.pending GoCsv.FieldsPerRecord].
    rewrite Hread. cbn [samplesOf].
    destruct (readFrom_ok _ _ _ _ Hread) as (_ & _ & _ & Hlt).
    cbn [GoCsv.pending] in Hlt.
    rewrite (sourceLoop_bound (headerMap header) (S (List.length lines))
               (S (List.length (GoCsv.pending rd))) rd) by lia.
    reflexivity.
  - (* the source reaches the end of the file, or a line it cannot read *)
    exists []. cbn [app]. f_equal.
    match goal with
    | Hr : GoCsv.Read _ = _ |- _ => rewrite (sourceLoop_stop _ _ _ _ _ _ Hr)
    end.
    reflexivity.
  - (* the source reads a record *)
    exists []. cbn [app]. f_equal.
    match goal with
    | Hr : GoCsv.Read ?rd0 = (?rec, None, ?rd1),
      Hs : sampleOfRecord _ _ = Some _ |- _ =>
      rewrite (sourceLoop_next _ _ _ _ _ _ Hr Hs); unfold GoCsv.Read in Hr;
      destruct (readFrom_ok _ _ _ _ Hr) as (_ & Hw1 & Hw2 & Hlt);
      destruct Hsrc as [Hwidth Hmap]; subst;
      assert (Hwd : GoCsv.FieldsPerRecord rd1 = List.length header)
        by (rewrite Hw1, <- Hwidth; apply Hw2; rewrite Hwidth;
            destruct header; [contradiction | discriminate]);
      destruct (sourceLoop_total header (List.length (GoCsv.pending rd0)) rd1
                  Hne Hwd) as [rest Hrest];
      rewrite Hrest;
      rewrite (sourceLoop_bound (headerMap header)
                 (S (List.length (GoCsv.pending rd1)))
                 (List.length (GoCsv.pending rd0)) rd1) by lia;
      rewrite Hrest
    end.
    reflexivity.
Qed.

(** X14. Samples reach the workers in the order of the dataset file: in
    every reachable state the intake queue followed by what the source has
    yet to send is a suffix of the dataset, so the samples taken so far are
    a prefix of it and the queue is first in, first out. *)
Theorem X14_samples_dispatched_in_file_order file p :
  reachable file p ->
  exists taken,
    dataset file
    = (taken ++ samplesChan p ++ unsent (TreeGo.file p) (source p))%list.
Proof.
  intros Hr. destruct (readable_or_not file) as [Hun|(lines & header & -> & Hh)].
  - destruct (unreadable_invariant file p Hun Hr) as (Hf & Hsrc & Hch & _).
    exists []. rewrite Hf, Hsrc, Hch. reflexivity.
  - assert (H : reachable (Some lines) p
                /\ exists taken,
                     dataset (Some lines)
                     = (taken ++ samplesChan p
                        ++ unsent (TreeGo.file p) (source p))%list);
      [|apply H].
    revert p Hr. apply reachable_invariant.
    + split; [exists []; reflexivity|]. exists []. reflexivity.
    + intros a q q' [Hq [taken Ht]] Hs.
      assert (Hq' : reachable (Some lines) q') by (eapply reachable_step; eauto).
      split; [exact Hq'|].
      destruct (readable_header_never_halts lines header q Hh Hq)
        as (Hf & _ & Hsrc & _).
      destruct (readable_header_never_halts lines header q' Hh Hq')
        as (_ & Hhalt & _).
      destruct (step_queue lines header a q q' Hh Hf Hsrc Hs Hhalt)
        as [front Hfront].
      exists (taken ++ front)%list. rewrite Ht, Hfront, app_assoc. reflexivity.
Qed.

Lemma X14_three_workers_run :
  exists p,
    run threeWorkersSchedule (initial (Some threeRecords)) = Some p
    /\ exists taken,
         dataset (Some threeRecords)
         = (taken ++ samplesChan p ++ unsent (TreeGo.file p) (source p))%list.
Proof.
  eexists. split; [vm_compute; reflexivity|].
  apply (X14_samples_dispatched_in_file_order (Some threeRecords)).
  exists threeWorkersSchedule. vm_compute. reflexivity.
Defined.

(** A worker that has not exited can take a step, provided that a worker
    waiting for a sample has one to take or sees the intake queue closed. *)
Lemma worker_can_move (env : Env) p i pc :
  halted p = None ->
  workers p !! i = Some pc ->
  pc <> WExit ->
  (pc = WRecv -> samplesChan p <> [] \/ samplesClosed p = true) ->
  (collector p = Closed -> resultsClosed p = true) ->
  canMove p.
Proof.
  intros Hh Hi Hpc Hrecv Hcl. unfold canMove.
  destruct pc as [|sample|result|]; [| | |contradiction].
  - destruct (samplesChan p) as [|s rest] eqn:Hch.
    + destruct (Hrecv eq_refl) as [Hne|Hclosed]; [contradiction|].
      exists (WorkerExit i). eexists. split; [discriminate|].
      unfold step, stepWorker. rewrite Hh, Hi, Hch, Hclosed. reflexivity.
    + exists (WorkerRecv i). eexists. split; [discriminate|].
      unfold step, stepWorker. rewrite Hh, Hi, Hch. reflexivity.
  - exists (WorkerProcess i env).
    destruct (processSample env sample (world p)) as [result w] eqn:Hp.
    eexists. split; [discriminate|].
    unfold step, stepWorker. rewrite Hh, Hi, Hp. reflexivity.
  - destruct (resultsClosed p) eqn:Hrc.
    { exists (WorkerSend i). eexists. split; [discriminate|].
      unfold step, stepWorker. rewrite Hh, Hi, Hrc. reflexivity. }
    destruct (List.length (resultsChan p) <? BatchSize)%nat eqn:Hfull.
    { exists (WorkerSend i). eexists. split; [discriminate|].
      unfold step, stepWorker. rewrite Hh, Hi, Hrc, Hfull. reflexivity. }
    destruct (collector p) eqn:Hc; [|specialize (Hcl eq_refl); discriminate Hcl].
    destruct (resultsChan p) as [|r rest] eqn:Hch; [discriminate Hfull|].
    exists CollectorRecv. unfold step, stepCollector. rewrite Hh, Hc, Hch.
    destruct (BatchSize <=? List.length (batch p ++ [r]))%nat;
      eexists; (split; [discriminate|reflexivity]).
Qed.

Lemma not_allExited ws :
  allExited ws = false -> exists i pc, ws !! i = Some pc /\ pc <> WExit.
Proof.
  induction ws as [|pc ws IH]; [discriminate|]. cbn [allExited forallb].
  intros H. apply andb_false_iff in H. destruct H as [H|H].
  - exists 0%nat, pc. split; [reflexivity|]. intros ->. discriminate H.
  - destruct (IH H) as (i & pc' & Hi & Hpc). exists (S i), pc'. auto.
Qed.

(** The source closes the intake queue when it stops. *)
Lemma source_closed_invariant file p :
  reachable file p -> source p = SrcClosed -> samplesClosed p = true.
Proof.
  revert p.
  apply (reachable_invariant
           (fun p => source p = SrcClosed -> samplesClosed p = true)).
  - cbn. discriminate.
  - intros a q q' IH Hs.
    step_cases Hs; cbn -[processSample] in *; intros; try discriminate;
      try reflexivity; try (apply IH; assumption); try congruence.
Qed.

Lemma complete_or_canMove (env : Env) file p :
  reachable file p ->
  halted p = None ->
  complete p \/ canMove p.
Proof.
  intros Hr Hh.
  destruct (shutdown_invariant file p Hr) as (Hlen & _ & Hclosed & Hexit & _).
  destruct (main_invariant file p Hr) as (Hall & Hfin & _).
  destruct (collector_closed_invariant file p Hr) as (_ & Hcl).
  assert (Hcl' : collector p = Closed -> resultsClosed p = true)
    by (intros Hc; apply (Hcl Hc)).
  destruct (mainPc p) eqn:Hm.
  - (* main waits for the workers *)
    right. destruct (source p) as [|reader colMap|reader colMap sample|] eqn:Hsrc.
    + exists SourceOpen. unfold step, stepSource. rewrite Hh, Hsrc.
      destruct (TreeGo.file p) as [lines|]; [|eexists; split; [discriminate|reflexivity]].
      destruct (GoCsv.Read (GoCsv.NewReader lines)) as [[header [e|]] reader];
        eexists; (split; [discriminate|reflexivity]).
    + exists SourceRead. unfold step, stepSource. rewrite Hh, Hsrc.
      destruct (GoCsv.Read reader) as [[record [e|]] reader'];
        [eexists; split; [discriminate|reflexivity]|].
      destruct (sampleOfRecord colMap record);
        eexists; (split; [discriminate|reflexivity]).
    + destruct (List.length (samplesChan p) <? WorkerCount)%nat eqn:Hfull.
      { exists SourceSend. eexists. split; [discriminate|].
        unfold step, stepSource. rewrite Hh, Hsrc, Hfull. reflexivity. }
      assert (Hne : samplesChan p <> []).
      { intros Hnil. rewrite Hnil in Hfull. discriminate Hfull. }
      assert (H0 : exists pc, workers p !! 0%nat = Some pc).
      { apply lookup_lt_is_Some_2. rewrite Hlen. unfold WorkerCount. lia. }
      destruct H0 as [pc Hpc].
      apply (worker_can_move env p 0%nat pc); auto.
      intros ->. destruct (Hexit _ Hpc) as [_ Hnil]. contradiction.
    + pose proof (source_closed_invariant file p Hr Hsrc) as Hsc.
      destruct (allExited (workers p)) eqn:Hex.
      { exists MainWait. eexists. split; [discriminate|].
        unfold step, stepMain. rewrite Hh, Hm, Hex. reflexivity. }
      destruct (not_allExited _ Hex) as (i & pc & Hi & Hpc).
      apply (worker_can_move env p i pc); auto.
  - right. exists MainClose. eexists. split; [discriminate|].
    unfold step, stepMain. rewrite Hh, Hm. reflexivity.
  - right. exists (MainFinal 0%float). eexists. split; [discriminate|].
    unfold step, stepMain. rewrite Hh, Hm. reflexivity.
  - destruct (collector p) eqn:Hc; [|left; split; [exact Hm | exact Hc]].
    right. destruct (resultsChan p) as [|r rest] eqn:Hch.
    + exists CollectorClosed. eexists. split; [discriminate|].
      unfold step, stepCollector. rewrite Hh, Hc, Hch, Hfin by auto. reflexivity.
    + exists CollectorRecv. unfold step, stepCollector. rewrite Hh, Hc, Hch.
      destruct (BatchSize <=? List.length (batch p ++ [r]))%nat;
        eexists; (split; [discriminate|reflexivity]).
Qed.

(** X15. The pipeline cannot deadlock: in every reachable state of a
    process that has not been stopped, either the run is over ([main] has
    written its final entry and the collector has returned) or some
    goroutine other than the collector's timer can take a step. The bounded
    queues never leave the source, the workers, the collector and [main]
    all waiting for each other. *)
Theorem X15_no_deadlock (env : Env) file p :
  reachable file p ->
  halted p = None ->
  complete p \/ canMove p.
Proof. apply complete_or_canMove. exact env. Qed.

Lemma X15_after_three_records :
  exists p,
    run threeRecordsSchedule (initial (Some threeRecords)) = Some p
    /\ halted p = None
    /\ (complete p \/ canMove p).
Proof.
  eexists. split; [vm_compute; reflexivity|].
  split; [reflexivity|].
  apply (X15_no_deadlock answersA (Some threeRecords)).
  - exists threeRecordsSchedule. vm_compute. reflexivity.
  - reflexivity.
Defined.

End Dispatch.

(** ** Reading the dataset *)

Section Dataset.

(** Lines appended to a file do not change a record that is read without
    error; they are left to the reader. *)
Lemma readFrom_app_ok more ls fpr record reader :
  GoCsv.readFrom ls fpr = (record, None, reader) ->
  GoCsv.readFrom (ls ++ more) fpr
  = (record, None,
     {| GoCsv.pending := GoCsv.pending reader ++ more;
        GoCsv.FieldsPerRecord := GoCsv.FieldsPerRecord reader |}).
Proof.
  revert record reader.
  induction ls as [|[fs|] rest IH]; cbn [app GoCsv.readFrom];
    intros record reader H; try discriminate H.
  destruct fs as [|f fs'].
  - apply IH. exact H.
  - destruct (Nat.eqb fpr 0).
    + injection H as <- <-. reflexivity.
    + destruct (Nat.eqb (List.length (f :: fs')) fpr); [|discriminate H].
      injection H as <- <-. reflexivity.
Qed.

(** A read that fails at the end of the lines fails as well when the next
    line is one the reader stops at. *)
Lemma readFrom_app_err line more ls fpr record e reader :
  (forall rest, exists r e' rd,
      GoCsv.readFrom (line :: rest) fpr = (r, Some e', rd)) ->
  GoCsv.readFrom ls fpr = (record, Some e, reader) ->
  exists r e' rd, GoCsv.readFrom (ls ++ line :: more) fpr = (r, Some e', rd).
Proof.
  intros Hstop. revert record e reader.
  induction ls as [|[fs|] rest IH]; intros record e reader H.
  - apply Hstop.
  - destruct fs as [|f fs'].
    + cbn [app GoCsv.readFrom] in H |- *. eapply IH. exact H.
    + cbn [app GoCsv.readFrom] in H |- *.
      destruct (Nat.eqb fpr 0); [discriminate H|].
      destruct (Nat.eqb (List.length (f :: fs')) fpr); [discriminate H|].
      eauto.
  - cbn [app GoCsv.readFrom]. eauto.
Qed.

(** The loop of the source stops at a line the reader does not accept: the
    lines after it are never read. [W] holds of the widths the reader can
    expect. *)
Lemma sourceLoop_stops_at (W : nat -> Prop) line more colMap :
  (forall w, W w -> forall rest, exists r e rd,
      GoCsv.readFrom (line :: rest) w = (r, Some e, rd)) ->
  (forall w ls record reader,
      W w -> GoCsv.readFrom ls w = (record, None, reader) ->
      W (GoCsv.FieldsPerRecord reader)) ->
  forall bound reader,
    W (GoCsv.FieldsPerRecord reader) ->
    sourceLoop bound
      {| GoCsv.pending := GoCsv.pending reader ++ line :: more;
         GoCsv.FieldsPerRecord := GoCsv.FieldsPerRecord reader |} colMap
    = sourceLoop bound reader colMap.
Proof.
  intros Hstop Hkeep bound.
  induction bound as [|k IH]; intros reader Hw; [reflexivity|].
  cbn [sourceLoop]. unfold GoCsv.Read.
  cbn [GoCsv.pending GoCsv.FieldsPerRecord].
  destruct (GoCsv.readFrom (GoCsv.pending reader) (GoCsv.FieldsPerRecord reader))
    as [[record [e|]] reader'] eqn:Hread.
  - destruct (readFrom_app_err line more _ _ _ _ _ (Hstop _ Hw) Hread)
      as (r & e' & rd & ->).
    reflexivity.
  - rewrite (readFrom_app_ok (line :: more) _ _ _ _ Hread).
    destruct (sampleOfRecord colMap record); [|reflexivity].
    rewrite IH; [reflexivity|]. eapply Hkeep; eauto.
Qed.

(** X16. The first row that the reader rejects ends the dataset without an
    error: a malformed row, or a row whose number of fields differs from
    the header's, makes the source leave its loop as at the end of the
    file, and every row after it is silently dropped. *)
Theorem X16_rejected_row_truncates_dataset before after :
  loadDataset (Some (before ++ GoCsv.Malformed :: after))
  = loadDataset (Some before)
  /\ forall header fs,
       headerOf before = Some header ->
       fs <> [] ->
       List.length fs <> List.length header ->
       loadDataset (Some (before ++ GoCsv.Fields fs :: after))
       = loadDataset (Some before).
Proof.
  split.
  - unfold loadDataset, GoCsv.Read.
    cbn [GoCsv.NewReader GoCsv.pending GoCsv.FieldsPerRecord].
    destruct (GoCsv.readFrom before 0) as [[header [e|]] rd] eqn:Hread.
    + destruct (readFrom_app_err GoCsv.Malformed after _ _ _ _ _
                  (fun rest => ex_intro _ _ (ex_intro _ _ (ex_intro _ _ eq_refl)))
                  Hread) as (r & e' & rd' & ->).
      reflexivity.
    + rewrite (readFrom_app_ok (GoCsv.Malformed :: after) _ _ _ _ Hread).
      rewrite (sourceLoop_stops_at (fun _ => True) GoCsv.Malformed after);
        [| intros w _ rest; simpl; eauto | auto | exact Logic.I].
      destruct (readFrom_ok _ _ _ _ Hread) as (_ & _ & _ & Hlt).
      apply sourceLoop_bound; rewrite ?length_app; cbn [List.length]; lia.
  - intros header fs Hh Hne Hlen.
    destruct (headerOf_Some _ _ Hh) as (rd & Hread & Hhne & Hfpr).
    unfold GoCsv.Read in Hread.
    cbn [GoCsv.NewReader GoCsv.pending GoCsv.FieldsPerRecord] in Hread.
    unfold loadDataset, GoCsv.Read.
    cbn [GoCsv.NewReader GoCsv.pending GoCsv.FieldsPerRecord].
    rewrite (readFrom_app_ok (GoCsv.Fields fs :: after) _ _ _ _ Hread), Hread.
    assert (Hw0 : List.length header <> 0%nat)
      by (destruct header; [contradiction | discriminate]).
    rewrite (sourceLoop_stops_at (fun w => w = List.length header)
               (GoCsv.Fields fs) after).
    + destruct (readFrom_ok _ _ _ _ Hread) as (_ & _ & _ & Hlt).
      apply sourceLoop_bound; rewrite ?length_app; cbn [List.length]; lia.
    + intros w -> rest. destruct fs as [|f fs']; [contradiction|].
      cbn [GoCsv.readFrom].
      destruct (Nat.eqb_spec (List.length header) 0) as [|_];
        [contradiction|].
      destruct (Nat.eqb_spec (List.length (f :: fs')) (List.length header))
        as [Heq|_]; [contradiction|].
      eauto.
    + intros w ls record reader -> Hr.
      destruct (readFrom_ok _ _ _ _ Hr) as (_ & H1 & H2 & _).
      rewrite H1. apply H2. exact Hw0.
    + exact Hfpr.
Qed.

Lemma X16_rows_after_a_short_row :
  loadDataset (Some (oneRecord ++ GoCsv.Malformed :: threeRecords))
  = loadDataset (Some oneRecord)
  /\ loadDataset
       (Some (oneRecord ++ GoCsv.Fields ["water the tree"; "1"] :: threeRecords))
     = loadDataset (Some oneRecord)
  /\ List.length (dataset (Some oneRecord)) = 1%nat.
Proof.
  destruct (X16_rejected_row_truncates_dataset oneRecord threeRecords)
    as [Hbad Hshort].
  split; [exact Hbad|]. split; [|reflexivity].
  apply (Hshort ["premise"; "choice1"; "choice2"; "question"; "label"]%string).
  - reflexivity.
  - discriminate.
  - cbn. lia.
Defined.

(** Columns that are not called [name] leave the entry of [name] alone. *)
Lemma columns_other (name : string) h :
  forall k (m : gmap string nat),
    ~ In name h ->
    fold_left (fun m ic => <[snd ic := fst ic]> m)
              (combine (seq k (List.length h)) h) m !! name
    = m !! name.
Proof.
  induction h as [|c t IH]; intros k m Hnot; [reflexivity|].
  cbn [List.length seq combine fold_left fst snd].
  rewrite IH by (intros Hin; apply Hnot; right; exact Hin).
  apply lookup_insert_ne. intros ->. apply Hnot. left. reflexivity.
Qed.

Lemma columns_last (name : string) h :
  forall k (m : gmap string nat) i,
    h !! i = Some name ->
    (forall j, (i < j)%nat -> h !! j <> Some name) ->
    fold_left (fun m ic => <[snd ic := fst ic]> m)
              (combine (seq k (List.length h)) h) m !! name
    = Some (k + i)%nat.
Proof.
  induction h as [|c t IH]; intros k m i Hi Hlast; [discriminate Hi|].
  cbn [List.length seq combine fold_left fst snd].
  destruct i as [|i'].
  - injection Hi as ->. rewrite columns_other.
    + rewrite lookup_insert_eq. f_equal. lia.
    + intros Hin. apply list_elem_of_In in Hin.
      apply list_elem_of_lookup in Hin. destruct Hin as [j Hj].
      apply (Hlast (S j)); [lia | exact Hj].
  - rewrite (IH (S k) _ i').
    + f_equal. lia.
    + exact Hi.
    + intros j Hlt. apply (Hlast (S j)). lia.
Qed.

(** A column name is mapped to its position; a repeated name to its last. *)
Lemma colIndex_last header name i :
  header !! i = Some name ->
  (forall j, (i < j)%nat -> header !! j <> Some name) ->
  colIndex (headerMap header) name = i.
Proof.
  intros Hi Hlast. unfold colIndex, headerMap.
  rewrite (columns_last name header 0 ∅ i Hi Hlast). reflexivity.
Qed.

(** X17. Columns are found by name, not by position: with a header of
    distinct names the five fields of a sample are read from the columns
    called premise, choice1, choice2, question and label, wherever the
    header puts them, and other columns are ignored. *)
Theorem X17_fields_are_read_by_column_name header record sample :
  NoDup header ->
  sampleOfRecord (headerMap header) record = Some sample ->
  forall i,
    (header !! i = Some "premise"%string -> record !! i = Some (Premise sample))
    /\ (header !! i = Some "choice1"%string -> record !! i = Some (Choice1 sample))
    /\ (header !! i = Some "choice2"%string -> record !! i = Some (Choice2 sample))
    /\ (header !! i = Some "question"%string -> record !! i = Some (Question sample))
    /\ (header !! i = Some "label"%string -> record !! i = Some (Label sample)).
Proof.
  intros Hnd Hs i.
  assert (Hcol : forall name, header !! i = Some name ->
                              colIndex (headerMap header) name = i).
  { intros name Hi. apply colIndex_last; [exact Hi|].
    intros j Hlt Hj. pose proof (NoDup_lookup _ _ _ _ Hnd Hi Hj). lia. }
  unfold sampleOfRecord in Hs.
  destruct (record !! colIndex (headerMap header) "premise") as [v1|] eqn:H1;
    [|discriminate Hs].
  destruct (record !! colIndex (headerMap header) "choice1") as [v2|] eqn:H2;
    [|discriminate Hs].
  destruct (record !! colIndex (headerMap header) "choice2") as [v3|] eqn:H3;
    [|discriminate Hs].
  destruct (record !! colIndex (headerMap header) "question") as [v4|] eqn:H4;
    [|discriminate Hs].
  destruct (record !! colIndex (headerMap header) "label") as [v5|] eqn:H5;
    [|discriminate Hs].
  cbn in Hs. injection Hs as <-. cbn [Premise Choice1 Choice2 Question Label].
  repeat split; intros Hi; rewrite (Hcol _ Hi) in *; assumption.
Qed.

Lemma X17_label_in_first_column :
  exists sample,
    sampleOfRecord (headerMap labelFirst) labelFirstRecord = Some sample
    /\ Label sample = "1"%string
    /\ forall i,
         (labelFirst !! i = Some "premise"%string
          -> labelFirstRecord !! i = Some (Premise sample))
         /\ (labelFirst !! i = Some "choice1"%string
             -> labelFirstRecord !! i = Some (Choice1 sample))
         /\ (labelFirst !! i = Some "choice2"%string
             -> labelFirstRecord !! i = Some (Choice2 sample))
         /\ (labelFirst !! i = Some "question"%string
             -> labelFirstRecord !! i = Some (Question sample))
         /\ (labelFirst !! i = Some "label"%string
             -> labelFirstRecord !! i = Some (Label sample)).
Proof.
  eexists. split; [vm_compute; reflexivity|].
  split; [reflexivity|].
  apply (X17_fields_are_read_by_column_name labelFirst labelFirstRecord).
  - apply (bool_decide_unpack _). vm_compute. reflexivity.
  - vm_compute. reflexivity.
Defined.

End Dataset.

(** ** More on the aggregator *)

Section MoreAggregator.

Lemma countResults_decoded docs :
  Z.of_nat (List.length docs) < 2 ^ 63 ->
  Results.countResults docs
  = (Z.of_nat (List.length (decoded docs)),
     Z.of_nat (count Results.IsCorrect (decoded docs)),
     Z.of_nat (count Results.IsInvalid (decoded docs))).
Proof.
  intros Hb. unfold Results.countResults.
  rewrite countResults_from by lia. rewrite !Z.add_0_l. reflexivity.
Qed.

(** X18. The report does not depend on the order in which the cursor
    yields the documents, nor on the documents that fail to decode: two
    result sets whose decodable documents are the same up to order give the
    same report, or both none. *)
Theorem X18_report_ignores_order_and_undecodable docs docs' :
  Z.of_nat (List.length docs) < 2 ^ 63 ->
  Z.of_nat (List.length docs') < 2 ^ 63 ->
  decoded docs ≡ₚ decoded docs' ->
  Results.calculateAccuracy (Some docs) = Results.calculateAccuracy (Some docs').
Proof.
  intros Hb Hb' Hperm. unfold Results.calculateAccuracy.
  rewrite !countResults_decoded by assumption.
  rewrite (Permutation_length Hperm).
  rewrite (count_perm Results.IsCorrect _ _ Hperm).
  rewrite (count_perm Results.IsInvalid _ _ Hperm).
  reflexivity.
Qed.

Lemma X18_reordered_with_a_bad_document :
  Results.calculateAccuracy
    (Some [scoredDoc true false; None; scoredDoc false true])
  = Results.calculateAccuracy
      (Some [scoredDoc false true; scoredDoc true false]).
Proof.
  apply (X18_report_ignores_order_and_undecodable
           [scoredDoc true false; None; scoredDoc false true]
           [scoredDoc false true; scoredDoc true false]).
  - vm_compute. reflexivity.
  - vm_compute. reflexivity.
  - apply Permutation_swap.
Defined.

(** X19. The aggregator reports nothing exactly when no document decodes
    (the guard against the division by a zero total), and a report has a
    positive total with the correct and the invalid counts between zero and
    that total. *)
Theorem X19_report_exactly_when_a_document_decodes docs :
  Z.of_nat (List.length docs) < 2 ^ 63 ->
  (Results.calculateAccuracy (Some docs) = None <-> decoded docs = [])
  /\ forall md,
       Results.calculateAccuracy (Some docs) = Some md ->
       0 < Results.TotalSamples md
       /\ 0 <= Results.CorrectAnswers md <= Results.TotalSamples md
       /\ 0 <= Results.InvalidAnswers md <= Results.TotalSamples md.
Proof.
  intros Hb. unfold Results.calculateAccuracy.
  rewrite countResults_decoded by assumption.
  pose proof (count_le_length Results.IsCorrect (decoded docs)) as Hc.
  pose proof (count_le_length Results.IsInvalid (decoded docs)) as Hi.
  destruct (Z.eqb_spec (Z.of_nat (List.length (decoded docs))) 0) as [Hz|Hnz].
  - split.
    + split; [|reflexivity]. intros _.
      destruct (decoded docs); [reflexivity | simpl in Hz; lia].
    + intros md H. discriminate H.
  - split.
    + split; [intros H; discriminate H|].
      intros Hnil. rewrite Hnil in Hnz. contradiction.
    + intros md H. injection H as <-. cbn. lia.
Qed.

Lemma X19_only_undecodable_documents :
  (Results.calculateAccuracy (Some [None; None]) = None
   <-> decoded [None; None] = [])
  /\ forall md,
       Results.calculateAccuracy (Some [None; None]) = Some md ->
       0 < Results.TotalSamples md
       /\ 0 <= Results.CorrectAnswers md <= Results.TotalSamples md
       /\ 0 <= Results.InvalidAnswers md <= Results.TotalSamples md.
Proof.
  apply (X19_report_exactly_when_a_document_decodes [None; None]).
  vm_compute. reflexivity.
Defined.

Lemma decoded_documents rs : decoded (map document rs) = map (fun r =>
  {| Results.Premise := rPremise r;
     Results.Choice1 := rChoice1 r;
     Results.Choice2 := rChoice2 r;
     Results.CausalQuestion := CausalQuestion r;
     Results.CorrectAnswer := CorrectAnswer r;
     Results.ModelAnswer := ModelAnswer r;
     Results.ModelCompletion := ModelCompletion r;
     Results.IsCorrect := IsCorrect r;
     Results.IsInvalid := IsInvalid r;
     Results.ProcessingTime := ProcessingTime r |}) rs.
Proof.
  induction rs as [|r rs IH]; [reflexivity|].
  unfold decoded in *. cbn. rewrite IH. reflexivity.
Qed.

(** X20. The two programs agree: once the collector has returned, the
    aggregator run over the inserted results reports the total, the correct
    and the invalid counts of the pipeline's own counters, for a dataset of
    at least one and fewer than [2^31] records whose inserted documents
    decode to the fields they were written with. *)
Theorem X20_aggregator_agrees_with_final_counters file p :
  reachable file p ->
  collector p = Closed ->
  dataset file <> [] ->
  Z.of_nat (List.length (dataset file)) < 2 ^ 31 ->
  exists md,
    Results.calculateAccuracy (Some (map document (resultsColl p))) = Some md
    /\ Results.TotalSamples md = total (wStats (world p))
    /\ Results.CorrectAnswers md = correct (wStats (world p))
    /\ Results.InvalidAnswers md = invalid (wStats (world p))
    /\ Results.TotalSamples md = Z.of_nat (List.length (dataset file)).
Proof.
  intros Hr Hc Hne Hb.
  destruct (collector_closed_invariant file p Hr) as [Hm Hcl].
  destruct (Hcl Hc) as (Hrc & Hch & Hbt).
  pose proof (Hm Hrc) as Hmain.
  destruct (nothing_pending_after_wait file p Hr Hmain)
    as (Hpend & lines & header & -> & Hh).
  destruct (main_invariant _ p Hr) as (Hall & _).
  pose proof (allExited_sending _ (Hall Hmain)) as Hsend.
  assert (Hprod : produced p = resultsColl p).
  { unfold produced. rewrite Hsend, Hch, Hbt. reflexivity. }
  pose proof (conserved echo key lines header p (fun _ _ => eq_refl) Hh Hr) as H.
  rewrite Hpend, Hprod in H. cbn [map] in H. rewrite app_nil_r in H.
  apply Permutation_length in H. rewrite !length_map in H.
  destruct (counters_invariant _ p Hr) as [_ (Ht & Hco & Hi)].
  rewrite Hprod in Ht, Hco, Hi.
  pose proof (count_le_length IsCorrect (resultsColl p)) as Hlc.
  pose proof (count_le_length IsInvalid (resultsColl p)) as Hli.
  assert (Hpos : (0 < List.length (resultsColl p))%nat).
  { rewrite H. destruct (dataset (Some lines)); [contradiction | simpl; lia]. }
  unfold Results.calculateAccuracy.
  rewrite countResults_decoded by (rewrite length_map; lia).
  rewrite decoded_documents, !count_map, length_map. cbn [Results.IsCorrect Results.IsInvalid].
  destruct (Z.eqb_spec (Z.of_nat (List.length (resultsColl p))) 0) as [Hz|_];
    [lia|].
  eexists. split; [reflexivity|]. cbn.
  rewrite Ht, Hco, Hi, !wrap32_small by lia.
  repeat split. rewrite H. reflexivity.
Qed.

Lemma X20_complete_run :
  exists p,
    run (completeRun answersA) (initial (Some oneRecord)) = Some p
    /\ collector p = Closed
    /\ exists md,
         Results.calculateAccuracy (Some (map document (resultsColl p)))
         = Some md
         /\ Results.TotalSamples md = total (wStats (world p))
         /\ Results.CorrectAnswers md = correct (wStats (world p))
         /\ Results.InvalidAnswers md = invalid (wStats (world p))
         /\ Results.TotalSamples md
            = Z.of_nat (List.length (dataset (Some oneRecord))).
Proof.
  eexists. split; [vm_compute; reflexivity|].
  split; [reflexivity|].
  apply (X20_aggregator_agrees_with_final_counters (Some oneRecord)).
  - exists (completeRun answersA). vm_compute. reflexivity.
  - reflexivity.
  - vm_compute. discriminate.
  - vm_compute. reflexivity.
Defined.

End MoreAggregator.

(** ** Termination *)

Section Termination.

Lemma workerWork_insert ws i pc pc' :
  ws !! i = Some pc ->
  (list_sum (map workerWork (<[i := pc']> ws)) + workerWork pc
   = list_sum (map workerWork ws) + workerWork pc')%nat.
Proof.
  revert i. induction ws as [|w ws IH]; intros i Hi; [discriminate Hi|].
  destruct i as [|i].
  - injection Hi as ->. cbn. lia.
  - specialize (IH i Hi).
    change (<[S i := pc']> (w :: ws)) with (w :: <[i := pc']> ws).
    unfold list_sum in *. cbn [map fold_right]. lia.
Qed.

Lemma workerWork_le ws i pc :
  ws !! i = Some pc -> (workerWork pc <= list_sum (map workerWork ws))%nat.
Proof.
  revert i. induction ws as [|w ws IH]; intros [|i] Hi; try discriminate Hi;
    unfold list_sum in *; cbn [map fold_right].
  - injection Hi as ->. lia.
  - specialize (IH i Hi). lia.
Qed.

(** Every step that is not a timer tick uses up some of the work left. *)
Lemma step_work a p p' :
  step a p = Some p' -> isTick a = false -> (work p' < work p)%nat.
Proof.
  intros H Ht.
  step_cases H; try discriminate Ht; unfold work;
    cbn -[processSample Nat.mul list_sum] in *.
  all: repeat match goal with
       | E : halted _ = _ |- _ => rewrite E
       | E : source _ = _ |- _ => rewrite E
       | E : samplesChan _ = _ |- _ => rewrite E
       | E : resultsChan _ = _ |- _ => rewrite E
       | E : collector _ = _ |- _ => rewrite E
       | E : mainPc _ = _ |- _ => rewrite E
       | E : file _ = _ |- _ => rewrite E
       end;
    cbn -[Nat.mul list_sum].
  all: try match goal with
       | Hw : workers _ !! _ = Some ?pc |- context [<[?i := ?pc']> ?ws] =>
         pose proof (workerWork_insert ws i pc pc' Hw) as Hsum;
         cbn [workerWork] in Hsum
       end.
  all: try match goal with
       | Hw : workers _ !! _ = Some _ |- _ =>
         pose proof (workerWork_le _ _ _ Hw) as Hin; cbn [workerWork] in Hin
       end.
  all: try match goal with
       | Hr : GoCsv.readFrom _ _ = (_, None, _) |- _ =>
         destruct (readFrom_ok _ _ _ _ Hr) as (_ & _ & _ & Hlt);
         cbn [GoCsv.pending] in Hlt
       | Hr : GoCsv.Read _ = (_, None, _) |- _ =>
         unfold GoCsv.Read in Hr;
         destruct (readFrom_ok _ _ _ _ Hr) as (_ & _ & _ & Hlt);
         cbn [GoCsv.pending] in Hlt
       end.
  all: rewrite ?length_app; cbn [List.length linesIn]; try lia.
Qed.

Lemma run_work sched :
  forall p p', run sched p = Some p' -> (moves sched + work p' <= work p)%nat.
Proof.
  induction sched as [|a rest IH]; simpl; intros p p' Hr.
  - injection Hr as <-. unfold moves. simpl. lia.
  - destruct (step a p) as [q|] eqn:Hs; [|discriminate Hr].
    specialize (IH _ _ Hr). unfold moves in *. cbn [count].
    destruct (isTick a) eqn:Ht; cbn [negb].
    + assert (Hq : work q = work p).
      { destruct a; try discriminate Ht. clear - Hs.
        step_cases Hs. unfold work. cbn -[Nat.mul list_sum].
        rewrite E, E0. reflexivity. }
      lia.
    + pose proof (step_work _ _ _ Hs Ht). lia.
Qed.

Lemma work_initial file : work (initial file) = (6 * linesIn file + 56)%nat.
Proof.
  unfold work, initial. cbn -[Nat.mul]. lia.
Qed.

(** X21. Every run is bounded: apart from the ticks of the collector's
    timer, a run over a file of [L] lines takes at most [6 L + 56] steps,
    whatever the schedule and the replies. Each line is read, sent,
    received, processed, sent on and collected at most once; the rest is
    the opening of the file, the end of the file, the fifty worker exits,
    the three steps of [main] and the return of the collector. *)
Theorem X21_runs_are_bounded file sched p :
  run sched (initial file) = Some p ->
  (moves sched <= 6 * linesIn file + 56)%nat.
Proof.
  intros Hr. pose proof (run_work _ _ _ Hr) as H.
  rewrite work_initial in H. lia.
Qed.

Lemma X21_three_records_run :
  exists p,
    run threeRecordsSchedule (initial (Some threeRecords)) = Some p
    /\ (moves threeRecordsSchedule <= 6 * linesIn (Some threeRecords) + 56)%nat.
Proof.
  eexists. split; [vm_compute; reflexivity|].
  eapply (X21_runs_are_bounded (Some threeRecords) threeRecordsSchedule).
  vm_compute. reflexivity.
Defined.

Lemma run_app s1 s2 p :
  run (s1 ++ s2) p
  = match run s1 p with
    | Some q => run s2 q
    | None => None
    end.
Proof.
  revert p. induction s1 as [|a rest IH]; intros p; simpl; [reflexivity|].
  destruct (step a p); [apply IH | reflexivity].
Qed.

Lemma can_end (env : Env) file n :
  forall p, (work p <= n)%nat -> reachable file p ->
            exists sched p', run sched p = Some p' /\ ended p'.
Proof.
  induction n as [|n IH]; intros p Hn Hr.
  - destruct (halted p) eqn:Hh.
    + exists [], p. split; [reflexivity|]. right. congruence.
    + destruct (complete_or_canMove env file p Hr Hh) as [Hc|(a & p' & Ha & Hs)].
      * exists [], p. split; [reflexivity|]. left. exact Hc.
      * assert (Ht : isTick a = false) by (destruct a; try reflexivity; contradiction).
        pose proof (step_work _ _ _ Hs Ht). lia.
  - destruct (halted p) eqn:Hh.
    + exists [], p. split; [reflexivity|]. right. congruence.
    + destruct (complete_or_canMove env file p Hr Hh) as [Hc|(a & p' & Ha & Hs)].
      * exists [], p. split; [reflexivity|]. left. exact Hc.
      * assert (Ht : isTick a = false) by (destruct a; try reflexivity; contradiction).
        pose proof (step_work _ _ _ Hs Ht).
        destruct (IH p') as (sched & p'' & Hrun & Hend);
          [lia | eapply reachable_step; eauto |].
        exists (a :: sched), p''. simpl. rewrite Hs. auto.
Qed.

(** X22. Every run can be brought to its end: from every reachable state
    some continuation reaches a state where the process has been stopped
    or where [main] has written its final entry and the collector has
    returned; with a readable header row it is the latter. *)
Theorem X22_every_run_can_be_completed (env : Env) file p :
  reachable file p ->
  exists sched p',
    run sched p = Some p'
    /\ ended p'
    /\ ((exists lines header, file = Some lines /\ headerOf lines = Some header)
        -> complete p').
Proof.
  intros Hr.
  destruct (can_end env file (work p) p (Nat.le_refl _) Hr)
    as (sched & p' & Hrun & Hend).
  exists sched, p'. split; [exact Hrun|]. split; [exact Hend|].
  intros (lines & header & -> & Hh).
  destruct Hend as [Hc|Hhalt]; [exact Hc|].
  exfalso. apply Hhalt.
  assert (Hr' : reachable (Some lines) p').
  { destruct Hr as [s0 H0]. exists (s0 ++ sched). rewrite run_app, H0. exact Hrun. }
  destruct (readable_header_never_halts lines header p' Hh Hr') as (_ & H & _).
  exact H.
Qed.

Lemma X22_after_three_records :
  exists p,
    run threeRecordsSchedule (initial (Some threeRecords)) = Some p
    /\ exists sched p',
         run sched p = Some p'
         /\ ended p'
         /\ ((exists lines header,
                Some threeRecords = Some lines /\ headerOf lines = Some header)
             -> complete p').
Proof.
  eexists. split; [vm_compute; reflexivity|].
  apply (X22_every_run_can_be_completed answersA (Some threeRecords)).
  exists threeRecordsSchedule. vm_compute. reflexivity.
Defined.

End Termination.

(** ** The label and the endpoint *)

Section Label.

(** X23. The label of a record never reaches the endpoint: with another
    label, [processSample] sends the same request and records the same
    completion, the same model answer and the same invalid flag, and adds
    the same to [total] and [invalid]; only the correct answer and the
    correct flag depend on the label, and an answer that is valid is
    correct under exactly one of the labels [0] and [1]. *)
Theorem X23_label_is_not_sent_to_the_endpoint env sample l w :
  wRequests (snd (processSample env (relabel l sample) w))
  = wRequests (snd (processSample env sample w))
  /\ ModelCompletion (fst (processSample env (relabel l sample) w))
     = ModelCompletion (fst (processSample env sample w))
  /\ ModelAnswer (fst (processSample env (relabel l sample) w))
     = ModelAnswer (fst (processSample env sample w))
  /\ IsInvalid (fst (processSample env (relabel l sample) w))
     = IsInvalid (fst (processSample env sample w))
  /\ total (wStats (snd (processSample env (relabel l sample) w)))
     = total (wStats (snd (processSample env sample w)))
  /\ invalid (wStats (snd (processSample env (relabel l sample) w)))
     = invalid (wStats (snd (processSample env sample w)))
  /\ (IsInvalid (fst (processSample env sample w)) = false ->
      IsCorrect (fst (processSample env (relabel "1" sample) w))
      = negb (IsCorrect (fst (processSample env (relabel "0" sample) w)))).
Proof.
  rewrite !processSample_eq. cbn [fst snd wRequests wStats].
  assert (Hp : forall l', buildPrompt (rnd env) (relabel l' sample) NShot
                          = buildPrompt (rnd env) sample NShot)
    by reflexivity.
  unfold responseOf. rewrite !Hp.
  cbn [ModelCompletion ModelAnswer IsInvalid IsCorrect bump total invalid].
  repeat (split; [reflexivity|]).
  set (completion := completionOf env (buildPrompt (rnd env) sample NShot)).
  unfold correctAnswerOf, relabel; cbn [Label].
  rewrite (cleanAnswer_firstStandalone completion).
  destruct (firstStandalone (list_ascii_of_string completion)) as [c|] eqn:Hf;
    [|intros H; discriminate H].
  intros _. destruct (firstStandalone_letter _ _ Hf) as [->| ->]; reflexivity.
Qed.

End Label.
